(** * swapi.js: fetch-with-cache, the orchestrator and the planet filter

    The repository holds the same program twice: a table-driven version
    (lines 1-304 of [src/swapi.js], module [First] below) and an inline
    version (lines 305-575, module [Second]).  Both keep a process-wide
    cache object and four counters, fetch a fixed sequence of endpoints
    and hand every payload to a display function.

    The development has four layers:
    - [JS]: the part of the JavaScript platform the program relies on
      (numbers, strings, JSON values, [Number], [parseInt],
      [JSON.stringify], property reads);
    - the shared program state, the display handlers, the timer of a
      request and the network oracle;
    - the two copies of [fetchFromApi], [displayLargePlanets] and
      [fetchStarWarsData], each written twice: as a computation of type
      [M], which runs with every request answered at once, and as a
      computation of type [Task.T], which is suspended at every [await]
      on a request;
    - the process: the HTTP server and the event loop, in which the
      runs started by the [/api] route interleave and the answers of the
      network arrive in any order;
    followed by the theorems. *)

From Stdlib Require Import ZArith Ascii String List Bool Lia.
From stdpp Require Import base option list gmap strings pretty.

Local Open Scope Z_scope.
#[local] Set Warnings "-register-all".

(** ** The JavaScript platform *)

Module JS.

(** *** Strings

    A JS string is modelled by its UTF-8 encoding, one [ascii] per byte.
    [length_utf16] is JS's [.length]: the number of UTF-16 code units. *)

Definition byte (c : ascii) : Z := Z.of_N (N_of_ascii c).

Definition bytes (s : string) : list Z := map byte (list_ascii_of_string s).

Definition units (b : Z) : Z :=
  if b <? 128 then 1 else if b <? 192 then 0 else if b <? 240 then 1 else 2.

Definition length_utf16 (s : string) : Z :=
  fold_right (fun b n => units b + n) 0 (bytes s).

Definition repeat_string (n : Z) (s : string) : string :=
  fold_right String.append EmptyString (repeat s (Z.to_nat n)).

Fixpoint join (sep : string) (l : list string) : string :=
  match l with
  | [] => EmptyString
  | [x] => x
  | x :: rest => x +:+ sep +:+ join sep rest
  end.

(** *** Numbers

    A JS number is an IEEE double.  [Fin d] stands for the double nearest
    to the decimal [d] = ±mantissa·10^exponent (ties to even); this is how
    [Number] and [JSON.parse] read a literal.  A number held in a parsed
    JSON value carries the shortest decimal that reads back as itself,
    which is what [Number::toString] prints. *)

Record decimal := Decimal { negative : bool; mantissa : N; exponent : Z }.

Inductive number :=
| NaN
| Infinity (neg : bool)
| Fin (d : decimal).

Definition of_Z (z : Z) : decimal := Decimal (z <? 0) (Z.abs_N z) 0.

Definition isNaN (x : number) : bool :=
  match x with NaN => true | _ => false end.

(** [x > t] for an integer constant [0 <= t < 2^53].  With [b = log2 t]
    the next double above [t > 0] is [t + 2^(b-52)], so the double nearest
    to a decimal exceeds [t] exactly when the decimal lies above the
    midpoint [t + 2^(b-53)], or on it when the significand of [t] is odd.
    Above 0 the next double is 2^-1074 and the midpoint 2^-1075. *)
Definition gt_const (x : number) (t : Z) : bool :=
  match x with
  | NaN => false
  | Infinity neg => negb neg
  | Fin (Decimal true _ _) => false
  | Fin (Decimal false m e) =>
      let k := if t =? 0 then 2 ^ 1075 else 2 ^ (53 - Z.log2 t) in
      let mid := t * k + 1 in                      (* midpoint, times k *)
      let lhs := Z.of_N m * k * 10 ^ Z.max e 0 in
      let rhs := mid * 10 ^ Z.max (- e) 0 in
      (rhs <? lhs) || ((rhs =? lhs) && Z.odd (t * 2 ^ (52 - Z.log2 t)))
  end.

(** Integer arithmetic on doubles: below 2^53 every integer is a double;
    above, the sum is rounded to 53 significant bits, ties to even.  (The
    counters of the program are sums of string lengths, which are below
    2^53, so the overflow to Infinity at 2^1024 is out of reach.) *)
Definition round53 (z : Z) : Z :=
  if z <? 2 ^ 53 then z
  else
    let k := Z.log2 z - 52 in
    let q := z / 2 ^ k in
    let r := z mod 2 ^ k in
    let h := 2 ^ (k - 1) in
    if (r <? h) || ((r =? h) && Z.even q) then q * 2 ^ k else (q + 1) * 2 ^ k.

Definition add (a b : Z) : Z := round53 (a + b).

(** *** Number::toString *)

Fixpoint strip_zeros (rev_digits : list ascii) : list ascii * Z :=
  match rev_digits with
  | "0"%char :: rest => let '(l, n) := strip_zeros rest in (l, n + 1)
  | _ => (rev_digits, 0)
  end.

Definition number_to_string (x : number) : string :=
  match x with
  | NaN => "NaN"
  | Infinity neg => if neg then "-Infinity" else "Infinity"
  | Fin (Decimal neg m e) =>
      if (m =? 0)%N then "0"
      else
        let '(rds, z) := strip_zeros (rev (list_ascii_of_string (pretty m))) in
        let ds := rev rds in
        let k := Z.of_nat (length ds) in
        let n := k + z + e in
        let digits := string_of_list_ascii ds in
        let body :=
          if (k <=? n) && (n <=? 21) then digits +:+ repeat_string (n - k) "0"
          else if (0 <? n) && (n <=? 21) then
            string_of_list_ascii (take (Z.to_nat n) ds) +:+ "." +:+
            string_of_list_ascii (drop (Z.to_nat n) ds)
          else if (-6 <? n) && (n <=? 0) then
            "0." +:+ repeat_string (- n) "0" +:+ digits
          else
            let ex := (if 0 <=? n - 1 then "+" else "-") +:+ pretty (Z.abs_N (n - 1)) in
            match ds with
            | [d] => String d EmptyString +:+ "e" +:+ ex
            | d :: rest => String d EmptyString +:+ "." +:+ string_of_list_ascii rest +:+ "e" +:+ ex
            | [] => EmptyString
            end
        in if neg then "-" +:+ body else body
  end.

(** *** Reading numbers: StringToNumber and parseInt *)

(** WhiteSpace and LineTerminator code points, UTF-8 encoded: TAB, LF, VT,
    FF, CR, SP, U+00A0, U+1680, U+2000..U+200A, U+2028, U+2029, U+202F,
    U+205F, U+3000, U+FEFF. *)
Definition white_space : list (list Z) :=
  [[9]; [10]; [11]; [12]; [13]; [32]; [194; 160]; [225; 154; 128]]
  ++ map (fun b => [226; 128; b]) [128; 129; 130; 131; 132; 133; 134; 135; 136; 137; 138]
  ++ [[226; 128; 168]; [226; 128; 169]; [226; 128; 175]; [226; 129; 159];
      [227; 128; 128]; [239; 187; 191]].

Fixpoint strip_prefix (p l : list Z) : option (list Z) :=
  match p, l with
  | [], _ => Some l
  | a :: p', b :: l' => if a =? b then strip_prefix p' l' else None
  | _ :: _, [] => None
  end.

Fixpoint strip_any (ps : list (list Z)) (l : list Z) : option (list Z) :=
  match ps with
  | [] => None
  | p :: rest =>
      match strip_prefix p l with
      | Some l' => Some l'
      | None => strip_any rest l
      end
  end.

Fixpoint trim_fuel (fuel : nat) (ws : list (list Z)) (l : list Z) : list Z :=
  match fuel with
  | O => l
  | S fuel' =>
      match strip_any ws l with
      | Some l' => trim_fuel fuel' ws l'
      | None => l
      end
  end.

Definition trim_start (l : list Z) : list Z := trim_fuel (length l) white_space l.

Definition trim_end (l : list Z) : list Z :=
  rev (trim_fuel (length l) (map (@rev Z) white_space) (rev l)).

Definition digit_value (radix b : Z) : option Z :=
  let v := if (48 <=? b) && (b <=? 57) then b - 48
           else if (97 <=? b) && (b <=? 122) then b - 87
           else if (65 <=? b) && (b <=? 90) then b - 55
           else 36 in
  if v <? radix then Some v else None.

(** The longest prefix of digits of the radix, as digit values, and the rest. *)
Fixpoint span_digits (radix : Z) (l : list Z) : list Z * list Z :=
  match l with
  | [] => ([], [])
  | b :: rest =>
      match digit_value radix b with
      | Some v => let '(ds, r) := span_digits radix rest in (v :: ds, r)
      | None => ([], l)
      end
  end.

Definition digits_value (radix : Z) (ds : list Z) : N :=
  Z.to_N (fold_left (fun acc d => acc * radix + d) ds 0).

Definition is_nil {A} (l : list A) : bool :=
  match l with [] => true | _ => false end.

(** NonDecimalIntegerLiteral: 0x, 0o, 0b and their upper-case forms. *)
Definition non_decimal (l : list Z) : option number :=
  match l with
  | 48 :: p :: rest =>
      let radix := if (p =? 120) || (p =? 88) then 16
                   else if (p =? 111) || (p =? 79) then 8
                   else if (p =? 98) || (p =? 66) then 2 else 0 in
      if radix =? 0 then None
      else
        let '(ds, r) := span_digits radix rest in
        if negb (is_nil ds) && is_nil r
        then Some (Fin (Decimal false (digits_value radix ds) 0))
        else Some NaN
  | _ => None
  end.

(** ExponentPart_opt at the end of a literal: [None] when malformed. *)
Definition exponent_part (l : list Z) : option Z :=
  match l with
  | [] => Some 0
  | c :: rest =>
      if (c =? 101) || (c =? 69) then
        let '(neg, rest') :=
          match rest with
          | 43 :: r => (false, r)
          | 45 :: r => (true, r)
          | _ => (false, rest)
          end in
        let '(ds, r) := span_digits 10 rest' in
        if negb (is_nil ds) && is_nil r
        then Some (let v := Z.of_N (digits_value 10 ds) in if neg then - v else v)
        else None
      else None
  end.

(** StrUnsignedDecimalLiteral. *)
Definition unsigned_decimal (neg : bool) (l : list Z) : number :=
  if decide (l = bytes "Infinity") then Infinity neg
  else
    let '(ip, r1) := span_digits 10 l in
    let '(fp, r2) :=
      match r1 with
      | 46 :: r => span_digits 10 r
      | _ => ([], r1)
      end in
    if is_nil ip && is_nil fp then NaN
    else
      match exponent_part r2 with
      | Some ex => Fin (Decimal neg (digits_value 10 (ip ++ fp)) (ex - Z.of_nat (length fp)))
      | None => NaN
      end.

Definition StringToNumber (s : string) : number :=
  let l := trim_end (trim_start (bytes s)) in
  match l with
  | [] => Fin (Decimal false 0 0)
  | 43 :: rest => unsigned_decimal false rest
  | 45 :: rest => unsigned_decimal true rest
  | _ =>
      match non_decimal l with
      | Some n => n
      | None => unsigned_decimal false l
      end
  end.

(** [parseInt(s)] with no radix argument. *)
Definition parseInt_string (s : string) : number :=
  let l := trim_start (bytes s) in
  let '(neg, l1) :=
    match l with
    | 43 :: r => (false, r)
    | 45 :: r => (true, r)
    | _ => (false, l)
    end in
  let '(radix, l2) :=
    match l1 with
    | 48 :: p :: r => if (p =? 120) || (p =? 88) then (16, r) else (10, l1)
    | _ => (10, l1)
    end in
  let '(ds, _) := span_digits radix l2 in
  if is_nil ds then NaN else Fin (Decimal neg (digits_value radix ds) 0).

(** *** JSON values

    What [JSON.parse] returns.  An object lists its own properties in
    enumeration order; a number carries its shortest decimal. *)

Inductive json :=
| JNull
| JBool (b : bool)
| JNum (d : decimal)
| JStr (s : string)
| JArr (items : list json)
| JObj (fields : list (string * json)).

(** The result of a property read: a JSON value or [undefined]. *)
Inductive value :=
| Undefined
| Val (j : json).

Definition truthy (j : json) : bool :=
  match j with
  | JNull => false
  | JBool b => b
  | JNum d => negb (mantissa d =? 0)%N
  | JStr s => negb (String.eqb s EmptyString)
  | JArr _ | JObj _ => true
  end.

Fixpoint own (k : string) (fields : list (string * json)) : option json :=
  match fields with
  | [] => None
  | (k', v) :: rest => if String.eqb k k' then Some v else own k rest
  end.

Fixpoint set_own (k : string) (v : json) (fields : list (string * json)) :
    list (string * json) :=
  match fields with
  | [] => []
  | (k', v') :: rest =>
      if String.eqb k k' then (k', v) :: rest else (k', v') :: set_own k v rest
  end.

(** [v.k] for the property names the program reads (data fields and
    [length]); none of them is a member of a built-in prototype.  [None]
    is the TypeError of reading a property of [null] or [undefined]. *)
Definition get (v : value) (k : string) : option value :=
  match v with
  | Undefined | Val JNull => None
  | Val (JObj fields) =>
      Some (match own k fields with Some x => Val x | None => Undefined end)
  | Val (JArr items) =>
      Some (if String.eqb k "length"
            then Val (JNum (of_Z (Z.of_nat (length items)))) else Undefined)
  | Val (JStr s) =>
      Some (if String.eqb k "length"
            then Val (JNum (of_Z (length_utf16 s))) else Undefined)
  | Val (JBool _) | Val (JNum _) => Some Undefined
  end.

(** [v?.k] *)
Definition get_opt (v : value) (k : string) : option value :=
  match v with
  | Undefined | Val JNull => Some Undefined
  | _ => get v k
  end.

(** [v !== s] for a string constant [s]. *)
Definition differs (v : value) (s : string) : bool :=
  match v with
  | Val (JStr s') => negb (String.eqb s' s)
  | _ => true
  end.

Definition has_own (k : string) (fields : list (string * json)) : bool :=
  match own k fields with Some _ => true | None => false end.

Fixpoint all_some {A} (l : list (option A)) : option (list A) :=
  match l with
  | [] => Some []
  | None :: _ => None
  | Some x :: rest =>
      match all_some rest with
      | Some xs => Some (x :: xs)
      | None => None
      end
  end.

(** ToString of a JSON value.  An array is joined with commas, [null]
    elements printing as the empty string.  An object parsed from JSON has
    no callable own property: with an own [toString] key neither
    [toString] nor the inherited [valueOf] yields a primitive and the
    conversion throws a TypeError ([None]); without one the inherited
    [toString] answers. *)
Fixpoint to_string (j : json) : option string :=
  match j with
  | JNull => Some "null"
  | JBool b => Some (if b then "true" else "false")
  | JNum d => Some (number_to_string (Fin d))
  | JStr s => Some s
  | JArr items =>
      match all_some (map (fun x => match x with
                                    | JNull => Some EmptyString
                                    | _ => to_string x
                                    end) items) with
      | Some parts => Some (join "," parts)
      | None => None
      end
  | JObj fields =>
      if has_own "toString" fields then None else Some "[object Object]"
  end.

Definition ToString (v : value) : option string :=
  match v with
  | Undefined => Some "undefined"
  | Val j => to_string j
  end.

(** ToNumber: arrays and objects go through their string conversion. *)
Definition ToNumber (v : value) : option number :=
  match v with
  | Undefined => Some NaN
  | Val JNull => Some (Fin (of_Z 0))
  | Val (JBool b) => Some (Fin (of_Z (if b then 1 else 0)))
  | Val (JNum d) => Some (Fin d)
  | Val (JStr s) => Some (StringToNumber s)
  | Val j => StringToNumber <$> to_string j
  end.

(** [Number(v)], [parseInt(v)] and [v > t]. *)
Definition Number (v : value) : option number := ToNumber v.

Definition parseInt (v : value) : option number := parseInt_string <$> ToString v.

Definition gt (v : value) (t : Z) : option bool :=
  (fun x => gt_const x t) <$> ToNumber v.

(** *** JSON.stringify *)

Definition hex_digit (v : Z) : ascii :=
  ascii_of_N (Z.to_N (if v <? 10 then 48 + v else 87 + v)).

Definition backslash : string := String (ascii_of_N 92) EmptyString.

Definition quote_byte (b : Z) : string :=
  let c := String (ascii_of_N (Z.to_N b)) EmptyString in
  if b =? 8 then backslash +:+ "b"
  else if b =? 9 then backslash +:+ "t"
  else if b =? 10 then backslash +:+ "n"
  else if b =? 12 then backslash +:+ "f"
  else if b =? 13 then backslash +:+ "r"
  else if (b =? 34) || (b =? 92) then backslash +:+ c
  else if b <? 32 then
    backslash +:+ "u00" +:+
    String (hex_digit (b / 16)) (String (hex_digit (b mod 16)) EmptyString)
  else c.

Definition double_quote : string := String (ascii_of_N 34) EmptyString.

Definition quote (s : string) : string :=
  double_quote +:+ fold_right (fun b r => quote_byte b +:+ r) EmptyString (bytes s)
  +:+ double_quote.

Fixpoint JSON_stringify (j : json) : string :=
  match j with
  | JNull => "null"
  | JBool b => if b then "true" else "false"
  | JNum d => number_to_string (Fin d)
  | JStr s => quote s
  | JArr items => "[" +:+ join "," (map JSON_stringify items) +:+ "]"
  | JObj fields =>
      "{" +:+ join "," (map (fun kv => quote (fst kv) +:+ ":" +:+ JSON_stringify (snd kv)) fields)
      +:+ "}"
  end.

End JS.

Import JS.

(** ** Program state *)

Definition DEFAULT_TIMEOUT : Z := 5000.
Definition MAX_STARSHIPS_DISPLAY : nat := 3.
Definition PLANET_POPULATION_THRESHOLD : Z := 1000000000.
Definition PLANET_DIAMETER_THRESHOLD : Z := 10000.
Definition BAD_REQUEST : Z := 400.
Definition maxlastCharacterId : Z := 4.

(** ** Timers

    [request.setTimeout(msecs, callback)] validates the duration before
    it does anything else: NaN, a negative number and an infinite one
    make it throw a RangeError (ERR_OUT_OF_RANGE), and the duration 0
    (or -0) sets no timer at all.  [Fin d] being the double nearest to
    the decimal [d], the duration is 0 when [d] is at most 2^-1075 in
    magnitude and infinite when it reaches 2^1024 - 2^970. *)

Inductive timer :=
| OutOfRange      (* setTimeout throws *)
| Disabled        (* no timer: the request can wait for ever *)
| Armed.          (* 'timeout' is emitted after the idle time *)

Definition rounds_to_zero (d : decimal) : bool :=
  Z.of_N (mantissa d) * 2 ^ 1075 * 10 ^ Z.max (exponent d) 0
  <=? 10 ^ Z.max (- exponent d) 0.

Definition overflows (d : decimal) : bool :=
  (2 ^ 1024 - 2 ^ 970) * 10 ^ Z.max (- exponent d) 0
  <=? Z.of_N (mantissa d) * 10 ^ Z.max (exponent d) 0.

Definition setTimeout (msecs : number) : timer :=
  match msecs with
  | NaN | Infinity _ => OutOfRange
  | Fin d =>
      if rounds_to_zero d then Disabled
      else if negative d || overflows d then OutOfRange
      else Armed
  end.

(** ** Requests in flight

    An outbound request that has been issued and not answered yet, with
    what the executor of its promise got to attach before it ended:
    [serial] is its index among the requests of the process, [timed]
    tells whether a timer runs for it, [guarded] whether an ['error']
    listener is attached, [awaited] whether its promise is still pending
    (it is not when [setTimeout] threw and rejected it). *)
Record flight := Flight {
  serial : nat;
  target : string;
  timed : bool;
  guarded : bool;
  awaited : bool
}.

(** The module-level variables.  [requests], [calls] and [orphans] are
    ghost fields: the endpoints of the outbound requests issued so far
    and the arguments of the [fetchFromApi] calls made so far, oldest
    first, and the requests in flight that no run awaits, their promise
    having been rejected by [setTimeout], newest first. *)
Record state := State {
  cache : gmap string json;
  debugMode : bool;
  timeout : number;
  errorCount : Z;
  fetchCount : Z;
  totalDataSize : Z;
  lastCharacterId : Z;
  requests : list string;
  calls : list string;
  orphans : list flight
}.

Definition init : state :=
  State ∅ true (Fin (of_Z DEFAULT_TIMEOUT)) 0 0 0 1 [] [] [].

Definition set_cache (f : gmap string json → gmap string json) (st : state) : state :=
  State (f (cache st)) (debugMode st) (timeout st) (errorCount st) (fetchCount st)
        (totalDataSize st) (lastCharacterId st) (requests st) (calls st) (orphans st).

Definition set_debugMode (b : bool) (st : state) : state :=
  State (cache st) b (timeout st) (errorCount st) (fetchCount st)
        (totalDataSize st) (lastCharacterId st) (requests st) (calls st) (orphans st).

Definition set_timeout (t : number) (st : state) : state :=
  State (cache st) (debugMode st) t (errorCount st) (fetchCount st)
        (totalDataSize st) (lastCharacterId st) (requests st) (calls st) (orphans st).

Definition set_errorCount (f : Z → Z) (st : state) : state :=
  State (cache st) (debugMode st) (timeout st) (f (errorCount st)) (fetchCount st)
        (totalDataSize st) (lastCharacterId st) (requests st) (calls st) (orphans st).

Definition set_fetchCount (f : Z → Z) (st : state) : state :=
  State (cache st) (debugMode st) (timeout st) (errorCount st) (f (fetchCount st))
        (totalDataSize st) (lastCharacterId st) (requests st) (calls st) (orphans st).

Definition set_totalDataSize (f : Z → Z) (st : state) : state :=
  State (cache st) (debugMode st) (timeout st) (errorCount st) (fetchCount st)
        (f (totalDataSize st)) (lastCharacterId st) (requests st) (calls st) (orphans st).

Definition set_lastCharacterId (f : Z → Z) (st : state) : state :=
  State (cache st) (debugMode st) (timeout st) (errorCount st) (fetchCount st)
        (totalDataSize st) (f (lastCharacterId st)) (requests st) (calls st) (orphans st).

Definition log_request (endpoint : string) (st : state) : state :=
  State (cache st) (debugMode st) (timeout st) (errorCount st) (fetchCount st)
        (totalDataSize st) (lastCharacterId st) (requests st ++ [endpoint]) (calls st) (orphans st).

Definition log_call (endpoint : string) (st : state) : state :=
  State (cache st) (debugMode st) (timeout st) (errorCount st) (fetchCount st)
        (totalDataSize st) (lastCharacterId st) (requests st) (calls st ++ [endpoint]) (orphans st).

Definition set_orphans (f : list flight → list flight) (st : state) : state :=
  State (cache st) (debugMode st) (timeout st) (errorCount st) (fetchCount st)
        (totalDataSize st) (lastCharacterId st) (requests st) (calls st) (f (orphans st)).

(** A request is left to itself when its promise is rejected before the
    answer, and lands when the network has answered it. *)
Definition abandon (f : flight) : state → state := set_orphans (cons f).

Fixpoint without (n : nat) (l : list flight) : list flight :=
  match l with
  | [] => []
  | f :: rest => if (serial f =? n)%nat then rest else f :: without n rest
  end.

Definition land (f : flight) : state → state := set_orphans (without (serial f)).

(** [x++] on a counter. *)
Definition incr (x : Z) : Z := JS.add x 1.

(** The values of the [/stats] route. *)
Record stats := Stats {
  api_calls : Z;
  cache_size : Z;
  data_size : Z;
  errors : Z;
  debug : bool;
  timeout_ms : number
}.

(** ** The cache object

    [cache] is a plain object literal, so a read [cache[endpoint]] that
    finds no own property falls through to [Object.prototype].  The
    program only ever stores under keys whose read was falsy, hence never
    under a member of the prototype. *)

Definition object_prototype : list string :=
  ["constructor"; "__defineGetter__"; "__defineSetter__"; "hasOwnProperty";
   "__lookupGetter__"; "__lookupSetter__"; "isPrototypeOf";
   "propertyIsEnumerable"; "toString"; "valueOf"; "toLocaleString"; "__proto__"].

Inductive cached :=
| Data (j : json)              (* an own property: a parsed response *)
| Inherited (name : string).   (* a member of Object.prototype *)

Definition cache_read (c : gmap string json) (endpoint : string) : option cached :=
  match c !! endpoint with
  | Some j => Some (Data j)
  | None =>
      if bool_decide (endpoint ∈ object_prototype)
      then Some (Inherited endpoint) else None
  end.

Definition truthy_cached (v : cached) : bool :=
  match v with
  | Data j => truthy j
  | Inherited _ => true
  end.

(** [JSON.stringify(data).length]: [JSON.stringify] of a function is
    [undefined], whose [length] is a TypeError; [Object.prototype] itself
    (the value of [__proto__]) prints as an empty object. *)
Definition stringify_length (v : cached) : option Z :=
  match v with
  | Data j => Some (length_utf16 (JSON_stringify j))
  | Inherited name =>
      if String.eqb name "__proto__" then Some 2 else None
  end.

Definition payload (v : cached) : json :=
  match v with
  | Data j => j
  | Inherited _ => JObj []
  end.

(** ** The network

    The network answers one outbound [https.get] in one of three ways.
    The body of a response is given as [JSON.parse] sees it: [Some v]
    when the raw data is well-formed JSON for [v], [None] when
    [JSON.parse] throws.  The oracle answers the n-th request of the
    process for an endpoint; when the answer arrives, relative to all
    else that happens in the process, is not its affair.  [NoResponse]
    is a socket that stays idle: the timer of the request, if it has
    one, fires. *)

Inductive outcome :=
| ConnectionError (message : string)      (* the request emits 'error' *)
| NoResponse                              (* idle: 'timeout', with a timer *)
| Response (statusCode : Z) (body : option json).

Definition network := nat → string → outcome.

Inductive error :=
| HttpStatusError (statusCode : Z)   (* Error(Request failed with status code N) *)
| TimeoutError (endpoint : string)   (* Error(Request timeout for E) *)
| NetworkError (message : string)    (* the error of the 'error' event *)
| ParseError                         (* the SyntaxError of JSON.parse *)
| RangeError                         (* ERR_OUT_OF_RANGE of setTimeout *)
| TypeError.

(** ** Computations

    A computation of type [M] is a piece of the program run with every
    request it issues answered at once, before anything else happens in
    the process.  [Ok] is normal completion, [Thrown] an exception or
    rejected promise travelling up to the nearest [catch], [Crashed] an
    exception that escapes an event listener: nothing catches it and Node
    ends the process.  [Waiting] is an [await] on a promise that never
    settles: the rest does not run. *)

Inductive result (A : Type) :=
| Ok (a : A) (st : state)
| Thrown (e : error) (st : state)
| Crashed (e : error) (st : state)
| Waiting (st : state).

Arguments Ok {A} a st.
Arguments Thrown {A} e st.
Arguments Crashed {A} e st.
Arguments Waiting {A} st.

Definition M (A : Type) := state → result A.

Definition ret {A} (a : A) : M A := fun st => Ok a st.

Definition bind {A B} (m : M A) (k : A → M B) : M B := fun st =>
  match m st with
  | Ok a st' => k a st'
  | Thrown e st' => Thrown e st'
  | Crashed e st' => Crashed e st'
  | Waiting st' => Waiting st'
  end.

Definition gets {A} (f : state → A) : M A := fun st => Ok (f st) st.

Definition modify (f : state → state) : M unit := fun st => Ok tt (f st).

Definition try_catch (body : M unit) (handler : error → M unit) : M unit := fun st =>
  match body st with
  | Thrown e st' => handler e st'
  | r => r
  end.

Declare Scope js_scope.
Delimit Scope js_scope with js.
Notation "'let*' x ':=' m 'in' k" := (bind m (fun x => k))
  (at level 10, x name, m at level 100, k at level 200) : js_scope.
Notation "m ';;;' k" := (bind m (fun _ => k))
  (at level 100, k at level 200, right associativity) : js_scope.

Fixpoint for_of {A} (l : list A) (body : A → M unit) : M unit :=
  match l with
  | [] => ret tt
  | x :: rest => (body x ;;; for_of rest body)%js
  end.

Definition state_of {A} (r : result A) : state :=
  match r with
  | Ok _ st | Thrown _ st | Crashed _ st | Waiting st => st
  end.

(** Lida com erros e atualiza contador *)
Definition handleError (message : error) : M unit :=
  modify (set_errorCount incr).

(** Processa argumentos da linha de comando *)
Definition processCommandLineArgs (args : list string) (st : state) : state :=
  let st1 := if bool_decide ("--no-debug" ∈ args) then set_debugMode false st else st in
  match list_find (fun a => a = "--timeout") args with
  | Some (index, _) =>
      match args !! S index with
      | Some a => set_timeout (parseInt_string a) st1
      | None => st1
      end
  | None => st1
  end.

Definition statsStringfied (st : state) : stats :=
  Stats (fetchCount st) (Z.of_nat (size (cache st))) (totalDataSize st)
        (errorCount st) (debugMode st) (timeout st).

(** ** Display handlers

    A handler prints to the console and returns nothing.  What the rest of
    the program can observe of a call is kept in a [display]: the items
    for which a line was printed, whether the call threw, and the payload
    as the call left it (only the film handler changes its argument, by
    sorting in place).  The body of a handler runs in [H]: the items shown
    so far and [None] once a TypeError is thrown. *)

Record display := Display {
  displayed : list json;
  threw : bool;
  after : json
}.

Definition H (A : Type) : Type := list json * option A.

Definition pure {A} (a : A) : H A := ([], Some a).

Definition eval {A} (o : option A) : H A := ([], o).

Definition show (item : json) : H unit := ([item], Some tt).

Definition and_then {A B} (m : H A) (k : A → H B) : H B :=
  match m with
  | (w, Some a) => let '(w', r) := k a in (w ++ w', r)
  | (w, None) => (w, None)
  end.

Declare Scope display_scope.
Delimit Scope display_scope with display.
Notation "'let*' x ':=' m 'in' k" := (and_then m (fun x => k))
  (at level 10, x name, m at level 100, k at level 200) : display_scope.
Notation "m ';;;' k" := (and_then m (fun _ => k))
  (at level 100, k at level 200, right associativity) : display_scope.

Fixpoint forEach {A} (l : list A) (body : A → H unit) : H unit :=
  match l with
  | [] => pure tt
  | x :: rest => (body x ;;; forEach rest body)%display
  end.

Definition finish (data : json) (h : H unit) : display :=
  Display (fst h) (match snd h with Some _ => false | None => true end) data.

(** A method of [Array.prototype] called on [v]: a TypeError unless [v]
    is an array (other JSON values have no callable [slice], [filter],
    [forEach] or [sort] to chain on). *)
Definition as_array (v : value) : option (list json) :=
  match v with
  | Val (JArr items) => Some items
  | _ => None
  end.

(** The test of an [if] on a value. *)
Definition truthy_value (v : value) : bool :=
  match v with
  | Undefined => false
  | Val j => truthy j
  end.

(** A template literal placeholder: the value is converted to a string. *)
Definition interpolate (v : value) : H unit :=
  (eval (ToString v) ;;; pure tt)%display.

(** [console.log(label, v.k)] *)
Definition log_field (v : value) (k : string) : H unit :=
  (eval (get v k) ;;; pure tt)%display.

(** Exibe detalhes de uma pessoa *)
Definition displayCharacterDetails (character : json) : display :=
  let c := Val character in
  finish character
    (log_field c "name" ;;;
     show character ;;;
     log_field c "height" ;;;
     log_field c "mass" ;;;
     log_field c "birth_year" ;;;
     let* films := eval (get c "films") in
     let* len := eval (get_opt films "length") in
     let* some := eval (gt len 0) in
     if some then log_field films "length" else pure tt)%display.

(** Exibe uma lista de naves *)
Definition displayStarships (starships : json) : display :=
  let s := Val starships in
  finish starships
    (log_field s "count" ;;;
     let* results := eval (get s "results") in
     let* items := eval (as_array results) in
     forEach (take MAX_STARSHIPS_DISPLAY items) (fun ship =>
       let sh := Val ship in
       show ship ;;;
       log_field sh "name" ;;;
       log_field sh "model" ;;;
       log_field sh "manufacturer" ;;;
       let* cost := eval (get sh "cost_in_credits") in
       (if differs cost "unknown" then interpolate cost else pure tt) ;;;
       log_field sh "max_atmosphering_speed" ;;;
       log_field sh "hyperdrive_rating" ;;;
       let* pilots := eval (get sh "pilots") in
       let* len := eval (get_opt pilots "length") in
       let* some := eval (gt len 0) in
       if some then log_field pilots "length" else pure tt))%display.

(** The comparator of the film sort reads [release_date] of an element
    and builds a [Date] from it, which converts an array or object to a
    primitive (throwing exactly when its string conversion throws). *)
Definition compared (film : json) : option unit :=
  release_date ← get (Val film) "release_date";
  _ ← ToString release_date;
  Some tt.

Definition with_results (results : list json) (films : json) : json :=
  match films with
  | JObj fields => JObj (set_own "results" (JArr results) fields)
  | _ => films
  end.

(** Ordena e exibe os filmes por data de lançamento.

    [sort] is [Array.prototype.sort] with the release-date comparator: the
    order it produces rests on the platform's date parsing.  The sort is
    in place; a comparator that throws (it is called on every element of
    an array of two or more) leaves the array as it was. *)
Definition displayFilmsChronologically (sort : list json → list json)
    (films : json) : display :=
  match get (Val films) "results" ≫= as_array with
  | None => Display [] true films
  | Some items =>
      if (2 <=? length items)%nat &&
         negb (forallb (fun film => bool_decide (is_Some (compared film))) items)
      then Display [] true films
      else
        let sortedFilms := sort items in
        finish (with_results sortedFilms films)
          (forEach sortedFilms (fun film =>
             let f := Val film in
             let* title := eval (get f "title") in
             interpolate title ;;;
             let* release_date := eval (get f "release_date") in
             interpolate release_date ;;;
             show film ;;;
             let* director := eval (get f "director") in
             interpolate director ;;;
             let* producer := eval (get f "producer") in
             interpolate producer ;;;
             let* characters := eval (get f "characters") in
             let* n := eval (get characters "length") in
             interpolate n ;;;
             let* planets := eval (get f "planets") in
             let* m := eval (get planets "length") in
             interpolate m))%display
  end.

(** Exibe um veículo específico *)
Definition displayVehicle (vehicle : json) : display :=
  let v := Val vehicle in
  finish vehicle
    (log_field v "name" ;;;
     show vehicle ;;;
     log_field v "model" ;;;
     log_field v "manufacturer" ;;;
     log_field v "cost_in_credits" ;;;
     log_field v "length" ;;;
     log_field v "crew" ;;;
     log_field v "passengers")%display.

(** [Array.prototype.filter] with a callback that may throw. *)
Fixpoint filter_throwing {A} (f : A → option bool) (l : list A) : option (list A) :=
  match l with
  | [] => Some []
  | x :: rest =>
      keep ← f x;
      kept ← filter_throwing f rest;
      Some (if keep : bool then x :: kept else kept)
  end.

(** ** One fetch-and-display step of the orchestrator

<<
    const data = await fetchFromApi(endpoint);
    totalDataSize += JSON.stringify(data).length;
    handler(data);
>>
    [fetch] returns the value together with a flag telling whether it is
    the very object held in the cache; if so, what the handler does to it
    in place shows in the cache. *)

Definition handler := json → display.

Definition of_option {A} (o : option A) : M A := fun st =>
  match o with
  | Some a => Ok a st
  | None => Thrown TypeError st
  end.

Definition call_handler (endpoint : string) (h : handler) (data : cached)
    (shared : bool) : M unit := fun st =>
  let d := h (payload data) in
  let st' :=
    match data with
    | Data _ => if shared then set_cache (insert endpoint (after d)) st else st
    | Inherited _ => st
    end in
  if threw d then Thrown TypeError st' else Ok tt st'.

Definition present (fetch : string → M (cached * bool)) (endpoint : string)
    (h : handler) : M unit :=
  (let* r := fetch endpoint in
   let* size := of_option (stringify_length (fst r)) in
   modify (set_totalDataSize (fun total => JS.add total size)) ;;;
   call_handler endpoint h (fst r) (snd r))%js.

(** The endpoint built by a template literal from the rotating id. *)
Definition with_id (prefix : string) (id : Z) : string :=
  prefix +:+ number_to_string (Fin (of_Z id)).

(** ** Runs of an [async] function

    An [async] function runs until it awaits a promise that is still
    pending, and goes on when the promise settles; in between the process
    does other things.  A computation of type [Task.T] runs as far as
    that: it returns, throws, or is [Suspended f st k], having issued the
    request [f] and left the state [st], with [k] for the rest of it once
    the promise is settled.  An [await] on a promise that is settled
    already goes on at once, before any other event of the process. *)

Declare Scope task_scope.
Delimit Scope task_scope with task.

Module Task.

Inductive settlement :=
| Fulfilled (v : cached * bool)
| RejectedWith (e : error).

Inductive task (A : Type) :=
| Returned (a : A) (st : state)
| Raised (e : error) (st : state)
| Suspended (f : flight) (st : state) (k : settlement → state → task A).

Arguments Returned {A} a st.
Arguments Raised {A} e st.
Arguments Suspended {A} f st k.

Definition T (A : Type) := state → task A.

Definition ret {A} (a : A) : T A := fun st => Returned a st.

Fixpoint chain {A B} (t : task A) (k : A → T B) : task B :=
  match t with
  | Returned a st => k a st
  | Raised e st => Raised e st
  | Suspended f st rest => Suspended f st (fun s st' => chain (rest s st') k)
  end.

Definition bind {A B} (m : T A) (k : A → T B) : T B := fun st => chain (m st) k.

Definition gets {A} (f : state → A) : T A := fun st => Returned (f st) st.

Definition modify (f : state → state) : T unit := fun st => Returned tt (f st).

Fixpoint rescue (t : task unit) (handler : error → T unit) : task unit :=
  match t with
  | Returned a st => Returned a st
  | Raised e st => handler e st
  | Suspended f st rest => Suspended f st (fun s st' => rescue (rest s st') handler)
  end.

Definition try_catch (body : T unit) (handler : error → T unit) : T unit := fun st =>
  rescue (body st) handler.

Notation "'let*' x ':=' m 'in' k" := (bind m (fun x => k))
  (at level 10, x name, m at level 100, k at level 200) : task_scope.
Notation "m ';;;' k" := (bind m (fun _ => k))
  (at level 100, k at level 200, right associativity) : task_scope.

Fixpoint for_of {A} (l : list A) (body : A → T unit) : T unit :=
  match l with
  | [] => ret tt
  | x :: rest => (body x ;;; for_of rest body)%task
  end.

(** [await] on the promise of a request: the run goes on with the value
    the promise is fulfilled with, or with its rejection thrown. *)
Definition await (f : flight) : T (cached * bool) := fun st =>
  Suspended f st (fun s st' =>
    match s with
    | Fulfilled v => Returned v st'
    | RejectedWith e => Raised e st'
    end).

Definition of_option {A} (o : option A) : T A := fun st =>
  match o with
  | Some a => Returned a st
  | None => Raised TypeError st
  end.

Definition handleError (message : error) : T unit :=
  modify (set_errorCount incr).

Definition call_handler (endpoint : string) (h : handler) (data : cached)
    (shared : bool) : T unit := fun st =>
  let d := h (payload data) in
  let st' :=
    match data with
    | Data _ => if shared then set_cache (insert endpoint (after d)) st else st
    | Inherited _ => st
    end in
  if threw d then Raised TypeError st' else Returned tt st'.

Definition present (fetch : string → T (cached * bool)) (endpoint : string)
    (h : handler) : T unit :=
  (let* r := fetch endpoint in
   let* size := of_option (stringify_length (fst r)) in
   modify (set_totalDataSize (fun total => JS.add total size)) ;;;
   call_handler endpoint h (fst r) (snd r))%task.

End Task.

Notation "'let*' x ':=' m 'in' k" := (Task.bind m (fun x => k))
  (at level 10, x name, m at level 100, k at level 200) : task_scope.
Notation "m ';;;' k" := (Task.bind m (fun _ => k))
  (at level 100, k at level 200, right associativity) : task_scope.

(** ** The process

    The state of the module, the runs that are suspended, each with the
    request it waits for, and the uncaught exception that ended the
    process, if one did.  An unhandled rejection of the promise of a run
    ends the process as an uncaught exception does. *)

Record process := Process {
  memory : state;
  suspended : list (flight * (Task.settlement → state → Task.task unit));
  ended : option error
}.

(** A run has gone as far as it can. *)
Definition proceed (t : Task.task unit) (p : process) : process :=
  match t with
  | Task.Returned _ st => Process st (suspended p) (ended p)
  | Task.Raised e st => Process st (suspended p) (Some e)
  | Task.Suspended f st k => Process st ((f, k) :: suspended p) (ended p)
  end.

(** What a route of the HTTP server answers. *)
Inductive reply :=
| HomePage
| Acknowledged              (* "Check server console for results" *)
| StatsBody (s : stats)
| NotFound.

(** ** First copy (lines 1-304): task table, [knownNumber] filter *)

Module First.
Section Program.

Variable net : network.
Variable sort : list json → list json.

(** Busca dados da API com cache.

    The executor of the promise: [https.get] issues the request with its
    response callback, then [request.setTimeout] and, only if that did
    not throw, [request.on("error", reject)]. *)
Definition launch (endpoint : string) (st : state) : flight * state :=
  let n := length (requests st) in
  let st1 := log_request endpoint st in
  match setTimeout (timeout st) with
  | OutOfRange => let f := Flight n endpoint false false false in (f, abandon f st1)
  | Disabled => (Flight n endpoint false true true, st1)
  | Armed => (Flight n endpoint true true true, st1)
  end.

(** What the listeners of a request do when the network answers it.  The
    [try] of the response callback has ended by the time the ['end']
    listener runs, so an exception of [JSON.parse] there is caught by
    nobody.  The promise resolves with a second parse of the raw data, not
    with the object stored in the cache.  [resolve] and [reject] do
    nothing on a promise that is settled already, but the cache is
    written all the same. *)
Definition answer (f : flight) : M (cached * bool) := fun st =>
  match net (serial f) (target f) with
  | Response statusCode body =>
      if BAD_REQUEST <=? statusCode then Thrown (HttpStatusError statusCode) st
      else
        match body with
        | Some parsed => Ok (Data parsed, false) (set_cache (insert (target f) parsed) st)
        | None => Crashed ParseError st
        end
  | NoResponse => if timed f then Thrown (TimeoutError (target f)) st else Waiting st
  | ConnectionError message =>
      if guarded f then Thrown (NetworkError message) st
      else Crashed (NetworkError message) st
  end.

(** [await new Promise(...)] with the answer arriving at once. *)
Definition request (endpoint : string) : M (cached * bool) := fun st =>
  let '(f, st1) := launch endpoint st in
  if awaited f then answer f st1 else Thrown RangeError st1.

Definition fetchFromApi (endpoint : string) : M (cached * bool) := fun st0 =>
  let st := log_call endpoint st0 in
  match cache_read (cache st) endpoint with
  | Some v => if truthy_cached v then Ok (v, true) st else request endpoint st
  | None => request endpoint st
  end.

Definition knownNumber (numberOrString : value) : option bool :=
  if differs numberOrString "unknown"
  then n ← Number numberOrString; Some (negb (isNaN n))
  else Some false.

(** filtra se a populacao de um planeta passa do limite *)
Definition hasLargePopulation (planet : json) : option bool :=
  population ← get (Val planet) "population";
  known ← knownNumber population;
  if known : bool
  then n ← Number population; Some (gt_const n PLANET_POPULATION_THRESHOLD)
  else Some false.

(** filtra se o diametro de um planeta passa do limite *)
Definition hasLargeDiameter (planet : json) : option bool :=
  diameter ← get (Val planet) "diameter";
  known ← knownNumber diameter;
  if known : bool
  then n ← Number diameter; Some (gt_const n PLANET_DIAMETER_THRESHOLD)
  else Some false.

Definition isBigPopulatedPlanet (planet : json) : option bool :=
  large ← hasLargePopulation planet;
  if large : bool then hasLargeDiameter planet else Some false.

(** The callback of [forEach]: the lines printed for a selected planet. *)
Definition print_planet (planet : json) : H unit :=
  (let p := Val planet in
   let* name := eval (get p "name") in
   let* population := eval (get p "population") in
   let* diameter := eval (get p "diameter") in
   let* climate := eval (get p "climate") in
   let* given := eval (get p "films") in
   let films := match given with Undefined => Val (JArr []) | _ => given end in
   interpolate name ;;;
   interpolate population ;;;
   interpolate diameter ;;;
   interpolate climate ;;;
   show planet ;;;
   let* n := eval (get films "length") in
   if truthy_value n
   then interpolate n ;;; eval (gt n 1) ;;; pure tt
   else pure tt)%display.

(** Filtra e exibe planetas com população e diâmetro elevados *)
Definition displayLargePlanets (planets : json) : display :=
  finish planets
    (let* results := eval (get (Val planets) "results") in
     let* items := eval (as_array results) in
     let* selected := eval (filter_throwing isBigPopulatedPlanet items) in
     forEach selected print_planet)%display.

(** The table is built once, when the module is loaded: the template
    literal of its first entry reads [lastCharacterId] at that time. *)
Definition tasks : list (string * handler) :=
  [ (with_id "people/" (lastCharacterId init), displayCharacterDetails);
    ("starships/?page=1", displayStarships);
    ("planets/?page=1", displayLargePlanets);
    ("films/", displayFilmsChronologically sort) ].

(** Função principal: the steps after [fetchCount++], i.e. the loop over
    the table and the vehicle step. *)
Definition steps : M unit :=
  (for_of tasks (fun task => present fetchFromApi (fst task) (snd task)) ;;;
   let* id := gets lastCharacterId in
   if id <=? maxlastCharacterId
   then present fetchFromApi (with_id "vehicles/" id) displayVehicle ;;;
        modify (set_lastCharacterId incr)
   else ret tt)%js.

Definition try_block : M unit :=
  (modify (set_fetchCount incr) ;;; steps)%js.

Definition fetchStarWarsData : M unit :=
  try_catch try_block handleError.

End Program.

(** The same functions as they run in the process, an [await] on a
    request handing over to the rest of the process. *)
Module Async.
Section Program.

Variable sort : list json → list json.

(** [new Promise(...)] and the [await] on it: when [setTimeout] throws in
    the executor, the promise is rejected at once. *)
Definition request (endpoint : string) : Task.T (cached * bool) := fun st =>
  let '(f, st1) := launch endpoint st in
  if awaited f then Task.await f st1 else Task.Raised RangeError st1.

Definition fetchFromApi (endpoint : string) : Task.T (cached * bool) := fun st0 =>
  let st := log_call endpoint st0 in
  match cache_read (cache st) endpoint with
  | Some v => if truthy_cached v then Task.Returned (v, true) st else request endpoint st
  | None => request endpoint st
  end.

Definition steps : Task.T unit :=
  (Task.for_of (tasks sort)
     (fun task => Task.present fetchFromApi (fst task) (snd task)) ;;;
   let* id := Task.gets lastCharacterId in
   if id <=? maxlastCharacterId
   then Task.present fetchFromApi (with_id "vehicles/" id) displayVehicle ;;;
        Task.modify (set_lastCharacterId incr)
   else Task.ret tt)%task.

Definition try_block : Task.T unit :=
  (Task.modify (set_fetchCount incr) ;;; steps)%task.

Definition fetchStarWarsData : Task.T unit :=
  Task.try_catch try_block Task.handleError.

(** Servidor HTTP: the request listener.  The [/api] route starts a run,
    which goes as far as its first pending request, and answers without
    waiting for it. *)
Definition server (url : string) (p : process) : reply * process :=
  if bool_decide (url = "/" ∨ url = "/index.html") then (HomePage, p)
  else if bool_decide (url = "/api")
  then (Acknowledged, proceed (fetchStarWarsData (memory p)) p)
  else if bool_decide (url = "/stats") then (StatsBody (statsStringfied (memory p)), p)
  else (NotFound, p).

End Program.
End Async.

End First.

(** ** Second copy (lines 305-575): inline steps, [parseInt] filter *)

Module Second.
Section Program.

Variable net : network.
Variable sort : list json → list json.

(** Busca dados da API com cache.

    The executor of the promise: [https.get] issues the request with its
    response callback, then [request.on("error", reject)], then
    [request.setTimeout]. *)
Definition launch (endpoint : string) (st : state) : flight * state :=
  let n := length (requests st) in
  let st1 := log_request endpoint st in
  match setTimeout (timeout st) with
  | OutOfRange => let f := Flight n endpoint false true false in (f, abandon f st1)
  | Disabled => (Flight n endpoint false true true, st1)
  | Armed => (Flight n endpoint true true true, st1)
  end.

(** What the listeners of a request do when the network answers it: the
    parse sits inside its own [try], and the promise resolves with the
    object stored in the cache. *)
Definition answer (f : flight) : M (cached * bool) := fun st =>
  match net (serial f) (target f) with
  | Response statusCode body =>
      if 400 <=? statusCode then Thrown (HttpStatusError statusCode) st
      else
        match body with
        | Some parsedData =>
            Ok (Data parsedData, true) (set_cache (insert (target f) parsedData) st)
        | None => Thrown ParseError st
        end
  | NoResponse => if timed f then Thrown (TimeoutError (target f)) st else Waiting st
  | ConnectionError message =>
      if guarded f then Thrown (NetworkError message) st
      else Crashed (NetworkError message) st
  end.

(** [await new Promise(...)] with the answer arriving at once. *)
Definition request (endpoint : string) : M (cached * bool) := fun st =>
  let '(f, st1) := launch endpoint st in
  if awaited f then answer f st1 else Thrown RangeError st1.

Definition fetchFromApi (endpoint : string) : M (cached * bool) := fun st0 =>
  let st := log_call endpoint st0 in
  match cache_read (cache st) endpoint with
  | Some v => if truthy_cached v then Ok (v, true) st else request endpoint st
  | None => request endpoint st
  end.

(** The condition of the [if] in [displayLargePlanets]. *)
Definition large_populated (planet : json) : option bool :=
  let p := Val planet in
  population ← get p "population";
  if differs population "unknown" then
    n ← parseInt population;
    if gt_const n PLANET_POPULATION_THRESHOLD then
      diameter ← get p "diameter";
      if differs diameter "unknown" then
        d ← parseInt diameter;
        Some (gt_const d PLANET_DIAMETER_THRESHOLD)
      else Some false
    else Some false
  else Some false.

(** The callback of [forEach]: the lines printed for a planet that
    meets the condition. *)
Definition print_if_large (planet : json) : H unit :=
  (let p := Val planet in
   let* large := eval (large_populated planet) in
   if large : bool then
     let* name := eval (get p "name") in
     interpolate name ;;;
     let* population := eval (get p "population") in
     interpolate population ;;;
     let* diameter := eval (get p "diameter") in
     interpolate diameter ;;;
     let* climate := eval (get p "climate") in
     interpolate climate ;;;
     show planet ;;;
     let* films := eval (get p "films") in
     let* n := eval (get_opt films "length") in
     let* some := eval (gt n 0) in
     if some then interpolate n else pure tt
   else pure tt)%display.

(** Filtra e exibe planetas com população e diâmetro elevados *)
Definition displayLargePlanets (planets : json) : display :=
  finish planets
    (let* results := eval (get (Val planets) "results") in
     let* items := eval (as_array results) in
     forEach items print_if_large)%display.

(** Função principal: the steps after [fetchCount++]. *)
Definition steps : M unit :=
  (let* id := gets lastCharacterId in
   present fetchFromApi (with_id "people/" id) displayCharacterDetails ;;;
   present fetchFromApi "starships/?page=1" displayStarships ;;;
   present fetchFromApi "planets/?page=1" displayLargePlanets ;;;
   present fetchFromApi "films/" (displayFilmsChronologically sort) ;;;
   let* id := gets lastCharacterId in
   if id <=? 4
   then present fetchFromApi (with_id "vehicles/" id) displayVehicle ;;;
        modify (set_lastCharacterId incr)
   else ret tt)%js.

Definition try_block : M unit :=
  (modify (set_fetchCount incr) ;;; steps)%js.

Definition fetchStarWarsData : M unit :=
  try_catch try_block handleError.

End Program.

(** The same functions as they run in the process. *)
Module Async.
Section Program.

Variable sort : list json → list json.

Definition request (endpoint : string) : Task.T (cached * bool) := fun st =>
  let '(f, st1) := launch endpoint st in
  if awaited f then Task.await f st1 else Task.Raised RangeError st1.

Definition fetchFromApi (endpoint : string) : Task.T (cached * bool) := fun st0 =>
  let st := log_call endpoint st0 in
  match cache_read (cache st) endpoint with
  | Some v => if truthy_cached v then Task.Returned (v, true) st else request endpoint st
  | None => request endpoint st
  end.

Definition steps : Task.T unit :=
  (let* id := Task.gets lastCharacterId in
   Task.present fetchFromApi (with_id "people/" id) displayCharacterDetails ;;;
   Task.present fetchFromApi "starships/?page=1" displayStarships ;;;
   Task.present fetchFromApi "planets/?page=1" displayLargePlanets ;;;
   Task.present fetchFromApi "films/" (displayFilmsChronologically sort) ;;;
   let* id := Task.gets lastCharacterId in
   if id <=? 4
   then Task.present fetchFromApi (with_id "vehicles/" id) displayVehicle ;;;
        Task.modify (set_lastCharacterId incr)
   else Task.ret tt)%task.

Definition try_block : Task.T unit :=
  (Task.modify (set_fetchCount incr) ;;; steps)%task.

Definition fetchStarWarsData : Task.T unit :=
  Task.try_catch try_block Task.handleError.

(** Servidor HTTP *)
Definition server (url : string) (p : process) : reply * process :=
  if bool_decide (url = "/" ∨ url = "/index.html") then (HomePage, p)
  else if bool_decide (url = "/api")
  then (Acknowledged, proceed (fetchStarWarsData (memory p)) p)
  else if bool_decide (url = "/stats") then (StatsBody (statsStringfied (memory p)), p)
  else (NotFound, p).

End Program.
End Async.

End Second.

(** ** Process lifetimes, traces and invariants *)

(** [n] orchestrator invocations in sequence. *)
Fixpoint invocations (run : M unit) (n : nat) (st : state) : state :=
  match n with
  | O => st
  | S n' => state_of (run (invocations run n' st))
  end.

(** The [fetchFromApi] calls made between two states of one lifetime. *)
Definition new_calls (st st' : state) : list string :=
  drop (length (calls st)) (calls st').

Definition new_requests (st st' : state) : list string :=
  drop (length (requests st)) (requests st').

Definition completes {A} (m : M A) (st : state) : Prop :=
  ∃ a st', m st = Ok a st'.

Definition is_vehicle_fetch (endpoint : string) : bool :=
  String.prefix "vehicles/" endpoint.

(** A counter holds a non-negative double. *)
Definition double (z : Z) : Prop := 0 <= z ∧ round53 z = z.

Record well_formed (st : state) : Prop := {
  wf_errorCount : double (errorCount st);
  wf_fetchCount : double (fetchCount st);
  wf_totalDataSize : double (totalDataSize st)
}.

Definition stats_le (a b : stats) : Prop :=
  api_calls a <= api_calls b ∧ cache_size a <= cache_size b ∧
  data_size a <= data_size b ∧ errors a <= errors b.

(** [m] keeps a relation between the state it starts from and the state
    it ends in, however it ends. *)
Definition keeps (R : state → state → Prop) {A} (m : M A) : Prop :=
  ∀ st, R st (state_of (m st)).

Definition grows (st st' : state) : Prop :=
  well_formed st → well_formed st' ∧ stats_le (statsStringfied st) (statsStringfied st').

(** What a call of [fetchFromApi] may do to the state: log itself, issue
    at most one request for its endpoint, store at most one entry under
    its endpoint, and nothing else. *)
Record fetch_frame (endpoint : string) (st st' : state) : Prop := {
  frame_calls : calls st' = calls st ++ [endpoint];
  frame_requests : requests st' = requests st ∨ requests st' = requests st ++ [endpoint];
  frame_cache : cache st' = cache st ∨ ∃ v, cache st' = <[endpoint := v]> (cache st);
  frame_errorCount : errorCount st' = errorCount st;
  frame_fetchCount : fetchCount st' = fetchCount st;
  frame_totalDataSize : totalDataSize st' = totalDataSize st;
  frame_lastCharacterId : lastCharacterId st' = lastCharacterId st
}.

(** ** Sample responses *)

Module Sample.

Definition str (k v : string) : string * json := (k, JStr v).

Definition person : json :=
  JObj [str "name" "Luke Skywalker"; str "height" "172"; str "mass" "77";
        str "birth_year" "19BBY"; ("films", JArr [JStr "films/1"; JStr "films/2"])].

Definition starships : json :=
  JObj [("count", JNum (of_Z 36));
        ("results", JArr [JObj [str "name" "CR90 corvette"; str "model" "CR90";
                                str "cost_in_credits" "3500000"; ("pilots", JArr [])];
                          JObj [str "name" "Death Star"; str "cost_in_credits" "unknown"]])].

Definition coruscant : json :=
  JObj [str "name" "Coruscant"; str "population" "1000000000000";
        str "diameter" "12240"; str "climate" "temperate";
        ("films", JArr [JStr "films/3"; JStr "films/4"])].

Definition tatooine : json :=
  JObj [str "name" "Tatooine"; str "population" "200000";
        str "diameter" "10465"; str "climate" "arid"].

Definition hoth : json :=
  JObj [str "name" "Hoth"; str "population" "unknown";
        str "diameter" "7200"; str "climate" "frozen"].

(** A planet whose fields start with digits but are not numbers. *)
Definition estimated : json :=
  JObj [str "name" "Estimated"; str "population" "2000000000 (est.)";
        str "diameter" "12000km"; str "climate" "arid"].

Definition planets : json :=
  JObj [("count", JNum (of_Z 60)); ("results", JArr [coruscant; tatooine; hoth])].

Definition planets_estimated : json :=
  JObj [("results", JArr [coruscant; estimated])].

Definition film (title release_date : string) : json :=
  JObj [str "title" title; str "release_date" release_date;
        str "director" "George Lucas"; str "producer" "Gary Kurtz";
        ("characters", JArr [JStr "people/1"]); ("planets", JArr [])].

Definition films : json :=
  JObj [("results", JArr [film "The Empire Strikes Back" "1980-05-17";
                          film "A New Hope" "1977-05-25";
                          film "Return of the Jedi" "1983-05-25"])].

Definition vehicle : json :=
  JObj [str "name" "Sand Crawler"; str "model" "Digger Crawler"; str "length" "36.8"].

Definition body (endpoint : string) : option json :=
  if String.prefix "people/" endpoint then Some person
  else if String.prefix "starships/" endpoint then Some starships
  else if String.prefix "planets/" endpoint then Some planets
  else if String.prefix "films/" endpoint then Some films
  else if String.prefix "vehicles/" endpoint then Some vehicle
  else None.

(** Every request is answered 200 with the sample body of its endpoint. *)
Definition healthy : network := fun _ endpoint => Response 200 (body endpoint).

(** The server answers every request with status 500. *)
Definition failing : network := fun _ _ => Response 500 None.

(** Every response is 200 with a body that is not JSON. *)
Definition garbled : network := fun _ _ => Response 200 None.

(** As [healthy], but the planets page comes back truncated. *)
Definition truncated_planets : network := fun n endpoint =>
  if String.prefix "planets/" endpoint then Response 200 None else healthy n endpoint.

(** Every response is 200 with the JSON text [0]. *)
Definition zero : network := fun _ _ => Response 200 (Some (JNum (of_Z 0))).

(** The date of an ISO [YYYY-MM-DD] string as a day count that orders
    like the calendar; other strings give an invalid date. *)
Definition date_key (film : json) : option Z :=
  match get (Val film) "release_date" with
  | Some (Val (JStr s)) =>
      match bytes s with
      | [y1; y2; y3; y4; 45; m1; m2; 45; d1; d2] =>
          let '(ds, rest) := span_digits 10 [y1; y2; y3; y4; m1; m2; d1; d2] in
          if is_nil rest then Some (Z.of_N (digits_value 10 ds)) else None
      | _ => None
      end
  | _ => None
  end.

(** [a] goes after [b]: the comparator is positive. *)
Definition later (a b : json) : bool :=
  match date_key a, date_key b with
  | Some x, Some y => y <? x
  | _, _ => false
  end.

Fixpoint insert_film (x : json) (sorted : list json) : list json :=
  match sorted with
  | [] => [x]
  | y :: rest => if later y x then x :: sorted else y :: insert_film x rest
  end.

(** A stable sort by release date, for arrays of films with ISO dates. *)
Definition chronological (l : list json) : list json :=
  fold_left (fun sorted x => insert_film x sorted) l [].

End Sample.

(** ** The two copies side by side *)

Inductive copy := first | second.

Definition launch (c : copy) : string → state → flight * state :=
  match c with first => First.launch | second => Second.launch end.

Definition answer (c : copy) : network → flight → M (cached * bool) :=
  match c with first => First.answer | second => Second.answer end.

Definition request (c : copy) : network → string → M (cached * bool) :=
  match c with first => First.request | second => Second.request end.

Definition fetchFromApi (c : copy) : network → string → M (cached * bool) :=
  match c with first => First.fetchFromApi | second => Second.fetchFromApi end.

Definition displayLargePlanets (c : copy) : json → display :=
  match c with first => First.displayLargePlanets | second => Second.displayLargePlanets end.

Definition try_block (c : copy) : network → (list json → list json) → M unit :=
  match c with first => First.try_block | second => Second.try_block end.

Definition fetchStarWarsData (c : copy) : network → (list json → list json) → M unit :=
  match c with first => First.fetchStarWarsData | second => Second.fetchStarWarsData end.

(** The character endpoint of an invocation that starts with rotating id
    [id]: the table of the first copy holds the endpoint computed at load
    time, the second copy builds it at every invocation. *)
Definition people_endpoint (c : copy) (id : Z) : string :=
  match c with
  | first => with_id "people/" (lastCharacterId init)
  | second => with_id "people/" id
  end.

(** What one fetch-and-display step may do to the state. *)
Record step_frame (endpoint : string) (st st' : state) : Prop := {
  step_calls : calls st' = calls st ++ [endpoint];
  step_requests : requests st' = requests st ∨ requests st' = requests st ++ [endpoint];
  step_cache : cache st' = cache st ∨ ∃ v, cache st' = <[endpoint := v]> (cache st);
  step_errorCount : errorCount st' = errorCount st;
  step_fetchCount : fetchCount st' = fetchCount st;
  step_totalDataSize :
    totalDataSize st' = totalDataSize st ∨
    ∃ n, 0 <= n ∧ totalDataSize st' = JS.add (totalDataSize st) n;
  step_lastCharacterId : lastCharacterId st' = lastCharacterId st
}.

(** The [fetchFromApi] calls of an invocation that starts with rotating
    id [id] and in which no step fails. *)
Definition task_endpoints (c : copy) (id : Z) : list string :=
  [people_endpoint c id; "starships/?page=1"; "planets/?page=1"; "films/"].

Definition planned_calls (c : copy) (id : Z) : list string :=
  task_endpoints c id ++
  (if id <=? maxlastCharacterId then [with_id "vehicles/" id] else []).

Definition steps (c : copy) : network → (list json → list json) → M unit :=
  match c with first => First.steps | second => Second.steps end.

(** ** The event loop

    The process handles one event at a time and to its end: an HTTP
    request that comes in, or the answer of the network to a request in
    flight.  The events come in any order. *)

Module Async.

Definition fetchFromApi (c : copy) : string → Task.T (cached * bool) :=
  match c with
  | first => First.Async.fetchFromApi
  | second => Second.Async.fetchFromApi
  end.

Definition steps (c : copy) : (list json → list json) → Task.T unit :=
  match c with first => First.Async.steps | second => Second.Async.steps end.

Definition fetchStarWarsData (c : copy) : (list json → list json) → Task.T unit :=
  match c with
  | first => First.Async.fetchStarWarsData
  | second => Second.Async.fetchStarWarsData
  end.

End Async.

Definition server (c : copy) :
    (list json → list json) → string → process → reply * process :=
  match c with first => First.Async.server | second => Second.Async.server end.

Inductive event :=
| Incoming (url : string)     (* an HTTP request for [url] *)
| Arrival (n : nat).          (* the network answers request number [n] *)

(** The request number [n] among those that no run awaits. *)
Definition orphan (n : nat) (st : state) : option flight :=
  List.find (fun f => (serial f =? n)%nat) (orphans st).

(** The run that waits for request [n], taken out of the list. *)
Fixpoint pick {K} (n : nat) (l : list (flight * K)) :
    option (flight * K * list (flight * K)) :=
  match l with
  | [] => None
  | (f, k) :: rest =>
      if (serial f =? n)%nat then Some (f, k, rest)
      else
        match pick n rest with
        | Some (found, rest') => Some (found, (f, k) :: rest')
        | None => None
        end
  end.

(** The network answers request [n].  If a run awaits it, the listeners
    settle its promise and the run goes on; if it is an orphan, the
    listeners do what they do and nothing goes on; an exception that
    escapes them ends the process. *)
Definition arrival (c : copy) (net : network) (n : nat) (p : process) : process :=
  match pick n (suspended p) with
  | Some (f, k, rest) =>
      match answer c net f (memory p) with
      | Ok v st => proceed (k (Task.Fulfilled v) st) (Process st rest (ended p))
      | Thrown e st => proceed (k (Task.RejectedWith e) st) (Process st rest (ended p))
      | Crashed e st => Process st rest (Some e)
      | Waiting _ => p
      end
  | None =>
      match orphan n (memory p) with
      | Some f =>
          match answer c net f (land f (memory p)) with
          | Ok _ st | Thrown _ st => Process st (suspended p) (ended p)
          | Crashed e st => Process st (suspended p) (Some e)
          | Waiting _ => p
          end
      | None => p
      end
  end.

Definition handle (c : copy) (net : network) (sort : list json → list json)
    (ev : event) (p : process) : process :=
  match ended p with
  | Some _ => p
  | None =>
      match ev with
      | Incoming url => snd (server c sort url p)
      | Arrival n => arrival c net n p
      end
  end.

Definition serve (c : copy) (net : network) (sort : list json → list json)
    (events : list event) (p : process) : process :=
  fold_left (fun p ev => handle c net sort ev p) events p.

(** Inicialização: [processCommandLineArgs(); startServer();] *)
Definition boot (args : list string) : process :=
  Process (processCommandLineArgs args init) [] None.


Definition same_errorCount (st st' : state) : Prop := errorCount st' = errorCount st.

Definition same_fetchCount (st st' : state) : Prop := fetchCount st' = fetchCount st.

(** The four entries of the loop for an invocation that starts with
    rotating id [id], and the step that follows the loop. *)
Definition task_table (c : copy) (sort : list json → list json) (id : Z) :
    list (string * handler) :=
  [ (people_endpoint c id, displayCharacterDetails);
    ("starships/?page=1", displayStarships);
    ("planets/?page=1", displayLargePlanets c);
    ("films/", displayFilmsChronologically sort) ].

Definition vehicle_step (c : copy) (net : network) : M unit :=
  (let* id := gets lastCharacterId in
   if id <=? maxlastCharacterId
   then present (fetchFromApi c net) (with_id "vehicles/" id) displayVehicle ;;;
        modify (set_lastCharacterId incr)
   else ret tt)%js.

(** The planet test of a copy. *)
Definition planet_test (c : copy) : json → option bool :=
  match c with first => First.isBigPopulatedPlanet | second => Second.large_populated end.

(** A non-empty string of decimal digits. *)
Definition digit_string (s : string) : Prop :=
  s ≠ EmptyString ∧ Forall (fun b => 48 <= b <= 57) (bytes s).

(** The number a string of decimal digits denotes. *)
Definition digits_number (s : string) : Z :=
  fold_left (fun acc b => acc * 10 + (b - 48)) (bytes s) 0.

(** The fields of a state that the command line cannot reach. *)
Definition same_data (st st' : state) : Prop :=
  cache st' = cache st ∧ errorCount st' = errorCount st ∧
  fetchCount st' = fetchCount st ∧ totalDataSize st' = totalDataSize st ∧
  lastCharacterId st' = lastCharacterId st ∧ requests st' = requests st ∧
  calls st' = calls st ∧ orphans st' = orphans st.



(** A handler that leaves its argument as it found it. *)
Definition keeps_value (h : handler) : Prop := ∀ x, after (h x) = x.

(** Every key of the cache has been requested. *)
Definition requested_keys (st : state) : Prop :=
  ∀ e, is_Some (cache st !! e) → e ∈ requests st.

(** The cache holds a truthy entry of its own for the endpoint. *)
Definition warm (st : state) (e : string) : Prop :=
  match cache st !! e with Some v => truthy v | None => false end = true.

Definition served_from_cache (l : list string) (st st' : state) : Prop :=
  Forall (warm st) l →
  requests st' = requests st ∧ ∀ e, warm st e → warm st' e.

Definition keeps_truthy (h : handler) : Prop :=
  ∀ x, truthy x = true → truthy (after (h x)) = true.

(** The endpoints the first copy can request: those of its table, and
    the vehicles of the ids from 1 to the ceiling. *)
Definition reachable_endpoints : list string :=
  task_endpoints first (lastCharacterId init)
  ++ map (with_id "vehicles/") (seqZ 1 maxlastCharacterId).

(** The error counter after [n] more errors. *)
Definition errors_after (n : nat) (st : state) : Z := Nat.iter n incr (errorCount st).

(** ** What a run does between two events

    The changes a run makes to the state, one at a time, the counters of
    calls and errors apart: it logs a call, issues a request for an
    endpoint of the invocation that has nothing truthy in the cache,
    adds a length to the data size, lets a handler work on the cached
    object, advances the rotating id. *)

Definition missing (st : state) (endpoint : string) : Prop :=
  ∀ v, cache st !! endpoint = Some v → truthy v = false.

Inductive move (c : copy) : state → state → Prop :=
| move_call e st : move c st (log_call e st)
| move_launch e st :
    missing st e → e ∈ planned_calls c (lastCharacterId st) →
    move c st (snd (launch c e st))
| move_size n st :
    0 <= n → move c st (set_totalDataSize (fun total => JS.add total n) st)
| move_handler e v w st :
    cache st !! e = Some v → (e ≠ "films/" → w = v) →
    (truthy v = true → truthy w = true) →
    move c st (set_cache (insert e w) st)
| move_advance st : move c st (set_lastCharacterId incr st).

Definition moves (c : copy) : state → state → Prop := rtc (move c).

(** The run is suspended on the request [f], issued with the state as
    [st], in a stretch that began with the state as [s0]. *)
Definition launched (c : copy) (s0 : state) (f : flight) (st : state) : Prop :=
  ∃ e st1, moves c s0 st1 ∧ missing st1 e ∧ e ∈ planned_calls c (lastCharacterId st1)
           ∧ launch c e st1 = (f, st) ∧ awaited f = true.

(** What holds when the run is resumed: a value the promise is fulfilled
    with is a parsed body, and if it is the cached object, the cache
    holds it under the endpoint of the request. *)
Definition resumed (f : flight) (s : Task.settlement) (st : state) : Prop :=
  ∀ v shared, s = Task.Fulfilled (v, shared) →
    ∃ w, v = Data w ∧ (shared = true → cache st !! target f = Some w).

(** A run all of whose stretches, from [s0] or from a resumption to the
    next suspension or to its end, change the state by [moves], and which
    ends as [Q] or [E] says. *)
Inductive safe (c : copy) {A} (Q : A → state → state → Prop)
    (E : error → state → state → Prop) : state → Task.task A → Prop :=
| safe_returned s0 a st : Q a s0 st → safe c Q E s0 (Task.Returned a st)
| safe_raised s0 e st : E e s0 st → safe c Q E s0 (Task.Raised e st)
| safe_suspended s0 f st k :
    launched c s0 f st →
    (∀ s st', resumed f s st' → safe c Q E st' (k s st')) →
    safe c Q E s0 (Task.Suspended f st k).

(** The last stretch of an invocation: it may count one error. *)
Definition ends (c : copy) (s0 st : state) : Prop :=
  ∃ st1, moves c s0 st1 ∧ (st = st1 ∨ st = set_errorCount incr st1).

Definition invocation (c : copy) : state → Task.task unit → Prop :=
  safe c (fun _ => ends c) (fun _ _ _ => False).

(** Every run that is suspended is the rest of an invocation. *)
Definition on_course (c : copy) (p : process) : Prop :=
  ∀ f k, (f, k) ∈ suspended p →
    awaited f = true ∧ ∀ s st, resumed f s st → invocation c st (k s st).

(** The requests in flight, awaited or not. *)
Definition in_flight (p : process) : list flight :=
  map fst (suspended p) ++ orphans (memory p).

(** What a call of [fetchFromApi] for [endpoint] returns: if it is the
    cached object, the cache holds it under the endpoint. *)
Definition fetched (endpoint : string) (r : cached * bool) (st : state) : Prop :=
  match fst r with
  | Data w => snd r = true → cache st !! endpoint = Some w
  | Inherited _ => True
  end.

(** What the handler of a step may do to the cached object. *)
Definition tidy (endpoint : string) (h : handler) : Prop :=
  keeps_truthy h ∧ (endpoint ≠ "films/" → keeps_value h).

(** [st'] comes later than [st] in a lifetime: the log of the requests
    has grown at its end, and the timeout is the same. *)
Definition later (st st' : state) : Prop :=
  requests st `prefix_of` requests st' ∧ timeout st' = timeout st.

(** [I n] holds of the state and [Fl] of the requests that no run
    awaits. *)
Definition sound (I : nat → state → Prop) (Fl : flight → state → Prop)
    (n : nat) (st : state) : Prop :=
  I n st ∧ ∀ f, f ∈ orphans st → Fl f st.

(** An invariant of the process: [I n] holds of the state while [n] runs
    are suspended, every suspended run is the rest of an invocation, and
    [Fl] holds of every request in flight. *)
Definition steady (c : copy) (I : nat → state → Prop) (Fl : flight → state → Prop)
    (p : process) : Prop :=
  I (length (suspended p)) (memory p) ∧ on_course c p ∧
  ∀ f, f ∈ in_flight p → Fl f (memory p).

(** * Theorems *)

(** ** Arithmetic of the counters *)

Lemma round53_small z : z < 2 ^ 53 → round53 z = z.
Proof.
  intros Hz. unfold round53. destruct (Z.ltb_spec z (2 ^ 53)); [reflexivity | lia].
Qed.

Lemma incr_small x : 0 <= x < 2 ^ 53 - 1 → incr x = x + 1.
Proof. intros Hx. unfold incr, JS.add. apply round53_small. lia. Qed.

(** Above 2^53 a rounded integer is a 53-bit significand [q] times a
    power of two, at or just above the truncation of the argument. *)
Lemma round53_shape y :
  2 ^ 53 <= y →
  ∃ b q, Z.log2 y = b ∧ 53 <= b ∧ 2 ^ 52 <= q <= 2 ^ 53 ∧
    q * 2 ^ (b - 52) <= 2 ^ (b + 1) ∧
    round53 y = q * 2 ^ (b - 52) ∧ y / 2 ^ (b - 52) <= q.
Proof.
  intros Hy.
  assert (Hpos : 0 < y) by lia.
  pose proof (Z.log2_spec y Hpos) as [Hlo Hhi].
  assert (Hb : 53 <= Z.log2 y) by (apply Z.log2_le_pow2; lia).
  set (b := Z.log2 y) in *.
  set (k := b - 52).
  assert (HP : 0 < 2 ^ k) by (apply Z.pow_pos_nonneg; lia).
  assert (Hsplit : 2 ^ b = 2 ^ 52 * 2 ^ k).
  { rewrite <- Z.pow_add_r by lia. f_equal. lia. }
  assert (Hsplit' : 2 ^ (b + 1) = 2 ^ 53 * 2 ^ k).
  { rewrite <- Z.pow_add_r by lia. f_equal. lia. }
  assert (Hq : 2 ^ 52 <= y / 2 ^ k < 2 ^ 53).
  { replace (Z.succ b) with (b + 1) in Hhi by lia. split.
    - apply Z.div_le_lower_bound; lia.
    - apply Z.div_lt_upper_bound; lia. }
  unfold round53. destruct (Z.ltb_spec y (2 ^ 53)); [lia|].
  fold b. fold k.
  set (q := y / 2 ^ k) in *.
  destruct ((y mod 2 ^ k <? 2 ^ (k - 1)) || ((y mod 2 ^ k =? 2 ^ (k - 1)) && Z.even q)).
  - exists b, q. change (b - 52) with k.
    split; [reflexivity|]. split; [lia|]. split; [lia|].
    split; [rewrite Hsplit'; apply Z.mul_le_mono_nonneg_r; lia|].
    split; [reflexivity | lia].
  - exists b, (q + 1). change (b - 52) with k.
    split; [reflexivity|]. split; [lia|]. split; [lia|].
    split; [rewrite Hsplit'; apply Z.mul_le_mono_nonneg_r; lia|].
    split; [reflexivity | lia].
Qed.

(** Rounding lands on a double. *)
Lemma round53_double y : 0 <= y → double (round53 y).
Proof.
  intros Hy. destruct (Z.ltb_spec y (2 ^ 53)) as [Hs|Hl].
  { rewrite (round53_small y Hs). split; [lia | apply round53_small; lia]. }
  destruct (round53_shape y Hl) as (b & q & Hb & Hb53 & Hq & Hle & Hr & _).
  set (k := b - 52) in *.
  assert (HP : 0 < 2 ^ k) by (apply Z.pow_pos_nonneg; lia).
  assert (Hsplit : 2 ^ b = 2 ^ 52 * 2 ^ k).
  { rewrite <- Z.pow_add_r by lia. f_equal. lia. }
  assert (Hsplit' : 2 ^ (b + 1) = 2 ^ 53 * 2 ^ k).
  { rewrite <- Z.pow_add_r by lia. f_equal. lia. }
  rewrite Hr. split; [apply Z.mul_nonneg_nonneg; lia|].
  set (w := q * 2 ^ k) in *.
  assert (Hw : 2 ^ 53 <= w).
  { transitivity (2 ^ b); [apply Z.pow_le_mono_r; lia|].
    rewrite Hsplit. unfold w. apply Z.mul_le_mono_nonneg_r; lia. }
  assert (Hcase : q < 2 ^ 53 ∨ q = 2 ^ 53) by lia.
  unfold round53. destruct (Z.ltb_spec w (2 ^ 53)); [lia|].
  destruct Hcase as [Hlt | Heq].
  - assert (Hlog : Z.log2 w = b).
    { apply Z.log2_unique; [lia|]. replace (Z.succ b) with (b + 1) by lia.
      rewrite Hsplit, Hsplit'. unfold w. split.
      - apply Z.mul_le_mono_nonneg_r; lia.
      - apply Z.mul_lt_mono_pos_r; lia. }
    rewrite Hlog. fold k.
    assert (Hdiv : w / 2 ^ k = q) by (unfold w; apply Z.div_mul; lia).
    assert (Hmod : w mod 2 ^ k = 0) by (unfold w; apply Z.mod_mul; lia).
    rewrite Hdiv, Hmod.
    assert (0 < 2 ^ (k - 1)) by (apply Z.pow_pos_nonneg; lia).
    destruct (Z.ltb_spec 0 (2 ^ (k - 1))); [reflexivity | lia].
  - assert (Hlog : Z.log2 w = b + 1).
    { apply Z.log2_unique; [lia|]. unfold w. rewrite Heq, <- Hsplit'.
      split; [lia|]. apply Z.pow_lt_mono_r; lia. }
    rewrite Hlog. replace (b + 1 - 52) with (k + 1) by lia.
    replace (k + 1 - 1) with k by lia.
    assert (HP2 : 2 ^ (k + 1) = 2 * 2 ^ k) by (rewrite Z.pow_add_r by lia; lia).
    assert (Hw2 : w = 2 ^ 52 * 2 ^ (k + 1)) by (unfold w; rewrite Heq, HP2; lia).
    assert (Hdiv : w / 2 ^ (k + 1) = 2 ^ 52) by (rewrite Hw2; apply Z.div_mul; lia).
    assert (Hmod : w mod 2 ^ (k + 1) = 0) by (rewrite Hw2; apply Z.mod_mul; lia).
    rewrite Hdiv, Hmod.
    destruct (Z.ltb_spec 0 (2 ^ k)); [cbn [orb]; lia | lia].
Qed.

(** Rounding never falls below a double that the argument has reached. *)
Lemma round53_ge x y : double x → x <= y → x <= round53 y.
Proof.
  intros [Hx0 Hx] Hxy.
  destruct (Z.ltb_spec y (2 ^ 53)) as [Hs|Hl].
  { rewrite round53_small; lia. }
  destruct (round53_shape y Hl) as (b & q & Hb & Hb53 & Hq & Hle & Hr & Hfloor).
  set (k := b - 52) in *.
  assert (HP : 0 < 2 ^ k) by (apply Z.pow_pos_nonneg; lia).
  assert (Hsplit : 2 ^ b = 2 ^ 52 * 2 ^ k).
  { rewrite <- Z.pow_add_r by lia. f_equal. lia. }
  rewrite Hr.
  assert (Hfl : 2 ^ b <= q * 2 ^ k).
  { rewrite Hsplit. apply Z.mul_le_mono_nonneg_r; lia. }
  assert (H53b : 2 ^ 53 <= 2 ^ b) by (apply Z.pow_le_mono_r; lia).
  destruct (Z.ltb_spec x (2 ^ 53)) as [Hxs|Hxl]; [lia|].
  destruct (round53_shape x Hxl) as (bx & qx & Hbx & Hbx53 & Hqx & Hlex & Hrx & _).
  rewrite Hx in Hrx.
  assert (Hmono : bx <= b) by (subst bx b; apply Z.log2_le_mono; lia).
  assert (Hcase : bx = b ∨ bx < b) by lia.
  destruct Hcase as [Hbb | Hlt].
  - rewrite Hbb in Hrx. fold k in Hrx.
    assert (qx <= y / 2 ^ k).
    { apply Z.div_le_lower_bound; [lia|]. rewrite Z.mul_comm. lia. }
    rewrite Hrx. apply Z.mul_le_mono_nonneg_r; lia.
  - assert (2 ^ (bx + 1) <= 2 ^ b) by (apply Z.pow_le_mono_r; lia).
    lia.
Qed.

Lemma add_double x n : double x → 0 <= n → double (JS.add x n).
Proof. intros [Hx _] Hn. apply round53_double. lia. Qed.

Lemma add_ge x n : double x → 0 <= n → x <= JS.add x n.
Proof. intros Hx Hn. apply round53_ge; [assumption | lia]. Qed.

Lemma length_utf16_nonneg s : 0 <= length_utf16 s.
Proof.
  unfold length_utf16. induction (bytes s) as [|b l IH]; cbn [fold_right]; [lia|].
  assert (0 <= units b) by (unfold units; repeat case_match; lia). lia.
Qed.

Lemma stringify_length_nonneg v n : stringify_length v = Some n → 0 <= n.
Proof.
  destruct v as [j|name]; simpl.
  - intros [= <-]. apply length_utf16_nonneg.
  - case_match; intros [= <-]. lia.
Qed.

(** ** Relations kept by computations *)

Section Keeping.

Variable R : state → state → Prop.
Hypothesis R_refl : ∀ st, R st st.
Hypothesis R_trans : ∀ a b c, R a b → R b c → R a c.

Lemma keeps_ret {A} (a : A) : keeps R (ret a).
Proof. intros st. apply R_refl. Qed.

Lemma keeps_gets {A} (f : state → A) : keeps R (gets f).
Proof. intros st. apply R_refl. Qed.

Lemma keeps_of_option {A} (o : option A) : keeps R (of_option o).
Proof. intros st. destruct o; apply R_refl. Qed.

Lemma keeps_modify (f : state → state) : (∀ st, R st (f st)) → keeps R (modify f).
Proof. intros Hf st. apply Hf. Qed.

Lemma keeps_bind {A B} (m : M A) (k : A → M B) :
  keeps R m → (∀ a, keeps R (k a)) → keeps R (bind m k).
Proof.
  intros Hm Hk st. unfold bind. specialize (Hm st).
  destruct (m st) as [a st1 | e st1 | e st1 | st1]; simpl in *; [|assumption..].
  eapply R_trans; [exact Hm | apply Hk].
Qed.

Lemma keeps_try_catch (body : M unit) (handler : error → M unit) :
  keeps R body → (∀ e, keeps R (handler e)) → keeps R (try_catch body handler).
Proof.
  intros Hb Hh st. unfold try_catch. specialize (Hb st).
  destruct (body st) as [a st1 | e st1 | e st1 | st1]; simpl in *;
    [assumption | | assumption..].
  eapply R_trans; [exact Hb | apply Hh].
Qed.

Lemma keeps_for_of {A} (l : list A) (body : A → M unit) :
  (∀ x, keeps R (body x)) → keeps R (for_of l body).
Proof.
  intros Hbody. induction l as [|x rest IH]; simpl.
  - apply keeps_ret.
  - apply keeps_bind; [apply Hbody | intros _; exact IH].
Qed.

End Keeping.

(** ** Requests *)

(** What a request comes to when its answer arrives at once, case by
    case.  A duration out of range rejects the promise with the error of
    [setTimeout] and leaves the request to itself; without a timer an
    idle socket is waited for for ever. *)
Lemma request_answers c net endpoint st :
  let n := length (requests st) in
  let st1 := log_request endpoint st in
  let second_copy := match c with first => false | second => true end in
  request c net endpoint st
  = match setTimeout (timeout st) with
    | OutOfRange =>
        Thrown RangeError (abandon (Flight n endpoint false second_copy false) st1)
    | t =>
        match net n endpoint with
        | Response statusCode body =>
            if 400 <=? statusCode then Thrown (HttpStatusError statusCode) st1
            else
              match body with
              | Some parsed =>
                  Ok (Data parsed, second_copy) (set_cache (insert endpoint parsed) st1)
              | None =>
                  if second_copy then Thrown ParseError st1 else Crashed ParseError st1
              end
        | NoResponse =>
            match t with
            | Armed => Thrown (TimeoutError endpoint) st1
            | _ => Waiting st1
            end
        | ConnectionError message => Thrown (NetworkError message) st1
        end
    end.
Proof.
  intros n st1 second_copy.
  destruct c; unfold request, First.request, Second.request, First.launch, Second.launch,
    First.answer, Second.answer; fold n; fold st1; subst second_copy;
    destruct (setTimeout (timeout st)); cbn [awaited serial target timed guarded];
    try reflexivity;
    destruct (net n endpoint) as [message | | statusCode [parsed|]];
    try reflexivity;
    change BAD_REQUEST with 400; destruct (400 <=? statusCode); reflexivity.
Qed.

Lemma fetch_hit_or_request c net endpoint st :
  fetchFromApi c net endpoint st
  = match cache_read (cache st) endpoint with
    | Some v => if truthy_cached v then Ok (v, true) (log_call endpoint st)
                else request c net endpoint (log_call endpoint st)
    | None => request c net endpoint (log_call endpoint st)
    end.
Proof. destruct c; reflexivity. Qed.

(** ** Frames of a fetch and of a step *)

Lemma fetch_frames c net endpoint st :
  fetch_frame endpoint st (state_of (fetchFromApi c net endpoint st)).
Proof.
  rewrite fetch_hit_or_request.
  destruct (cache_read (cache st) endpoint) as [v|]; [destruct (truthy_cached v)|];
    rewrite ?request_answers; cbn zeta;
    repeat case_match; simpl; constructor; simpl; eauto.
Qed.

Lemma present_frames fetch endpoint h st :
  (∀ st, fetch_frame endpoint st (state_of (fetch endpoint st))) →
  step_frame endpoint st (state_of (present fetch endpoint h st)).
Proof.
  intros Hfetch. specialize (Hfetch st). unfold present, bind.
  destruct (fetch endpoint st) as [[v shared] st1 | e st1 | e st1 | st1]; simpl in *;
    destruct Hfetch as [Hc Hr Hm He Hf Ht Hl].
  2,3,4: constructor; auto.
  unfold of_option. destruct (stringify_length v) as [n|] eqn:Hn; simpl.
  2: constructor; auto.
  pose proof (stringify_length_nonneg _ _ Hn) as Hn0.
  unfold call_handler.
  set (d := h (payload v)).
  assert (Hcache : ∀ w, (<[endpoint := w]> (cache st1) = cache st ∨
                         ∃ u, <[endpoint := w]> (cache st1) = <[endpoint := u]> (cache st))).
  { intros w. right. destruct Hm as [-> | [u ->]].
    - eauto.
    - exists w. apply insert_insert_eq. }
  constructor; destruct v as [j | name], shared, (threw d); simpl;
    rewrite ?Ht; eauto.
Qed.

Lemma step_frames c net endpoint h st :
  step_frame endpoint st (state_of (present (fetchFromApi c net) endpoint h st)).
Proof. apply present_frames. intros st'. apply fetch_frames. Qed.

(** Whatever every step and the advance of the rotating id keep, the
    steps of an invocation keep, in both copies. *)

Section Steps.

Variable R : state → state → Prop.
Hypothesis R_refl : ∀ st, R st st.
Hypothesis R_trans : ∀ a b c, R a b → R b c → R a c.
Hypothesis R_step : ∀ endpoint st st', step_frame endpoint st st' → R st st'.
Hypothesis R_advance : ∀ st, R st (set_lastCharacterId incr st).

Lemma present_keeps c net endpoint h : keeps R (present (fetchFromApi c net) endpoint h).
Proof. intros st. eapply R_step, step_frames. Qed.

Lemma vehicle_step_keeps c net (limit : Z) :
  keeps R
    (let* id := gets lastCharacterId in
     if id <=? limit
     then present (fetchFromApi c net) (with_id "vehicles/" id) displayVehicle ;;;
          modify (set_lastCharacterId incr)
     else ret tt)%js.
Proof.
  apply keeps_bind; [exact R_trans | apply keeps_gets, R_refl |].
  intros id. destruct (id <=? limit).
  - apply keeps_bind; [exact R_trans | apply present_keeps |].
    intros _. apply keeps_modify, R_advance.
  - apply keeps_ret, R_refl.
Qed.

Lemma steps_keep c net sort :
  keeps R (steps c net sort).
Proof.
  destruct c.
  - apply keeps_bind; [exact R_trans | | intros _; apply (vehicle_step_keeps first)].
    apply keeps_for_of; [exact R_refl | exact R_trans |].
    intros task. apply (present_keeps first).
  - apply keeps_bind; [exact R_trans | apply keeps_gets, R_refl |]. intros id.
    repeat (apply keeps_bind; [exact R_trans | apply (present_keeps second) | intros _]).
    apply (vehicle_step_keeps second).
Qed.

End Steps.

(** ** The statistics never decrease *)

Lemma size_insert_ge (m : gmap string json) k v : (size m <= size (<[k := v]> m))%nat.
Proof. rewrite map_size_insert. destruct (m !! k); simpl; lia. Qed.

Lemma grows_refl st : grows st st.
Proof. intros Hwf. split; [assumption|]. repeat split; lia. Qed.

Lemma grows_trans a b c : grows a b → grows b c → grows a c.
Proof.
  intros Hab Hbc Hwf. destruct (Hab Hwf) as [Hb (? & ? & ? & ?)].
  destruct (Hbc Hb) as [Hc (? & ? & ? & ?)]. split; [assumption|].
  repeat split; lia.
Qed.

Lemma init_well_formed : well_formed init.
Proof. repeat split; simpl; try lia; apply round53_small; lia. Qed.

Lemma step_grows endpoint st st' : step_frame endpoint st st' → grows st st'.
Proof.
  intros [Hc Hr Hm He Hf Ht Hl] [We Wf Wt].
  assert (Hsize : (size (cache st) <= size (cache st'))%nat).
  { destruct Hm as [-> | [v ->]]; [lia | apply size_insert_ge]. }
  assert (Htotal : double (totalDataSize st') ∧ totalDataSize st <= totalDataSize st').
  { destruct Ht as [-> | (n & Hn & ->)].
    - split; [assumption | lia].
    - split; [apply add_double | apply add_ge]; assumption. }
  split.
  - constructor; [rewrite He | rewrite Hf | apply Htotal]; assumption.
  - unfold stats_le, statsStringfied; simpl. rewrite He, Hf. repeat split; lia.
Qed.

Lemma handleError_grows message : keeps grows (handleError message).
Proof.
  intros st [We Wf Wt]. simpl. split.
  - constructor; simpl; try assumption. apply add_double; [assumption | lia].
  - unfold stats_le; simpl. repeat split; try lia. apply add_ge; [assumption | lia].
Qed.

Lemma fetchCount_incr_grows st : grows st (set_fetchCount incr st).
Proof.
  intros [We Wf Wt]. split.
  - constructor; simpl; try assumption. apply add_double; [assumption | lia].
  - unfold stats_le; simpl. repeat split; try lia. apply add_ge; [assumption | lia].
Qed.

Lemma lastCharacterId_grows f st : grows st (set_lastCharacterId f st).
Proof.
  intros [We Wf Wt]. split; [constructor; assumption|].
  unfold stats_le; simpl. repeat split; lia.
Qed.

Lemma fetchStarWarsData_grows c net sort : keeps grows (fetchStarWarsData c net sort).
Proof.
  assert (Htry : keeps grows (try_block c net sort)).
  { pose proof (steps_keep grows grows_refl grows_trans step_grows
                  (lastCharacterId_grows incr) c net sort) as Hs.
    destruct c; (apply keeps_bind;
      [exact grows_trans | apply keeps_modify, fetchCount_incr_grows | intros _; exact Hs]). }
  destruct c; (apply keeps_try_catch;
    [exact grows_trans | exact Htry | apply handleError_grows]).
Qed.

Lemma processCommandLineArgs_grows args st : grows st (processCommandLineArgs args st).
Proof.
  intros [We Wf Wt]. unfold processCommandLineArgs.
  repeat case_match; (split; [constructor; assumption|]);
    unfold stats_le; simpl; repeat split; lia.
Qed.

(** ** What [api_calls] counts *)

Lemma steps_keep_fetchCount c net sort :
  keeps same_fetchCount
    (steps c net sort).
Proof.
  apply steps_keep; unfold same_fetchCount.
  - reflexivity.
  - intros a b d Hab Hbd. congruence.
  - intros endpoint st st' Hframe. apply (step_fetchCount _ _ _ Hframe).
  - reflexivity.
Qed.

(** C5, as the code has it.  [fetchCount] counts orchestrator invocations:
    every invocation increments it once, at its start and before any
    fetch, whether or not a step fails later. *)
Theorem api_calls_counts_invocations (c : copy) (net : network)
    (sort : list json → list json) (st : state) :
  api_calls (statsStringfied (state_of (fetchStarWarsData c net sort st)))
  = incr (api_calls (statsStringfied st)).
Proof.
  pose proof (steps_keep_fetchCount c net sort (set_fetchCount incr st)) as Hsteps.
  unfold same_fetchCount in Hsteps. simpl in Hsteps.
  destruct c; simpl in *;
    unfold First.fetchStarWarsData, Second.fetchStarWarsData, try_catch,
      First.try_block, Second.try_block, bind, modify.
  - destruct (First.steps net sort (set_fetchCount incr st)); simpl in *; assumption.
  - destruct (Second.steps net sort (set_fetchCount incr st)); simpl in *; assumption.
Qed.

(** C5, as stated, fails: the server answers 500 to the first request of
    an invocation, the character fetch is rejected, and [api_calls] has
    gone from 0 to 1 all the same. *)
Lemma failed_invocation_is_counted :
  First.steps Sample.failing Sample.chronological (set_fetchCount incr init)
    = Thrown (HttpStatusError 500)
        (log_request "people/1" (log_call "people/1" (set_fetchCount incr init)))
  ∧ api_calls (statsStringfied init) = 0
  ∧ api_calls (statsStringfied
      (state_of (First.fetchStarWarsData Sample.failing Sample.chronological init))) = 1
  ∧ api_calls (statsStringfied
      (state_of (Second.fetchStarWarsData Sample.failing Sample.chronological init))) = 1.
Proof. repeat split; vm_compute; reflexivity. Qed.

(** ** Cache hits *)

Lemma new_requests_le_1 endpoint st st' :
  requests st' = requests st ∨ requests st' = requests st ++ [endpoint] →
  (length (new_requests st st') <= 1)%nat.
Proof.
  unfold new_requests. intros [-> | ->].
  - rewrite drop_all. simpl. lia.
  - rewrite drop_app_length. simpl. lia.
Qed.

(** C10.  A hit is decided by the truthiness of the stored value.  With
    a truthy value stored under the endpoint the call returns that very
    object and only logs itself: no request.  With a falsy one stored
    ([null], [false], [0], the empty string) the call is the request it
    would be with nothing stored: it issues a request for the endpoint,
    and what it returns, if it returns, is the body of the response,
    which has replaced the stored entry. *)
Theorem cache_hit_by_truthiness (c : copy) (net : network) (endpoint : string)
    (st : state) (v : json) :
  cache st !! endpoint = Some v →
  if truthy v
  then fetchFromApi c net endpoint st = Ok (Data v, true) (log_call endpoint st)
  else fetchFromApi c net endpoint st = request c net endpoint (log_call endpoint st)
       ∧ new_requests st (state_of (fetchFromApi c net endpoint st)) = [endpoint]
       ∧ ∀ w shared st',
           fetchFromApi c net endpoint st = Ok (w, shared) st' →
           ∃ statusCode body,
             net (length (requests st)) endpoint = Response statusCode (Some body)
             ∧ statusCode < 400 ∧ w = Data body ∧ cache st' !! endpoint = Some body.
Proof.
  intros Hv. rewrite fetch_hit_or_request. unfold cache_read. rewrite Hv. simpl.
  destruct (truthy v); [reflexivity|].
  split; [reflexivity|]. rewrite request_answers. cbn [requests log_call timeout].
  assert (Hnew : ∀ st', requests st' = requests st ++ [endpoint] →
                        new_requests st st' = [endpoint]).
  { intros st' Hst'. unfold new_requests. rewrite Hst'. apply drop_app_length. }
  destruct c, (setTimeout (timeout st));
    try destruct (net (length (requests st)) endpoint) as [message | | statusCode [body|]];
    try destruct (Z.leb_spec 400 statusCode);
    (split; [apply Hnew; reflexivity|]); try discriminate;
    intros w shared st' [= <- <- <-]; exists statusCode, body;
    repeat split; try assumption; simpl; apply lookup_insert_eq.
Qed.

Lemma falsy_values v :
  truthy v = false ↔
  v = JNull ∨ v = JBool false ∨ (∃ d, v = JNum d ∧ mantissa d = 0%N) ∨ v = JStr EmptyString.
Proof.
  split.
  - destruct v as [|b|d|s|items|fields]; simpl; try discriminate; intros H.
    + auto.
    + destruct b; [discriminate | auto].
    + right; right; left. exists d. split; [reflexivity|].
      apply negb_false_iff, N.eqb_eq in H. exact H.
    + right; right; right. apply negb_false_iff, String.eqb_eq in H. congruence.
  - intros [-> | [-> | [(d & -> & Hd) | ->]]]; simpl; try reflexivity.
    rewrite Hd. reflexivity.
Qed.

Lemma truthy_read_hits c net endpoint st v :
  cache_read (cache st) endpoint = Some v →
  truthy_cached v = true →
  fetchFromApi c net endpoint st = Ok (v, true) (log_call endpoint st).
Proof.
  intros Hread Htruthy.
  destruct c; simpl; unfold First.fetchFromApi, Second.fetchFromApi; simpl;
    rewrite Hread, Htruthy; reflexivity.
Qed.

(** A value returned by a successful call is what the cache holds under
    the endpoint afterwards. *)
Lemma fetched_is_cached c net endpoint st st1 v shared :
  fetchFromApi c net endpoint st = Ok (v, shared) st1 →
  cache_read (cache st1) endpoint = Some v.
Proof.
  rewrite fetch_hit_or_request.
  destruct (cache_read (cache st) endpoint) as [u|] eqn:Hread;
    [destruct (truthy_cached u)|];
    rewrite ?request_answers; cbn zeta; intros H;
    try (simplify_eq; simpl in *; assumption);
    repeat (case_match; simplify_eq; simpl in *; try discriminate);
    unfold cache_read; rewrite lookup_insert_eq; reflexivity.
Qed.

(** C1, as the code has it.  When a call for an endpoint succeeds with a
    truthy value, the next call for the same endpoint returns that value
    from the cache and issues no request, so that the two calls together
    issue at most one. *)
Theorem second_fetch_hits_cache (c : copy) (net : network) (endpoint : string)
    (st st1 : state) (v : cached) (shared : bool) :
  fetchFromApi c net endpoint st = Ok (v, shared) st1 →
  truthy_cached v = true →
  fetchFromApi c net endpoint st1 = Ok (v, true) (log_call endpoint st1)
  ∧ (length (new_requests st (log_call endpoint st1)) <= 1)%nat.
Proof.
  intros Hfirst Htruthy. split.
  - apply truthy_read_hits; [|assumption].
    eapply fetched_is_cached, Hfirst.
  - pose proof (fetch_frames c net endpoint st) as Hf. rewrite Hfirst in Hf. simpl in Hf.
    apply (new_requests_le_1 endpoint). simpl. apply (frame_requests _ _ _ Hf).
Qed.

(** C1, as stated, fails: the endpoint answers with the JSON text [0];
    the first call succeeds and stores the parsed body, and the second
    call issues a second request all the same. *)
Lemma falsy_body_is_fetched_twice :
  let first_call := First.fetchFromApi Sample.zero "films/" init in
  let second_call := First.fetchFromApi Sample.zero "films/" (state_of first_call) in
  first_call = Ok (Data (JNum (of_Z 0)), false) (state_of first_call)
  ∧ cache (state_of first_call) !! "films/" = Some (JNum (of_Z 0))
  ∧ requests (state_of second_call) = ["films/"; "films/"]
  ∧ ¬ (length (new_requests init (state_of second_call)) <= 1)%nat.
Proof.
  repeat split; try (vm_compute; reflexivity).
  vm_compute. lia.
Qed.

(** ** The calls of an invocation *)

Lemma bind_apply {A B} (m : M A) (k : A → M B) st :
  bind m k st =
  match m st with
  | Ok a st' => k a st'
  | Thrown e st' => Thrown e st'
  | Crashed e st' => Crashed e st'
  | Waiting st' => Waiting st'
  end.
Proof. reflexivity. Qed.

Lemma for_of_trace c net (tasks : list (string * handler)) st :
  let r := for_of tasks (fun task => present (fetchFromApi c net) (fst task) (snd task)) st in
  ∃ l, calls (state_of r) = calls st ++ l ∧ l `prefix_of` map fst tasks ∧
       lastCharacterId (state_of r) = lastCharacterId st ∧
       (∀ a st', r = Ok a st' → l = map fst tasks).
Proof.
  revert st. induction tasks as [|[endpoint h] rest IH]; intros st; simpl.
  - exists []. rewrite app_nil_r. repeat split; auto.
  - unfold bind.
    pose proof (step_frames c net endpoint h st) as Hframe.
    destruct (present (fetchFromApi c net) endpoint h st) as [[] st1 | e st1 | e st1 | st1];
      simpl in *.
    + destruct (IH st1) as (l & Hcalls & Hprefix & Hid & Hok).
      exists (endpoint :: l). split; [|split; [|split]].
      * rewrite Hcalls, (step_calls _ _ _ Hframe), <- app_assoc. reflexivity.
      * apply prefix_cons, Hprefix.
      * rewrite Hid. apply (step_lastCharacterId _ _ _ Hframe).
      * intros a st' Hr. f_equal. eapply Hok, Hr.
    + exists [endpoint]. split; [|split; [|split]].
      * apply (step_calls _ _ _ Hframe).
      * apply prefix_cons, prefix_nil.
      * apply (step_lastCharacterId _ _ _ Hframe).
      * discriminate.
    + exists [endpoint]. split; [|split; [|split]].
      * apply (step_calls _ _ _ Hframe).
      * apply prefix_cons, prefix_nil.
      * apply (step_lastCharacterId _ _ _ Hframe).
      * discriminate.
    + exists [endpoint]. split; [|split; [|split]].
      * apply (step_calls _ _ _ Hframe).
      * apply prefix_cons, prefix_nil.
      * apply (step_lastCharacterId _ _ _ Hframe).
      * discriminate.
Qed.

Lemma vehicle_step_trace c net st :
  let id := lastCharacterId st in
  let r := (let* id := gets lastCharacterId in
            if id <=? maxlastCharacterId
            then present (fetchFromApi c net) (with_id "vehicles/" id) displayVehicle ;;;
                 modify (set_lastCharacterId incr)
            else ret tt)%js st in
  ∃ l, calls (state_of r) = calls st ++ l ∧
       l `prefix_of` (if id <=? maxlastCharacterId then [with_id "vehicles/" id] else []) ∧
       match r with
       | Ok _ st' =>
           l = (if id <=? maxlastCharacterId then [with_id "vehicles/" id] else []) ∧
           lastCharacterId st' = (if id <=? maxlastCharacterId then incr id else id)
       | Thrown _ st' | Crashed _ st' | Waiting st' => lastCharacterId st' = id
       end.
Proof.
  simpl. unfold bind, gets. destruct (lastCharacterId st <=? maxlastCharacterId).
  - pose proof (step_frames c net (with_id "vehicles/" (lastCharacterId st)) displayVehicle st)
      as Hframe.
    destruct (present _ _ _ st) as [[] st1 | e st1 | e st1 | st1]; simpl in *;
      exists [with_id "vehicles/" (lastCharacterId st)];
      (split; [apply (step_calls _ _ _ Hframe) | split; [reflexivity|]]).
    + split; [reflexivity|]. f_equal. apply (step_lastCharacterId _ _ _ Hframe).
    + apply (step_lastCharacterId _ _ _ Hframe).
    + apply (step_lastCharacterId _ _ _ Hframe).
    + apply (step_lastCharacterId _ _ _ Hframe).
  - exists []. simpl. rewrite app_nil_r. auto.
Qed.

(** The inline steps of the second copy are the loop of the first over
    the same four entries, the character endpoint being built from the
    current id. *)
Lemma Second_steps_as_loop net sort st :
  Second.steps net sort st =
  (for_of [ (with_id "people/" (lastCharacterId st), displayCharacterDetails);
            ("starships/?page=1", displayStarships);
            ("planets/?page=1", Second.displayLargePlanets);
            ("films/", displayFilmsChronologically sort) ]
     (fun task => present (Second.fetchFromApi net) (fst task) (snd task)) ;;;
   let* id := gets lastCharacterId in
   if id <=? maxlastCharacterId
   then present (Second.fetchFromApi net) (with_id "vehicles/" id) displayVehicle ;;;
        modify (set_lastCharacterId incr)
   else ret tt)%js st.
Proof.
  unfold Second.steps. simpl. unfold bind, gets at 1. simpl.
  repeat (match goal with
          | |- context [present ?f ?e ?h ?s] =>
              destruct (present f e h s) as [[] ? | ? ? | ? ? | ?]; simpl; try reflexivity
          end).
Qed.

Lemma steps_trace c net sort st :
  let id := lastCharacterId st in
  let r := steps c net sort st in
  ∃ l, calls (state_of r) = calls st ++ l ∧ l `prefix_of` planned_calls c id ∧
       match r with
       | Ok _ st' =>
           l = planned_calls c id ∧
           lastCharacterId st' = (if id <=? maxlastCharacterId then incr id else id)
       | Thrown _ st' | Crashed _ st' | Waiting st' => lastCharacterId st' = id
       end.
Proof.
  intros id r.
  assert (Hloop : ∃ tasks, map fst tasks = task_endpoints c id ∧
    r = (for_of tasks (fun task => present (fetchFromApi c net) (fst task) (snd task)) ;;;
         let* id := gets lastCharacterId in
         if id <=? maxlastCharacterId
         then present (fetchFromApi c net) (with_id "vehicles/" id) displayVehicle ;;;
              modify (set_lastCharacterId incr)
         else ret tt)%js st).
  { destruct c.
    - exists (First.tasks sort). split; reflexivity.
    - eexists. split; [|apply Second_steps_as_loop]. reflexivity. }
  destruct Hloop as (tasks & Htasks & ->). unfold planned_calls. rewrite <- Htasks.
  rewrite bind_apply.
  destruct (for_of_trace c net tasks st) as (l1 & Hcalls1 & Hprefix1 & Hid1 & Hok1).
  destruct (for_of tasks _ st) as [[] st1 | e st1 | e st1 | st1] eqn:Hfor; simpl in *.
  - destruct (vehicle_step_trace c net st1) as (l2 & Hcalls2 & Hprefix2 & Hres).
    simpl in Hcalls2, Hprefix2, Hres. rewrite Hid1 in Hprefix2, Hres. fold id in Hprefix2, Hres.
    rewrite (Hok1 _ _ eq_refl) in Hcalls1.
    exists (map fst tasks ++ l2). split; [|split].
    + rewrite Hcalls2, Hcalls1, <- app_assoc. reflexivity.
    + apply prefix_app, Hprefix2.
    + match type of Hres with
      | match ?x with _ => _ end => destruct x as [[] st2 | e st2 | e st2 | st2]
      end; simpl in *.
      * destruct Hres as [-> Hid2]. split; [reflexivity | exact Hid2].
      * exact Hres.
      * exact Hres.
      * exact Hres.
  - exists l1. split; [exact Hcalls1 | split; [|exact Hid1]].
    apply prefix_app_r, Hprefix1.
  - exists l1. split; [exact Hcalls1 | split; [|exact Hid1]].
    apply prefix_app_r, Hprefix1.
  - exists l1. split; [exact Hcalls1 | split; [|exact Hid1]].
    apply prefix_app_r, Hprefix1.
Qed.

Lemma completes_by_evaluation {A} (m : M A) st :
  match m st with Ok _ _ => True | _ => False end → completes m st.
Proof. unfold completes. destruct (m st); [eauto | contradiction..]. Qed.

Lemma new_calls_app st st' l : calls st' = calls st ++ l → new_calls st st' = l.
Proof. unfold new_calls. intros ->. apply drop_app_length. Qed.

(** One invocation: its calls are a prefix of the planned ones, all of
    them when no step fails, and the rotating id moves only then. *)
Lemma run_trace c net sort st :
  let id := lastCharacterId st in
  let st' := state_of (fetchStarWarsData c net sort st) in
  ∃ l, calls st' = calls st ++ l ∧ l `prefix_of` planned_calls c id ∧
       (completes (try_block c net sort) st →
          l = planned_calls c id ∧
          lastCharacterId st' = (if id <=? maxlastCharacterId then incr id else id)) ∧
       (maxlastCharacterId < id → lastCharacterId st' = id).
Proof.
  intros id st'.
  destruct (steps_trace c net sort (set_fetchCount incr st)) as (l & Hcalls & Hprefix & Hres).
  simpl in Hcalls, Hprefix, Hres. fold id in Hprefix, Hres.
  assert (Hrun : fetchStarWarsData c net sort st =
                 try_catch (steps c net sort) handleError (set_fetchCount incr st)).
  { destruct c; reflexivity. }
  assert (Htry : try_block c net sort st = steps c net sort (set_fetchCount incr st)).
  { destruct c; reflexivity. }
  subst st'. rewrite Hrun. unfold completes. rewrite Htry. unfold try_catch.
  exists l.
  destruct (steps c net sort (set_fetchCount incr st)) as [[] st1 | e st1 | e st1 | st1];
    simpl in *.
  - destruct Hres as [-> Hid].
    split; [exact Hcalls | split; [exact Hprefix | split; [intros _; split; [reflexivity | exact Hid] |]]].
    intros Hpast. rewrite Hid. destruct (Z.leb_spec id maxlastCharacterId); [lia | reflexivity].
  - split; [exact Hcalls | split; [exact Hprefix | split; [intros (a & st2 & [=]) | intros _; exact Hres]]].
  - split; [exact Hcalls | split; [exact Hprefix | split; [intros (a & st2 & [=]) | intros _; exact Hres]]].
  - split; [exact Hcalls | split; [exact Hprefix | split; [intros (a & st2 & [=]) | intros _; exact Hres]]].
Qed.

Lemma task_endpoints_are_no_vehicle c id :
  Forall (fun endpoint => is_vehicle_fetch endpoint = false) (task_endpoints c id).
Proof. destruct c; repeat constructor. Qed.

Lemma past_ceiling_is_permanent c net sort st n :
  maxlastCharacterId < lastCharacterId st →
  let st' := invocations (fetchStarWarsData c net sort) n st in
  lastCharacterId st' = lastCharacterId st ∧
  ∃ l, calls st' = calls st ++ l ∧ Forall (fun endpoint => is_vehicle_fetch endpoint = false) l.
Proof.
  intros Hpast. induction n as [|n IH]; simpl.
  - split; [reflexivity|]. exists []. rewrite app_nil_r. split; [reflexivity | constructor].
  - destruct IH as (Hid & l & Hcalls & Hl).
    destruct (run_trace c net sort (invocations (fetchStarWarsData c net sort) n st))
      as (l' & Hcalls' & Hprefix & _ & Hkeep).
    simpl in *. rewrite Hid in Hprefix, Hkeep. split; [rewrite Hkeep; auto|].
    exists (l ++ l'). split; [rewrite Hcalls', Hcalls, app_assoc; reflexivity|].
    apply Forall_app. split; [exact Hl|].
    unfold planned_calls in Hprefix.
    destruct (Z.leb_spec (lastCharacterId st) maxlastCharacterId); [lia|].
    rewrite app_nil_r in Hprefix. destruct Hprefix as [rest Hrest].
    pose proof (task_endpoints_are_no_vehicle c (lastCharacterId st)) as Hall.
    rewrite Hrest in Hall. apply Forall_app in Hall. apply Hall.
Qed.

(** C6.  Starting from the initial state, five invocations in which no
    step fails call, in order, the four task endpoints and then
    [vehicles/1] ... [vehicles/4] on invocations 1 to 4, and only the four
    task endpoints on invocation 5.  And from any state whose rotating id
    is past its ceiling, no number of further invocations, failing or
    not, moves the id or makes a vehicle fetch.  Both copies. *)
Theorem vehicle_step_rotates (c : copy) (net : network) (sort : list json → list json) :
  let run := fetchStarWarsData c net sort in
  (∀ k, (k < 5)%nat → completes (try_block c net sort) (invocations run k init)) →
  (∀ k, (k < 4)%nat →
     new_calls (invocations run k init) (invocations run (S k) init)
     = task_endpoints c (Z.of_nat (S k)) ++ [with_id "vehicles/" (Z.of_nat (S k))])
  ∧ new_calls (invocations run 4 init) (invocations run 5 init) = task_endpoints c 5
  ∧ (∀ st n, maxlastCharacterId < lastCharacterId st →
       lastCharacterId (invocations run n st) = lastCharacterId st ∧
       Forall (fun endpoint => is_vehicle_fetch endpoint = false)
              (new_calls st (invocations run n st))).
Proof.
  intros run. subst run. intros Hok.
  set (run := fetchStarWarsData c net sort) in *.
  assert (Hid : ∀ k, (k <= 4)%nat →
            lastCharacterId (invocations run k init) = Z.of_nat (S k)).
  { induction k as [|k IH]; intros Hk; [reflexivity|].
    destruct (run_trace c net sort (invocations run k init)) as (l & _ & _ & Hdone & _).
    destruct (Hdone (Hok k ltac:(lia))) as [_ Hnext].
    simpl. fold run in Hnext. rewrite Hnext, IH by lia.
    destruct (Z.leb_spec (Z.of_nat (S k)) maxlastCharacterId) as [_ | Hgt];
      [|unfold maxlastCharacterId in Hgt; lia].
    rewrite incr_small by lia. lia. }
  assert (Hcalls : ∀ k, (k < 5)%nat →
            new_calls (invocations run k init) (invocations run (S k) init)
            = planned_calls c (Z.of_nat (S k))).
  { intros k Hk.
    destruct (run_trace c net sort (invocations run k init)) as (l & Hl & _ & Hdone & _).
    destruct (Hdone (Hok k Hk)) as [-> _].
    rewrite Hid in Hl by lia. apply new_calls_app. exact Hl. }
  split; [|split].
  - intros k Hk. rewrite Hcalls by lia. unfold planned_calls.
    destruct (Z.leb_spec (Z.of_nat (S k)) maxlastCharacterId) as [_ | Hgt];
      [reflexivity | unfold maxlastCharacterId in Hgt; lia].
  - rewrite Hcalls by lia. reflexivity.
  - intros st n Hpast.
    destruct (past_ceiling_is_permanent c net sort st n Hpast) as (Hsame & l & Hl & Hno).
    split; [exact Hsame|]. unfold run. rewrite (new_calls_app _ _ _ Hl). exact Hno.
Qed.

(** The scenario on the sample responses, second copy. *)
Lemma vehicle_step_rotates_witness :
  let run := fetchStarWarsData second Sample.healthy Sample.chronological in
  (∀ k, (k < 5)%nat →
     completes (try_block second Sample.healthy Sample.chronological)
               (invocations run k init))
  ∧ new_calls (invocations run 3 init) (invocations run 4 init)
    = ["people/4"; "starships/?page=1"; "planets/?page=1"; "films/"; "vehicles/4"]
  ∧ new_calls (invocations run 4 init) (invocations run 5 init)
    = ["people/5"; "starships/?page=1"; "planets/?page=1"; "films/"].
Proof.
  intros run.
  assert (Hok : ∀ k, (k < 5)%nat →
            completes (try_block second Sample.healthy Sample.chronological)
                      (invocations run k init)).
  { intros k Hk.
    do 5 (destruct k as [|k]; [apply completes_by_evaluation; vm_compute; exact I|]).
    lia. }
  destruct (vehicle_step_rotates second Sample.healthy Sample.chronological Hok)
    as (Hfour & Hfifth & _).
  split; [exact Hok | split; [exact (Hfour 3%nat ltac:(lia)) | exact Hfifth]].
Defined.

(** A stored [0] does not stop the request, and the films that come back
    take its place. *)
Lemma cache_hit_by_truthiness_witness :
  let st := set_cache (insert "films/" (JNum (of_Z 0))) init in
  cache st !! "films/" = Some (JNum (of_Z 0))
  ∧ fetchFromApi second Sample.healthy "films/" st
    = request second Sample.healthy "films/" (log_call "films/" st)
  ∧ new_requests st (state_of (fetchFromApi second Sample.healthy "films/" st)) = ["films/"]
  ∧ ∀ w shared st',
      fetchFromApi second Sample.healthy "films/" st = Ok (w, shared) st' →
      ∃ statusCode body,
        Sample.healthy (length (requests st)) "films/" = Response statusCode (Some body)
        ∧ statusCode < 400 ∧ w = Data body ∧ cache st' !! "films/" = Some body.
Proof.
  intros st.
  assert (Hstored : cache st !! "films/" = Some (JNum (of_Z 0))) by (vm_compute; reflexivity).
  split; [exact Hstored|].
  exact (cache_hit_by_truthiness second Sample.healthy "films/" st (JNum (of_Z 0)) Hstored).
Defined.

(** The films page is requested once and then served from the cache. *)
Lemma second_fetch_hits_cache_witness :
  let st1 := set_cache (insert "films/" Sample.films)
               (log_request "films/" (log_call "films/" init)) in
  fetchFromApi first Sample.healthy "films/" init = Ok (Data Sample.films, false) st1
  ∧ truthy_cached (Data Sample.films) = true
  ∧ fetchFromApi first Sample.healthy "films/" st1
    = Ok (Data Sample.films, true) (log_call "films/" st1)
  ∧ (length (new_requests init (log_call "films/" st1)) <= 1)%nat.
Proof.
  intros st1.
  assert (Hfirst : fetchFromApi first Sample.healthy "films/" init
                   = Ok (Data Sample.films, false) st1) by reflexivity.
  assert (Htruthy : truthy_cached (Data Sample.films) = true) by reflexivity.
  split; [exact Hfirst | split; [exact Htruthy|]].
  exact (second_fetch_hits_cache first Sample.healthy "films/" init st1
           (Data Sample.films) false Hfirst Htruthy).
Defined.

(** ** Failures of a fetch *)

(** C2 fails on the first copy: a response with status 200 and a body
    that is not JSON does not reject the promise of [fetchFromApi] with a
    parse error; the exception of [JSON.parse] leaves the ['end'] listener
    uncaught.  The second copy rejects. *)
Theorem parse_failure_is_not_a_rejection :
  First.fetchFromApi Sample.garbled "films/" init
    = Crashed ParseError (log_request "films/" (log_call "films/" init))
  ∧ Second.fetchFromApi Sample.garbled "films/" init
    = Thrown ParseError (log_request "films/" (log_call "films/" init)).
Proof. split; reflexivity. Qed.

(** ** Failing steps *)

Lemma steps_keep_errorCount c net sort : keeps same_errorCount (steps c net sort).
Proof.
  apply steps_keep; unfold same_errorCount.
  - reflexivity.
  - intros a b d Hab Hbd. congruence.
  - intros endpoint st st' Hframe. apply (step_errorCount _ _ _ Hframe).
  - reflexivity.
Qed.

(** A step that throws into the [try] block ends the invocation there:
    the calls made are a prefix of the planned ones, the error counter
    goes up once, and everything else stays as the failing step left it. *)
Lemma thrown_step_is_counted c net sort st e st1 :
  try_block c net sort st = Thrown e st1 →
  fetchStarWarsData c net sort st = Ok tt (set_errorCount incr st1)
  ∧ errorCount (set_errorCount incr st1) = incr (errorCount st)
  ∧ ∃ l, calls st1 = calls st ++ l ∧ l `prefix_of` planned_calls c (lastCharacterId st).
Proof.
  intros Hthrown.
  assert (Htry : try_block c net sort st = steps c net sort (set_fetchCount incr st)).
  { destruct c; reflexivity. }
  assert (Hrun : fetchStarWarsData c net sort st
                 = try_catch (try_block c net sort) handleError st).
  { destruct c; reflexivity. }
  pose proof (steps_keep_errorCount c net sort (set_fetchCount incr st)) as Herr.
  destruct (steps_trace c net sort (set_fetchCount incr st)) as (l & Hcalls & Hprefix & _).
  rewrite <- Htry, Hthrown in Herr, Hcalls. unfold same_errorCount in Herr. simpl in *.
  split; [|split].
  - rewrite Hrun. unfold try_catch. rewrite Hthrown. reflexivity.
  - rewrite Herr. reflexivity.
  - exists l. split; assumption.
Qed.

(** C7 fails on the first copy: the planets page comes back truncated in
    the third step of an invocation.  The process ends on the uncaught
    exception with the error counter still at 0; the second copy handles
    the same failure and counts it. *)
Theorem truncated_body_is_not_counted :
  let crashed := First.fetchStarWarsData Sample.truncated_planets Sample.chronological init in
  let handled := Second.fetchStarWarsData Sample.truncated_planets Sample.chronological init in
  crashed = Crashed ParseError (state_of crashed)
  ∧ calls (state_of crashed) = ["people/1"; "starships/?page=1"; "planets/?page=1"]
  ∧ errorCount (state_of crashed) = 0
  ∧ handled = Ok tt (state_of handled)
  ∧ calls (state_of handled) = ["people/1"; "starships/?page=1"; "planets/?page=1"]
  ∧ errorCount (state_of handled) = 1.
Proof. cbv zeta. repeat apply conj; vm_compute; reflexivity. Qed.

(** ** The large-planet filter *)

Lemma and_then_shown {A B} (m : H A) (k : A → H B) :
  fst (and_then m k) = fst m ++ match snd m with Some a => fst (k a) | None => [] end.
Proof.
  destruct m as [w [a|]]; simpl.
  - destruct (k a). reflexivity.
  - rewrite app_nil_r. reflexivity.
Qed.

Lemma forEach_shown {A} (l : list A) (body : A → H unit) item :
  In item (fst (forEach l body)) → ∃ x, In x l ∧ In item (fst (body x)).
Proof.
  induction l as [|x rest IH]; simpl; [contradiction|].
  rewrite and_then_shown. intros Hin. apply in_app_or in Hin as [Hin | Hin].
  - exists x. auto.
  - destruct (snd (body x)); [|contradiction].
    destruct (IH Hin) as (y & Hy & Hitem). exists y. auto.
Qed.

Lemma filter_throwing_kept {A} (f : A → option bool) (l kept : list A) x :
  filter_throwing f l = Some kept → In x kept → In x l ∧ f x = Some true.
Proof.
  revert kept. induction l as [|y rest IH]; simpl; intros kept Hkept Hin.
  - simplify_eq. contradiction.
  - destruct (f y) as [keep|] eqn:Hfy; simpl in Hkept; [|discriminate].
    destruct (filter_throwing f rest) as [kept'|]; simpl in Hkept; [|discriminate].
    simplify_eq. destruct keep.
    + destruct Hin as [-> | Hin]; [auto|]. destruct (IH _ eq_refl Hin). auto.
    + destruct (IH _ eq_refl Hin). auto.
Qed.

Lemma print_planet_shows_itself planet item :
  In item (fst (First.print_planet planet)) → item = planet.
Proof.
  unfold First.print_planet, interpolate, and_then, eval, show, pure.
  repeat (case_match; simplify_eq; simpl in * ); intros Hin;
    repeat (destruct Hin as [Hin | Hin]; try congruence); try contradiction.
Qed.

(** The first copy prints a line only for planets that pass
    [isBigPopulatedPlanet]. *)
Lemma first_copy_displays_only_big planets planet :
  In planet (displayed (First.displayLargePlanets planets)) →
  First.isBigPopulatedPlanet planet = Some true.
Proof.
  unfold First.displayLargePlanets, finish, displayed.
  rewrite and_then_shown.
  destruct (get (Val planets) "results") as [results|]; cbn [eval fst snd app]; [|intros []].
  rewrite and_then_shown.
  destruct (as_array results) as [items|]; cbn [eval fst snd app]; [|intros []].
  rewrite and_then_shown.
  destruct (filter_throwing First.isBigPopulatedPlanet items) as [selected|] eqn:Hsel;
    cbn [eval fst snd app]; [|intros []].
  intros Hin. apply forEach_shown in Hin as (p & Hp & Hshown).
  apply print_planet_shows_itself in Hshown. subst p.
  apply (filter_throwing_kept _ _ _ _ Hsel Hp).
Qed.

Lemma knownNumber_true v :
  First.knownNumber v = Some true →
  v ≠ Val (JStr "unknown") ∧ ∃ n, Number v = Some n ∧ isNaN n = false.
Proof.
  unfold First.knownNumber. destruct (differs v "unknown") eqn:Hd; [|discriminate].
  destruct (Number v) as [n|]; simpl; [|discriminate].
  intros [= Hn]. apply negb_true_iff in Hn. split; [|eauto].
  intros ->. discriminate.
Qed.

(** X22. In the first copy a planet whose population or diameter is the
    string "unknown", or is not a number for [Number], passes no line to
    the display. *)
Lemma first_copy_excludes_unknown_and_non_numeric planets planet v :
  get (Val planet) "population" = Some v ∨ get (Val planet) "diameter" = Some v →
  v = Val (JStr "unknown") ∨ Number v = Some NaN →
  ¬ In planet (displayed (First.displayLargePlanets planets)).
Proof.
  intros Hfield Hbad Hin. apply first_copy_displays_only_big in Hin.
  unfold First.isBigPopulatedPlanet, First.hasLargePopulation, First.hasLargeDiameter in Hin.
  apply bind_Some in Hin as (large & Hlarge & Hin).
  apply bind_Some in Hlarge as (pop & Hpop & Hlarge).
  apply bind_Some in Hlarge as (known_pop & Hkp & Hlarge).
  destruct large; [|discriminate]. destruct known_pop; [|discriminate].
  apply bind_Some in Hin as (dia & Hdia & Hin).
  apply bind_Some in Hin as (known_dia & Hkd & Hin).
  destruct known_dia; [|discriminate].
  apply knownNumber_true in Hkp as [Hpu (n1 & Hn1 & Hnan1)].
  apply knownNumber_true in Hkd as [Hdu (n2 & Hn2 & Hnan2)].
  destruct Hfield as [Hf | Hf]; simplify_eq;
    destruct Hbad as [-> | Hnan]; try congruence; simplify_eq; discriminate.
Qed.

(** Both copies leave out a planet whose population is the string
    "unknown"; the second one does so by its own test. *)
Lemma second_copy_excludes_unknown planet :
  get (Val planet) "population" = Some (Val (JStr "unknown")) ∨
  get (Val planet) "diameter" = Some (Val (JStr "unknown")) →
  Second.large_populated planet ≠ Some true.
Proof.
  unfold Second.large_populated. intros Hfield Hlarge.
  apply bind_Some in Hlarge as (pop & Hpop & Hlarge).
  destruct (differs pop "unknown") eqn:Hp; [|discriminate].
  apply bind_Some in Hlarge as (n & Hn & Hlarge).
  destruct (gt_const n PLANET_POPULATION_THRESHOLD); [|discriminate].
  apply bind_Some in Hlarge as (dia & Hdia & Hlarge).
  destruct (differs dia "unknown") eqn:Hd; [|discriminate].
  destruct Hfield as [Hf | Hf]; simplify_eq; discriminate.
Qed.

(** C8 fails on the second copy: [parseInt] reads the digits a string
    starts with, so a planet whose population and diameter are not
    numbers (for [Number] they are NaN) but begin with large enough
    digits is displayed.  The first copy leaves it out. *)
Theorem digit_prefix_passes_second_filter :
  Number (Val (JStr "2000000000 (est.)")) = Some NaN
  ∧ Number (Val (JStr "12000km")) = Some NaN
  ∧ Second.large_populated Sample.estimated = Some true
  ∧ displayed (Second.displayLargePlanets Sample.planets_estimated)
    = [Sample.coruscant; Sample.estimated]
  ∧ First.isBigPopulatedPlanet Sample.estimated = Some false
  ∧ displayed (First.displayLargePlanets Sample.planets_estimated) = [Sample.coruscant].
Proof. repeat apply conj; vm_compute; reflexivity. Qed.

(** ** The two copies compared *)

(** C9 fails: against the same responses the copies agree on the first
    invocation and part on the second.  The task table of the first copy
    still holds [people/1], which is answered from the cache; the second
    copy requests [people/2] and stores it. *)
Theorem copies_diverge_on_second_invocation :
  let one (c : copy) :=
    invocations (fetchStarWarsData c Sample.healthy Sample.chronological) 1 init in
  let two (c : copy) :=
    invocations (fetchStarWarsData c Sample.healthy Sample.chronological) 2 init in
  calls (one first) = calls (one second)
  ∧ new_calls (one first) (two first)
    = ["people/1"; "starships/?page=1"; "planets/?page=1"; "films/"; "vehicles/2"]
  ∧ new_calls (one second) (two second)
    = ["people/2"; "starships/?page=1"; "planets/?page=1"; "films/"; "vehicles/2"]
  ∧ new_requests (one first) (two first) = ["vehicles/2"]
  ∧ new_requests (one second) (two second) = ["people/2"; "vehicles/2"]
  ∧ cache (two first) !! "people/2" = None
  ∧ cache (two second) !! "people/2" = Some Sample.person
  ∧ cache_size (statsStringfied (two first)) = 6
  ∧ cache_size (statsStringfied (two second)) = 7.
Proof. cbv zeta. repeat apply conj; vm_compute; reflexivity. Qed.

(** The copies differ on what the cache holds after one invocation, too:
    the first copy hands the film handler a second parse of the body, so
    the cached films keep the order of the response, while the second
    copy sorts the cached object itself. *)
Lemma cached_films_order_differs :
  let one (c : copy) :=
    invocations (fetchStarWarsData c Sample.healthy Sample.chronological) 1 init in
  cache (one first) !! "films/" = Some Sample.films
  ∧ cache (one second) !! "films/"
    = Some (with_results
              [Sample.film "A New Hope" "1977-05-25";
               Sample.film "The Empire Strikes Back" "1980-05-17";
               Sample.film "Return of the Jedi" "1983-05-25"] Sample.films).
Proof. cbv zeta. repeat apply conj; vm_compute; reflexivity. Qed.

(** * Further properties of the program *)

(** ** The command line *)

Lemma command_line_frame args st : same_data st (processCommandLineArgs args st).
Proof.
  unfold processCommandLineArgs, same_data.
  repeat case_match; simpl; repeat split; reflexivity.
Qed.

(** X1. The command line reaches [debugMode] and [timeout] only: the cache,
    the counters and the rotating id are as before, and [--no-debug] can
    switch the debug log off but nothing switches it on. *)
Theorem command_line_keeps_data (args : list string) (st : state) :
  same_data st (processCommandLineArgs args st)
  ∧ debugMode (processCommandLineArgs args st)
    = (if bool_decide ("--no-debug" ∈ args) then false else debugMode st).
Proof.
  split; [apply command_line_frame|].
  unfold processCommandLineArgs. repeat case_match; reflexivity.
Qed.

Lemma find_timeout_flag (pre rest : list string) :
  "--timeout" ∉ pre →
  list_find (fun a => a = "--timeout") (pre ++ "--timeout" :: rest)
  = Some (length pre, "--timeout").
Proof.
  intros Hpre. apply list_find_Some. split; [|split].
  - rewrite lookup_app_r by lia. rewrite Nat.sub_diag. reflexivity.
  - reflexivity.
  - intros j y Hj Hlt ->. apply Hpre.
    rewrite lookup_app_l in Hj by lia. eapply list_elem_of_lookup_2, Hj.
Qed.

(** X2. The timeout becomes what [parseInt] reads in the argument that
    follows the first [--timeout], whatever that argument is. *)
Theorem timeout_flag_reads_next_argument (pre post : list string) (v : string)
    (st : state) :
  "--timeout" ∉ pre →
  timeout (processCommandLineArgs (pre ++ "--timeout" :: v :: post) st) = parseInt_string v.
Proof.
  intros Hpre. unfold processCommandLineArgs.
  rewrite (find_timeout_flag pre (v :: post) Hpre).
  replace ((pre ++ "--timeout" :: v :: post) !! S (length pre)) with (Some v).
  - case_match; reflexivity.
  - rewrite lookup_app_r by lia. replace (S (length pre) - length pre)%nat with 1%nat by lia.
    reflexivity.
Qed.

Lemma timeout_flag_reads_next_argument_witness :
  ("--timeout" ∉ ["--no-debug"])
  ∧ timeout (processCommandLineArgs (["--no-debug"] ++ "--timeout" :: "250ms" :: []) init)
    = Fin (Decimal false 250 0).
Proof.
  assert (Hpre : "--timeout" ∉ ["--no-debug"]).
  { intros Hin. apply list_elem_of_In in Hin. simpl in Hin. destruct Hin as [Heq | []].
    discriminate Heq. }
  split; [exact Hpre|].
  exact (timeout_flag_reads_next_argument ["--no-debug"] [] "250ms" init Hpre).
Defined.

(** X3. A [--timeout] that is the last argument has no value to read and
    leaves the timeout as it was, as does a command line without the
    flag. *)
Theorem timeout_flag_without_value (pre : list string) (st : state) :
  "--timeout" ∉ pre →
  timeout (processCommandLineArgs (pre ++ ["--timeout"]) st) = timeout st
  ∧ timeout (processCommandLineArgs pre st) = timeout st.
Proof.
  intros Hpre. unfold processCommandLineArgs. split.
  - rewrite (find_timeout_flag pre [] Hpre).
    rewrite lookup_ge_None_2 by (rewrite length_app; simpl; lia).
    case_match; reflexivity.
  - replace (list_find (fun a => a = "--timeout") pre) with (@None (nat * string)).
    + case_match; reflexivity.
    + symmetry. apply list_find_None. apply Forall_forall. intros x Hx ->. exact (Hpre Hx).
Qed.

Lemma timeout_flag_without_value_witness :
  ("--timeout" ∉ ["--no-debug"])
  ∧ timeout (processCommandLineArgs (["--no-debug"] ++ ["--timeout"]) init) = timeout init
  ∧ timeout (processCommandLineArgs ["--no-debug"] init) = timeout init.
Proof.
  assert (Hpre : "--timeout" ∉ ["--no-debug"]).
  { intros Hin. apply list_elem_of_In in Hin. simpl in Hin. destruct Hin as [Heq | []].
    discriminate Heq. }
  split; [exact Hpre|].
  exact (timeout_flag_without_value ["--no-debug"] init Hpre).
Defined.

(** ** Invocations as a loop over the task table *)

Lemma steps_unfold c net sort st :
  steps c net sort st =
  (for_of (task_table c sort (lastCharacterId st))
     (fun task => present (fetchFromApi c net) (fst task) (snd task)) ;;;
   vehicle_step c net)%js st.
Proof. destruct c; [reflexivity | apply Second_steps_as_loop]. Qed.

Lemma run_unfold c net sort st :
  fetchStarWarsData c net sort st
  = try_catch (steps c net sort) handleError (set_fetchCount incr st).
Proof. destruct c; reflexivity. Qed.

(** A relation between the state before and the state after, indexed by
    the endpoints called in between: if every step keeps it for its own
    endpoint, and the counter updates keep it for no endpoint, an
    invocation keeps it for a prefix of its planned calls.  [good] is what
    the relation needs to know of a handler. *)

Section Traced.

Variable R : list string → state → state → Prop.
Variable good : string → handler → Prop.
Hypothesis R_nil : ∀ st, R [] st st.
Hypothesis R_app : ∀ l1 l2 a b d, R l1 a b → R l2 b d → R (l1 ++ l2) a d.
Hypothesis R_step : ∀ c net endpoint h st,
  good endpoint h → R [endpoint] st (state_of (present (fetchFromApi c net) endpoint h st)).
Hypothesis R_advance : ∀ st, R [] st (set_lastCharacterId incr st).
Hypothesis R_count : ∀ st, R [] st (set_fetchCount incr st).
Hypothesis R_error : ∀ st, R [] st (set_errorCount incr st).
Hypothesis good_tasks : ∀ c sort id, Forall (fun task => good (fst task) (snd task))
                                            (task_table c sort id).
Hypothesis good_vehicle : ∀ id, good (with_id "vehicles/" id) displayVehicle.

Lemma loop_traced c net (tasks : list (string * handler)) st :
  Forall (fun task => good (fst task) (snd task)) tasks →
  let r := for_of tasks (fun task => present (fetchFromApi c net) (fst task) (snd task)) st in
  ∃ l, l `prefix_of` map fst tasks ∧ R l st (state_of r) ∧
       lastCharacterId (state_of r) = lastCharacterId st ∧
       (∀ a st', r = Ok a st' → l = map fst tasks).
Proof.
  intros Hgood. revert st. induction Hgood as [|[endpoint h] rest Hh _ IH]; intros st; simpl.
  - exists []. repeat split; auto.
  - rewrite bind_apply.
    pose proof (R_step c net endpoint h st Hh) as Hstep.
    pose proof (step_frames c net endpoint h st) as Hframe.
    destruct (present (fetchFromApi c net) endpoint h st) as [[] st1 | e st1 | e st1 | st1];
      simpl in *.
    + destruct (IH st1) as (l & Hprefix & Hl & Hid & Hok).
      exists (endpoint :: l). split; [|split; [|split]].
      * apply prefix_cons, Hprefix.
      * apply (R_app [endpoint] l _ _ _ Hstep Hl).
      * rewrite Hid. apply (step_lastCharacterId _ _ _ Hframe).
      * intros a st' Hr. f_equal. eapply Hok, Hr.
    + exists [endpoint]. split; [|split; [|split]].
      * apply prefix_cons, prefix_nil.
      * exact Hstep.
      * apply (step_lastCharacterId _ _ _ Hframe).
      * discriminate.
    + exists [endpoint]. split; [|split; [|split]].
      * apply prefix_cons, prefix_nil.
      * exact Hstep.
      * apply (step_lastCharacterId _ _ _ Hframe).
      * discriminate.
    + exists [endpoint]. split; [|split; [|split]].
      * apply prefix_cons, prefix_nil.
      * exact Hstep.
      * apply (step_lastCharacterId _ _ _ Hframe).
      * discriminate.
Qed.

Lemma steps_traced c net sort st :
  ∃ l, l `prefix_of` planned_calls c (lastCharacterId st) ∧
       R l st (state_of (steps c net sort st)).
Proof.
  rewrite steps_unfold, bind_apply.
  destruct (loop_traced c net _ st (good_tasks c sort (lastCharacterId st)))
    as (l & Hprefix & Hl & Hid & Hok).
  change (map fst (task_table c sort (lastCharacterId st)))
    with (task_endpoints c (lastCharacterId st)) in *.
  unfold planned_calls.
  destruct (for_of _ _ st) as [[] st1 | e st1 | e st1 | st1]; cbn [state_of] in *.
  - rewrite (Hok _ _ eq_refl) in Hl. clear Hok Hprefix l.
    unfold vehicle_step. rewrite bind_apply. unfold gets at 1. rewrite Hid.
    destruct (lastCharacterId st <=? maxlastCharacterId).
    + rewrite bind_apply.
      pose proof (R_step c net (with_id "vehicles/" (lastCharacterId st)) displayVehicle st1
                    (good_vehicle _)) as Hstep.
      exists (task_endpoints c (lastCharacterId st) ++ [with_id "vehicles/" (lastCharacterId st)]).
      split; [reflexivity|].
      destruct (present _ _ _ st1) as [[] st2 | e st2 | e st2 | st2]; cbn [state_of] in *.
      * apply (R_app _ _ _ _ _ Hl).
        rewrite <- (app_nil_r [_]). apply (R_app _ _ _ _ _ Hstep), R_advance.
      * apply (R_app _ _ _ _ _ Hl Hstep).
      * apply (R_app _ _ _ _ _ Hl Hstep).
      * apply (R_app _ _ _ _ _ Hl Hstep).
    + exists (task_endpoints c (lastCharacterId st) ++ []). split; [reflexivity|].
      apply (R_app _ _ _ _ _ Hl), R_nil.
  - exists l. split; [apply prefix_app_r, Hprefix | exact Hl].
  - exists l. split; [apply prefix_app_r, Hprefix | exact Hl].
  - exists l. split; [apply prefix_app_r, Hprefix | exact Hl].
Qed.

Lemma run_traced c net sort st :
  ∃ l, l `prefix_of` planned_calls c (lastCharacterId st) ∧
       R l st (state_of (fetchStarWarsData c net sort st)).
Proof.
  rewrite run_unfold. unfold try_catch.
  destruct (steps_traced c net sort (set_fetchCount incr st)) as (l & Hprefix & Hl).
  simpl in Hprefix. exists l. split; [exact Hprefix|].
  pose proof (R_app [] l _ _ _ (R_count st) Hl) as Hrun. simpl in Hrun.
  destruct (steps c net sort (set_fetchCount incr st)) as [[] st1 | e st1 | e st1 | st1];
    simpl in *; try exact Hrun.
  rewrite <- (app_nil_r l). apply (R_app _ _ _ _ _ Hrun), R_error.
Qed.

End Traced.

(** ** Calls and requests of an invocation *)






(** ** What an invocation does to the cache *)




(** ** The error counter of an invocation *)

(** X13. An invocation counts an error exactly when a step threw into its
    [try] block; one that runs through, or that ends the process, leaves
    the error counter alone. *)
Theorem errors_count_thrown_steps (c : copy) (net : network)
    (sort : list json → list json) (st : state) :
  errorCount (state_of (fetchStarWarsData c net sort st))
  = match try_block c net sort st with
    | Thrown _ _ => incr (errorCount st)
    | _ => errorCount st
    end.
Proof.
  assert (Htry : try_block c net sort st = steps c net sort (set_fetchCount incr st)).
  { destruct c; reflexivity. }
  pose proof (steps_keep_errorCount c net sort (set_fetchCount incr st)) as Herr.
  unfold same_errorCount in Herr. simpl in Herr.
  rewrite run_unfold, Htry. unfold try_catch.
  destruct (steps c net sort (set_fetchCount incr st)) as [[] st1 | e st1 | e st1 | st1];
    simpl in *; rewrite Herr; reflexivity.
Qed.

(** Rounding never rises above a double that the argument has not passed. *)
Lemma round53_le x y : double y → x <= y → round53 x <= y.
Proof.
  intros [Hy0 Hy] Hxy.
  destruct (Z.ltb_spec x (2 ^ 53)) as [Hs | Hl].
  { rewrite round53_small; lia. }
  assert (Hyl : 2 ^ 53 <= y) by lia.
  destruct (round53_shape y Hyl) as (by' & qy & Hby & Hby53 & Hqy & _ & Hry & _).
  rewrite Hy in Hry.
  assert (Hpos : 0 < x) by lia.
  pose proof (Z.log2_spec x Hpos) as [Hlo Hhi].
  assert (Hb : 53 <= Z.log2 x) by (apply Z.log2_le_pow2; lia).
  assert (Hmono : Z.log2 x <= by') by (subst by'; apply Z.log2_le_mono; lia).
  unfold round53. destruct (Z.ltb_spec x (2 ^ 53)); [lia|].
  set (b := Z.log2 x) in *. set (k := b - 52).
  assert (HP : 0 < 2 ^ k) by (apply Z.pow_pos_nonneg; lia).
  assert (Hsplit' : 2 ^ (b + 1) = 2 ^ 53 * 2 ^ k).
  { rewrite <- Z.pow_add_r by lia. f_equal. lia. }
  replace (Z.succ b) with (b + 1) in Hhi by lia.
  pose proof (Z.div_mod x (2 ^ k) ltac:(lia)) as Hdm.
  pose proof (Z.mod_pos_bound x (2 ^ k) HP) as Hmod.
  set (q := x / 2 ^ k) in *. set (r := x mod 2 ^ k) in *.
  assert (Hfloor : q * 2 ^ k <= y) by lia.
  assert (Hq : q < 2 ^ 53).
  { apply Z.div_lt_upper_bound; lia. }
  assert (Hceil : 0 < r → (q + 1) * 2 ^ k <= y).
  { intros Hr.
    assert (Hcase : by' = b ∨ b < by') by lia.
    destruct Hcase as [Heq | Hlt].
    - rewrite Heq in Hry. fold k in Hry.
      assert (q < qy) by nia. rewrite Hry.
      apply Z.mul_le_mono_nonneg_r; lia.
    - assert (2 ^ (b + 1) <= 2 ^ by') by (apply Z.pow_le_mono_r; lia).
      pose proof (Z.log2_spec y ltac:(lia)) as [Hylo _]. rewrite Hby in Hylo.
      assert ((q + 1) * 2 ^ k <= 2 ^ 53 * 2 ^ k)
        by (apply Z.mul_le_mono_nonneg_r; lia).
      lia. }
  assert (Hh : 0 < 2 ^ (k - 1)) by (apply Z.pow_pos_nonneg; lia).
  destruct ((r <? 2 ^ (k - 1)) || ((r =? 2 ^ (k - 1)) && Z.even q)) eqn:Hdown;
    [exact Hfloor|].
  apply Hceil. apply orb_false_iff in Hdown as [Hlt _].
  apply Z.ltb_ge in Hlt. lia.
Qed.

Lemma incr_mono x y : double x → double y → x <= y → incr x <= incr y.
Proof.
  intros Hx Hy Hxy. unfold incr, JS.add.
  assert (Hcase : x = y ∨ x + 1 <= y) by lia.
  destruct Hcase as [-> | Hlt]; [lia|].
  transitivity y; [apply round53_le; assumption|].
  apply round53_ge; [assumption | lia].
Qed.

(** ** What the handlers display *)

Lemma forEach_prefix {A} (l : list A) (body : A → H unit) (tag : A → json) :
  (∀ x, fst (body x) = [tag x]) →
  fst (forEach l body) `prefix_of` map tag l.
Proof.
  intros Hbody. induction l as [|x rest IH]; simpl; [reflexivity|].
  rewrite and_then_shown, Hbody. simpl. apply prefix_cons.
  destruct (snd (body x)); [exact IH | apply prefix_nil].
Qed.

Lemma forEach_all {A} (l : list A) (body : A → H unit) (shown : A → list json) :
  (∀ x, snd (body x) ≠ None → fst (body x) = shown x) →
  snd (forEach l body) ≠ None →
  fst (forEach l body) = concat (map shown l).
Proof.
  intros Hbody. induction l as [|x rest IH]; simpl; [reflexivity|].
  rewrite and_then_shown. unfold and_then.
  specialize (Hbody x).
  destruct (body x) as [w [[]|]]; simpl in *.
  - destruct (forEach rest body) as [w' r] eqn:Hrest; simpl in *.
    intros Hr. rewrite Hbody by discriminate. f_equal. apply IH. exact Hr.
  - intros Hr. contradiction.
Qed.

Lemma eval_then {A B} (o : option A) (k : A → H B) :
  and_then (eval o) k = match o with Some a => k a | None => ([], None) end.
Proof. destruct o as [a|]; simpl; [destruct (k a)|]; reflexivity. Qed.

Lemma log_field_then {B} (v : value) (k : string) (rest : H B) :
  and_then (log_field v k) (fun _ => rest)
  = match get v k with Some _ => rest | None => ([], None) end.
Proof.
  unfold log_field. destruct (get v k); simpl; [destruct rest|]; reflexivity.
Qed.

(** X17. The starship handler prints the header of at most three ships, the
    first ones of the page in their order, and none when the payload has
    no array of results. *)
Theorem starships_display_is_bounded (starships : json) :
  match get (Val starships) "results" ≫= as_array with
  | Some items =>
      displayed (displayStarships starships) `prefix_of` take MAX_STARSHIPS_DISPLAY items
  | None => displayed (displayStarships starships) = []
  end
  ∧ (length (displayed (displayStarships starships)) <= MAX_STARSHIPS_DISPLAY)%nat.
Proof.
  assert (Hmain : match get (Val starships) "results" ≫= as_array with
                  | Some items => displayed (displayStarships starships)
                                  `prefix_of` take MAX_STARSHIPS_DISPLAY items
                  | None => displayed (displayStarships starships) = []
                  end).
  { unfold displayStarships, finish, displayed.
    rewrite log_field_then, eval_then.
    destruct (get (Val starships) "results") as [results|] eqn:Hresults;
      cbn [mbind option_bind].
    - rewrite eval_then.
      destruct (as_array results) as [items|].
      + destruct (get (Val starships) "count"); [|apply prefix_nil].
        rewrite <- (map_id (take MAX_STARSHIPS_DISPLAY items)) at 2.
        apply forEach_prefix. intros ship.
        rewrite and_then_shown. cbn [show fst snd app]. f_equal.
        rewrite !log_field_then, eval_then.
        unfold log_field, interpolate, and_then, eval, show, pure.
        repeat (case_match; simplify_eq; simpl in * ); reflexivity.
      + destruct (get (Val starships) "count"); reflexivity.
    - destruct (get (Val starships) "count"); reflexivity. }
  split; [exact Hmain|].
  destruct (get (Val starships) "results" ≫= as_array) as [items|].
  - etransitivity; [apply prefix_length, Hmain|]. rewrite length_take. lia.
  - rewrite Hmain. simpl. lia.
Qed.

(** X18. The vehicle handler throws on a [null] payload and on nothing else;
    any other payload gets its lines printed and is left as it is. *)
Theorem vehicle_display_fails_on_null_only (vehicle : json) :
  displayVehicle vehicle
  = match vehicle with
    | JNull => Display [] true vehicle
    | _ => Display [vehicle] false vehicle
    end.
Proof. destruct vehicle; reflexivity. Qed.

(** ** The planets that are displayed *)

Lemma print_planet_all planet :
  snd (First.print_planet planet) ≠ None → fst (First.print_planet planet) = [planet].
Proof.
  unfold First.print_planet, interpolate, and_then, eval, show, pure.
  repeat (case_match; simplify_eq; simpl in * ); intros Hr;
    try reflexivity; contradiction.
Qed.

Lemma print_if_large_shows planet item :
  In item (fst (Second.print_if_large planet)) →
  item = planet ∧ Second.large_populated planet = Some true.
Proof.
  unfold Second.print_if_large. rewrite eval_then.
  destruct (Second.large_populated planet) as [[]|]; [|intros []..].
  unfold interpolate, and_then, eval, show, pure.
  repeat (case_match; simplify_eq; simpl in * ); intros Hin;
    repeat (destruct Hin as [Hin | Hin]; try (split; congruence)); contradiction.
Qed.

Lemma print_if_large_all planet :
  snd (Second.print_if_large planet) ≠ None →
  ∃ large, Second.large_populated planet = Some large
           ∧ fst (Second.print_if_large planet) = if large : bool then [planet] else [].
Proof.
  unfold Second.print_if_large. rewrite eval_then.
  destruct (Second.large_populated planet) as [[]|];
    [intros Hr; exists true | exists false; split; reflexivity | intros []; reflexivity].
  split; [reflexivity|]. revert Hr.
  unfold interpolate, and_then, eval, show, pure.
  repeat (case_match; simplify_eq; simpl in * ); intros Hr;
    try reflexivity; contradiction.
Qed.

Lemma second_copy_displays_only_large planets planet :
  In planet (displayed (Second.displayLargePlanets planets)) →
  Second.large_populated planet = Some true.
Proof.
  unfold Second.displayLargePlanets, finish, displayed.
  rewrite !eval_then.
  destruct (get (Val planets) "results") as [results|]; [|intros []].
  rewrite eval_then.
  destruct (as_array results) as [items|]; [|intros []].
  intros Hin. apply forEach_shown in Hin as (p & Hp & Hshown).
  apply print_if_large_shows in Hshown as [-> Hlarge]. exact Hlarge.
Qed.

Lemma first_forEach_all selected :
  snd (forEach selected First.print_planet) ≠ None →
  fst (forEach selected First.print_planet) = selected.
Proof.
  intros Hr.
  rewrite (forEach_all selected First.print_planet (fun p => [p]) print_planet_all Hr).
  clear Hr. induction selected as [|p rest IH]; simpl; congruence.
Qed.

Lemma second_forEach_all items :
  snd (forEach items Second.print_if_large) ≠ None →
  filter_throwing Second.large_populated items
  = Some (fst (forEach items Second.print_if_large)).
Proof.
  induction items as [|p rest IH]; simpl; [reflexivity|].
  rewrite and_then_shown. unfold and_then.
  pose proof (print_if_large_all p) as Hp.
  destruct (Second.print_if_large p) as [w [[]|]]; simpl in *; [|contradiction].
  destruct Hp as (large & -> & ->); [discriminate|].
  destruct (forEach rest Second.print_if_large) as [w' r]; simpl in *.
  intros Hr. rewrite (IH Hr). simpl. destruct large; reflexivity.
Qed.

(** X19. In either copy every planet that reaches the display passes the
    copy's test of population and diameter, also when the handler throws
    half way through the page. *)
Theorem displayed_planets_pass_the_test (c : copy) (planets planet : json) :
  In planet (displayed (displayLargePlanets c planets)) →
  planet_test c planet = Some true.
Proof.
  destruct c; simpl.
  - apply first_copy_displays_only_big.
  - apply second_copy_displays_only_large.
Qed.

Lemma displayed_planets_pass_the_test_witness :
  In Sample.coruscant (displayed (displayLargePlanets second Sample.planets))
  ∧ planet_test second Sample.coruscant = Some true.
Proof.
  assert (Hin : In Sample.coruscant (displayed (displayLargePlanets second Sample.planets)))
    by (vm_compute; auto).
  split; [exact Hin|].
  exact (displayed_planets_pass_the_test second Sample.planets Sample.coruscant Hin).
Defined.

(** X20. When the planets handler does not throw, what it displays is exactly
    the planets of the page that pass the copy's test, in the order of the
    page. *)
Theorem planets_display_is_the_filter (c : copy) (planets : json) (items : list json) :
  get (Val planets) "results" = Some (Val (JArr items)) →
  threw (displayLargePlanets c planets) = false →
  filter_throwing (planet_test c) items
  = Some (displayed (displayLargePlanets c planets)).
Proof.
  intros Hresults.
  destruct c; unfold displayLargePlanets, planet_test;
    unfold First.displayLargePlanets, Second.displayLargePlanets, finish, threw, displayed;
    rewrite eval_then, Hresults, eval_then; cbn [as_array].
  - rewrite eval_then.
    destruct (filter_throwing First.isBigPopulatedPlanet items) as [selected|];
      [|discriminate].
    intros Hr. rewrite first_forEach_all; [reflexivity|].
    destruct (snd (forEach selected First.print_planet)); discriminate.
  - intros Hr. apply second_forEach_all.
    destruct (snd (forEach items Second.print_if_large)); discriminate.
Qed.

Lemma planets_display_is_the_filter_witness :
  get (Val Sample.planets) "results"
  = Some (Val (JArr [Sample.coruscant; Sample.tatooine; Sample.hoth]))
  ∧ threw (displayLargePlanets first Sample.planets) = false
  ∧ filter_throwing (planet_test first) [Sample.coruscant; Sample.tatooine; Sample.hoth]
    = Some (displayed (displayLargePlanets first Sample.planets)).
Proof.
  assert (H1 : get (Val Sample.planets) "results"
               = Some (Val (JArr [Sample.coruscant; Sample.tatooine; Sample.hoth])))
    by reflexivity.
  assert (H2 : threw (displayLargePlanets first Sample.planets) = false)
    by (vm_compute; reflexivity).
  split; [exact H1|]. split; [exact H2|].
  exact (planets_display_is_the_filter first Sample.planets _ H1 H2).
Defined.

Lemma unknown_or_missing_fails (c : copy) (planet : json) (v : value) :
  get (Val planet) "population" = Some v ∨ get (Val planet) "diameter" = Some v →
  v = Val (JStr "unknown") ∨ v = Undefined →
  planet_test c planet ≠ Some true.
Proof.
  intros Hfield Hv Htest. destruct c; simpl in Htest.
  - unfold First.isBigPopulatedPlanet, First.hasLargePopulation, First.hasLargeDiameter
      in Htest.
    apply bind_Some in Htest as (large & Hlarge & Htest).
    apply bind_Some in Hlarge as (pop & Hpop & Hlarge).
    apply bind_Some in Hlarge as (known_pop & Hkp & Hlarge).
    destruct large; [|discriminate]. destruct known_pop; [|discriminate].
    apply bind_Some in Htest as (dia & Hdia & Htest).
    apply bind_Some in Htest as (known_dia & Hkd & Htest).
    destruct known_dia; [|discriminate].
    destruct Hfield as [Hf | Hf]; simplify_eq; destruct Hv as [-> | ->]; discriminate.
  - unfold Second.large_populated in Htest.
    apply bind_Some in Htest as (pop & Hpop & Htest).
    destruct (differs pop "unknown") eqn:Hp; [|discriminate].
    apply bind_Some in Htest as (n & Hn & Htest).
    destruct (gt_const n PLANET_POPULATION_THRESHOLD) eqn:Hgt; [|discriminate].
    apply bind_Some in Htest as (dia & Hdia & Htest).
    destruct (differs dia "unknown") eqn:Hd; [|discriminate].
    apply bind_Some in Htest as (d & Hdn & Htest).
    destruct Hfield as [Hf | Hf]; simplify_eq; destruct Hv as [-> | ->];
      try discriminate; vm_compute in Hn, Hdn; simplify_eq; discriminate.
Qed.

(** X21. In either copy a planet whose population or diameter is the string
    "unknown", or is missing, is never displayed. *)
Theorem unknown_planets_are_not_displayed (c : copy) (planets planet : json) (v : value) :
  get (Val planet) "population" = Some v ∨ get (Val planet) "diameter" = Some v →
  v = Val (JStr "unknown") ∨ v = Undefined →
  ¬ In planet (displayed (displayLargePlanets c planets)).
Proof.
  intros Hfield Hv Hin.
  apply (unknown_or_missing_fails c planet v Hfield Hv).
  destruct c; simpl in *.
  - apply (first_copy_displays_only_big _ _ Hin).
  - apply (second_copy_displays_only_large _ _ Hin).
Qed.

Lemma unknown_planets_are_not_displayed_witness :
  (get (Val Sample.hoth) "population" = Some (Val (JStr "unknown"))
   ∨ get (Val Sample.hoth) "diameter" = Some (Val (JStr "unknown")))
  ∧ (Val (JStr "unknown") = Val (JStr "unknown") ∨ Val (JStr "unknown") = Undefined)
  ∧ ¬ In Sample.hoth (displayed (displayLargePlanets second Sample.planets)).
Proof.
  assert (H1 : get (Val Sample.hoth) "population" = Some (Val (JStr "unknown"))
               ∨ get (Val Sample.hoth) "diameter" = Some (Val (JStr "unknown")))
    by (left; reflexivity).
  assert (H2 : Val (JStr "unknown") = Val (JStr "unknown")
               ∨ Val (JStr "unknown") = Undefined)
    by (left; reflexivity).
  split; [exact H1|]. split; [exact H2|].
  exact (unknown_planets_are_not_displayed second Sample.planets Sample.hoth _ H1 H2).
Defined.

(** ** The films handler *)

Lemma own_set_own_ne k k' v fields :
  k ≠ k' → own k (set_own k' v fields) = own k fields.
Proof.
  intros Hne. induction fields as [|[k0 v0] rest IH]; simpl; [reflexivity|].
  destruct (String.eqb_spec k' k0) as [-> | Hk0]; simpl.
  - destruct (String.eqb_spec k k0); [contradiction | reflexivity].
  - rewrite IH. reflexivity.
Qed.

Lemma own_set_own_eq k v fields :
  is_Some (own k fields) → own k (set_own k v fields) = Some v.
Proof.
  induction fields as [|[k0 v0] rest IH]; simpl; [intros [? [=]]|].
  destruct (String.eqb_spec k k0) as [-> | Hk0]; simpl.
  - rewrite String.eqb_refl. reflexivity.
  - destruct (String.eqb_spec k k0); [contradiction | exact IH].
Qed.

(** X24. Whatever the sort does and whether or not the handler throws, the
    films handler changes no field of its payload other than [results]. *)
Theorem film_handler_changes_results_only (sort : list json → list json)
    (films : json) (k : string) :
  k ≠ "results" →
  get (Val (after (displayFilmsChronologically sort films))) k = get (Val films) k.
Proof.
  intros Hk. unfold displayFilmsChronologically.
  destruct (get (Val films) "results" ≫= as_array) as [items|]; [|reflexivity].
  destruct ((2 <=? length items)%nat && _); [reflexivity|].
  unfold finish, after, with_results. destruct films; try reflexivity.
  simpl. rewrite own_set_own_ne by exact Hk. reflexivity.
Qed.

Lemma film_handler_changes_results_only_witness :
  "count" ≠ "results"
  ∧ get (Val (after (displayFilmsChronologically Sample.chronological Sample.films))) "count"
    = get (Val Sample.films) "count".
Proof.
  assert (H1 : "count" ≠ "results") by discriminate.
  split; [exact H1|].
  exact (film_handler_changes_results_only Sample.chronological Sample.films "count" H1).
Defined.

(** X25. When the films handler does not throw, it displays the films in the
    order the sort produced, and the payload it leaves behind has that
    sorted array as its [results]. *)
Theorem films_are_displayed_as_sorted (sort : list json → list json)
    (films : json) (items : list json) :
  get (Val films) "results" = Some (Val (JArr items)) →
  threw (displayFilmsChronologically sort films) = false →
  displayed (displayFilmsChronologically sort films) = sort items
  ∧ get (Val (after (displayFilmsChronologically sort films))) "results"
    = Some (Val (JArr (sort items))).
Proof.
  intros Hresults. unfold displayFilmsChronologically. rewrite Hresults.
  cbn [mbind option_bind as_array].
  destruct ((2 <=? length items)%nat && _); [discriminate|].
  unfold finish, threw, displayed, after. intros Hr. split.
  - rewrite (forEach_all _ _ (fun film => [film])).
    + generalize (sort items). intros l. induction l as [|x l IH]; simpl; congruence.
    + intros film. rewrite !eval_then.
      unfold interpolate, and_then, eval, show, pure.
      repeat (case_match; simplify_eq; simpl in * ); intros Hx;
        try reflexivity; contradiction.
    + match type of Hr with context [snd ?h] => destruct (snd h) end; discriminate.
  - destruct films; simpl in Hresults; try discriminate.
    destruct (own "results" fields) eqn:Hown; [|discriminate].
    simpl. rewrite own_set_own_eq by (rewrite Hown; eauto). reflexivity.
Qed.

Lemma films_are_displayed_as_sorted_witness :
  let items := [Sample.film "The Empire Strikes Back" "1980-05-17";
                Sample.film "A New Hope" "1977-05-25";
                Sample.film "Return of the Jedi" "1983-05-25"] in
  get (Val Sample.films) "results" = Some (Val (JArr items))
  ∧ threw (displayFilmsChronologically Sample.chronological Sample.films) = false
  ∧ displayed (displayFilmsChronologically Sample.chronological Sample.films)
    = Sample.chronological items
  ∧ get (Val (after (displayFilmsChronologically Sample.chronological Sample.films)))
      "results"
    = Some (Val (JArr (Sample.chronological items))).
Proof.
  intros items.
  assert (H1 : get (Val Sample.films) "results" = Some (Val (JArr items)))
    by reflexivity.
  assert (H2 : threw (displayFilmsChronologically Sample.chronological Sample.films)
               = false)
    by (vm_compute; reflexivity).
  split; [exact H1|]. split; [exact H2|].
  exact (films_are_displayed_as_sorted Sample.chronological Sample.films items H1 H2).
Defined.

(** ** An invocation on a warm cache *)

Lemma served_step c net endpoint h st :
  keeps_truthy h →
  served_from_cache [endpoint] st (state_of (present (fetchFromApi c net) endpoint h st)).
Proof.
  intros Hh Hwarm. apply Forall_inv in Hwarm. unfold warm in Hwarm.
  destruct (cache st !! endpoint) as [v|] eqn:Hv; [|discriminate].
  assert (Hread : cache_read (cache st) endpoint = Some (Data v)).
  { unfold cache_read. rewrite Hv. reflexivity. }
  unfold present. rewrite bind_apply.
  rewrite (truthy_read_hits c net endpoint st (Data v) Hread Hwarm).
  simpl. unfold call_handler. cbn [payload fst snd].
  destruct (threw (h v)); simpl; (split; [reflexivity|]);
    intros e He; unfold warm in *; simpl;
    (destruct (decide (e = endpoint)) as [-> | Hne];
      [rewrite lookup_insert_eq; apply Hh, Hwarm
      | rewrite lookup_insert_ne by congruence; exact He]).
Qed.

Lemma film_handler_keeps_truthy sort : keeps_truthy (displayFilmsChronologically sort).
Proof.
  intros films Ht. unfold displayFilmsChronologically.
  destruct (get (Val films) "results" ≫= as_array) as [items|]; [|exact Ht].
  destruct ((2 <=? length items)%nat && _); [exact Ht|].
  unfold finish, after, with_results. destruct films; auto.
Qed.

(** X11. When the cache holds a truthy entry for every endpoint an invocation
    can call, the invocation issues no request at all, whatever the
    network would answer. *)
Theorem warm_invocation_issues_no_request (c : copy) (net : network)
    (sort : list json → list json) (st : state) :
  Forall (warm st) (planned_calls c (lastCharacterId st)) →
  requests (state_of (fetchStarWarsData c net sort st)) = requests st.
Proof.
  intros Hwarm.
  destruct (run_traced served_from_cache (fun _ h => keeps_truthy h))
    with (c := c) (net := net) (sort := sort) (st := st) as (l & Hprefix & Hl).
  - intros st0 _. auto.
  - intros l1 l2 a b d Hab Hbd Hall. apply Forall_app in Hall as [H1 H2].
    destruct (Hab H1) as [Hr1 Hw1].
    destruct Hbd as [Hr2 Hw2].
    { eapply Forall_impl; [exact H2|]. exact Hw1. }
    split; [congruence | auto].
  - intros c0 net0 endpoint h st0 Hh. apply served_step, Hh.
  - intros st0 _. auto.
  - intros st0 _. auto.
  - intros st0 _. auto.
  - intros c0 sort0 id. destruct c0; repeat constructor;
      solve [intros x Hx; exact Hx | apply film_handler_keeps_truthy].
  - intros id x Hx. exact Hx.
  - apply Hl. destruct Hprefix as [rest Hrest]. rewrite Hrest in Hwarm.
    apply Forall_app in Hwarm as [H1 _]. exact H1.
Qed.

Lemma warm_invocation_issues_no_request_witness :
  let st := invocations (fetchStarWarsData first Sample.healthy Sample.chronological)
              4 init in
  Forall (warm st) (planned_calls first (lastCharacterId st))
  ∧ requests (state_of (fetchStarWarsData first Sample.failing Sample.chronological st))
    = requests st.
Proof.
  intros st.
  assert (Hwarm : Forall (warm st) (planned_calls first (lastCharacterId st)))
    by (vm_compute; repeat constructor).
  split; [exact Hwarm|].
  exact (warm_invocation_issues_no_request first Sample.failing Sample.chronological
           st Hwarm).
Defined.

(** ** Numeric fields written in digits *)

Lemma strip_any_other (ps : list (list Z)) b l :
  Forall (fun p => match p with a :: _ => a ≠ b | [] => False end) ps →
  strip_any ps (b :: l) = None.
Proof.
  induction 1 as [|[|a p] ps Hp _ IH]; simpl; [reflexivity | contradiction|].
  destruct (Z.eqb_spec a b); [contradiction | exact IH].
Qed.

Lemma digit_not_space b l :
  48 <= b <= 57 →
  strip_any white_space (b :: l) = None
  ∧ strip_any (map (@rev Z) white_space) (b :: l) = None.
Proof.
  intros Hb. split; apply strip_any_other; unfold white_space; simpl;
    repeat constructor; lia.
Qed.

Lemma trim_digits l :
  Forall (fun b => 48 <= b <= 57) l →
  trim_start l = l ∧ trim_end l = l.
Proof.
  intros Hl. split.
  - unfold trim_start. destruct Hl as [|b l' Hb Hl']; [reflexivity|].
    cbn [length trim_fuel]. rewrite (proj1 (digit_not_space b l' Hb)). reflexivity.
  - unfold trim_end. rewrite <- (rev_involutive l) at 3.
    f_equal. apply Forall_rev in Hl. rewrite <- (length_rev l).
    destruct Hl as [|b l' Hb Hl']; [reflexivity|].
    cbn [length trim_fuel]. rewrite (proj2 (digit_not_space b l' Hb)). reflexivity.
Qed.

Lemma span_digits_all l :
  Forall (fun b => 48 <= b <= 57) l →
  span_digits 10 l = (map (fun b => b - 48) l, []).
Proof.
  induction 1 as [|b l Hb _ IH]; simpl; [reflexivity|].
  unfold digit_value.
  destruct (Z.leb_spec 48 b); [|lia]. destruct (Z.leb_spec b 57); [|lia]. simpl.
  destruct (Z.ltb_spec (b - 48) 10); [|lia]. rewrite IH. reflexivity.
Qed.

Lemma digits_value_number l :
  Forall (fun b => 48 <= b <= 57) l →
  Z.of_N (digits_value 10 (map (fun b => b - 48) l))
  = fold_left (fun acc b => acc * 10 + (b - 48)) l 0.
Proof.
  intros Hl. unfold digits_value.
  assert (Hfold : ∀ acc, fold_left (fun acc d => acc * 10 + d) (map (fun b => b - 48) l) acc
                         = fold_left (fun acc b => acc * 10 + (b - 48)) l acc).
  { induction l as [|b l IH]; intros acc; simpl; [reflexivity|].
    apply IH. inversion Hl; assumption. }
  rewrite Hfold. apply Z2N.id.
  assert (Hpos : ∀ acc, 0 <= acc → 0 <= fold_left (fun acc b => acc * 10 + (b - 48)) l acc).
  { clear Hfold. induction Hl as [|b l Hb _ IH]; intros acc Hacc; simpl; [exact Hacc|].
    apply IH. lia. }
  apply Hpos. lia.
Qed.

Lemma unsigned_decimal_digits l :
  Forall (fun b => 48 <= b <= 57) l → l ≠ [] →
  unsigned_decimal false l
  = Fin (Decimal false (digits_value 10 (map (fun b => b - 48) l)) 0).
Proof.
  intros Hl Hne. unfold unsigned_decimal.
  destruct (decide (l = bytes "Infinity")) as [-> | _].
  { apply Forall_inv in Hl. vm_compute in Hl. destruct Hl as [_ Hl]. contradiction Hl.
    reflexivity. }
  rewrite span_digits_all by exact Hl.
  destruct l as [|b l]; [contradiction|]. simpl. rewrite app_nil_r. reflexivity.
Qed.

Lemma digit_cases b :
  48 <= b <= 57 →
  b = 48 ∨ b = 49 ∨ b = 50 ∨ b = 51 ∨ b = 52 ∨ b = 53 ∨ b = 54 ∨ b = 55 ∨ b = 56 ∨ b = 57.
Proof. lia. Qed.

Lemma StringToNumber_digits s :
  digit_string s →
  StringToNumber s = Fin (Decimal false (digits_value 10 (map (fun b => b - 48) (bytes s))) 0).
Proof.
  intros [Hne Hl]. unfold StringToNumber.
  rewrite (proj1 (trim_digits _ Hl)), (proj2 (trim_digits _ Hl)).
  assert (Hbytes : bytes s ≠ []).
  { destruct s; [contradiction | discriminate]. }
  rewrite <- (unsigned_decimal_digits _ Hl Hbytes).
  destruct (bytes s) as [|b l]; [contradiction|].
  pose proof (digit_cases b (Forall_inv Hl)) as Hb.
  assert (Hnd : non_decimal (b :: l) = None).
  { destruct l as [|p rest].
    - repeat (destruct Hb as [-> | Hb]; [reflexivity|]). subst. reflexivity.
    - apply Forall_inv_tail, Forall_inv in Hl.
      repeat (destruct Hb as [-> | Hb]; [|try (subst; reflexivity)]);
        try reflexivity.
      simpl.
      destruct (Z.eqb_spec p 120); [lia|]. destruct (Z.eqb_spec p 88); [lia|].
      destruct (Z.eqb_spec p 111); [lia|]. destruct (Z.eqb_spec p 79); [lia|].
      destruct (Z.eqb_spec p 98); [lia|]. destruct (Z.eqb_spec p 66); [lia|].
      reflexivity. }
  rewrite Hnd.
  repeat (destruct Hb as [-> | Hb]; [reflexivity|]). subst. reflexivity.
Qed.

Lemma parseInt_digits s :
  digit_string s →
  parseInt_string s = Fin (Decimal false (digits_value 10 (map (fun b => b - 48) (bytes s))) 0).
Proof.
  intros [Hne Hl]. unfold parseInt_string.
  rewrite (proj1 (trim_digits _ Hl)).
  assert (Hbytes : bytes s ≠ []).
  { destruct s; [contradiction | discriminate]. }
  destruct (bytes s) as [|b l]; [contradiction|].
  pose proof (digit_cases b (Forall_inv Hl)) as Hb.
  pose proof (span_digits_all _ Hl) as Hspan.
  assert (Hsign : match b :: l with
                  | 43 :: r => (false, r)
                  | 45 :: r => (true, r)
                  | _ => (false, b :: l)
                  end = (false, b :: l)).
  { repeat (destruct Hb as [-> | Hb]; [reflexivity|]). subst. reflexivity. }
  rewrite Hsign.
  assert (Hradix : match b :: l with
                   | 48 :: p :: r => if (p =? 120) || (p =? 88) then (16, r) else (10, b :: l)
                   | _ => (10, b :: l)
                   end = (10, b :: l)).
  { destruct l as [|p rest].
    - repeat (destruct Hb as [-> | Hb]; [reflexivity|]). subst. reflexivity.
    - apply Forall_inv_tail, Forall_inv in Hl.
      repeat (destruct Hb as [-> | Hb]; [|try (subst; reflexivity)]);
        try reflexivity.
      destruct (Z.eqb_spec p 120); [lia|]. destruct (Z.eqb_spec p 88); [lia|].
      reflexivity. }
  rewrite Hradix, Hspan. reflexivity.
Qed.

Lemma gt_const_integer (m : N) (t : Z) :
  0 < t < 2 ^ 53 →
  gt_const (Fin (Decimal false m 0)) t = (t <? Z.of_N m).
Proof.
  intros Ht. unfold gt_const.
  destruct (Z.eqb_spec t 0); [lia|].
  assert (Hlog : Z.log2 t < 53) by (apply Z.log2_lt_pow2; lia).
  assert (Hk : 2 ^ 1 <= 2 ^ (53 - Z.log2 t)) by (apply Z.pow_le_mono_r; lia).
  change (2 ^ 1) with 2 in Hk.
  change (Z.max 0 0) with 0. change (Z.max (- 0) 0) with 0.
  change (10 ^ 0) with 1. rewrite !Z.mul_1_r.
  set (k := 2 ^ (53 - Z.log2 t)) in *.
  destruct (Z.ltb_spec t (Z.of_N m)) as [Hlt | Hge].
  - destruct (Z.ltb_spec (t * k + 1) (Z.of_N m * k)); [reflexivity | nia].
  - destruct (Z.ltb_spec (t * k + 1) (Z.of_N m * k)); [nia|].
    destruct (Z.eqb_spec (t * k + 1) (Z.of_N m * k)); [nia | reflexivity].
Qed.

Lemma digit_string_known s : digit_string s → differs (Val (JStr s)) "unknown" = true.
Proof.
  intros [_ Hl]. simpl. destruct (String.eqb_spec s "unknown") as [-> | _]; [|reflexivity].
  apply Forall_inv in Hl. vm_compute in Hl. destruct Hl as [_ Hl]. contradiction Hl.
  reflexivity.
Qed.

(** X23. On a planet whose population and diameter are strings of decimal
    digits, the tests of the two copies agree: the planet is selected
    exactly when the population is above 1000000000 and the diameter
    above 10000. *)
Theorem copies_agree_on_digit_fields (c : copy) (fields : list (string * json))
    (population diameter : string) :
  own "population" fields = Some (JStr population) →
  own "diameter" fields = Some (JStr diameter) →
  digit_string population → digit_string diameter →
  planet_test c (JObj fields)
  = Some ((PLANET_POPULATION_THRESHOLD <? digits_number population)
          && (PLANET_DIAMETER_THRESHOLD <? digits_number diameter)).
Proof.
  intros Hpop Hdia Hp Hd.
  pose proof (digit_string_known _ Hp) as Hkp.
  pose proof (digit_string_known _ Hd) as Hkd.
  pose proof (digits_value_number _ (proj2 Hp)) as Hvp.
  pose proof (digits_value_number _ (proj2 Hd)) as Hvd.
  fold (digits_number population) in Hvp. fold (digits_number diameter) in Hvd.
  destruct c; unfold planet_test.
  - unfold First.isBigPopulatedPlanet, First.hasLargePopulation, First.hasLargeDiameter,
      First.knownNumber, get, Number, ToNumber.
    rewrite Hpop, Hdia. cbn [mbind option_bind]. rewrite Hkp, Hkd.
    rewrite !StringToNumber_digits by assumption. cbn [mbind option_bind isNaN negb].
    rewrite !gt_const_integer, Hvp, Hvd by (vm_compute; split; reflexivity).
    destruct (PLANET_POPULATION_THRESHOLD <? digits_number population); reflexivity.
  - unfold Second.large_populated, get, parseInt, ToString, to_string.
    rewrite Hpop, Hdia. cbn [mbind option_bind fmap option_fmap option_map].
    rewrite Hkp, Hkd.
    rewrite !parseInt_digits by assumption.
    rewrite !gt_const_integer, Hvp, Hvd by (vm_compute; split; reflexivity).
    destruct (PLANET_POPULATION_THRESHOLD <? digits_number population); reflexivity.
Qed.

Lemma copies_agree_on_digit_fields_witness :
  let fields := [Sample.str "name" "Coruscant"; Sample.str "population" "1000000000000";
                 Sample.str "diameter" "12240"] in
  own "population" fields = Some (JStr "1000000000000")
  ∧ own "diameter" fields = Some (JStr "12240")
  ∧ digit_string "1000000000000" ∧ digit_string "12240"
  ∧ planet_test second (JObj fields)
    = Some ((PLANET_POPULATION_THRESHOLD <? digits_number "1000000000000")
            && (PLANET_DIAMETER_THRESHOLD <? digits_number "12240")).
Proof.
  intros fields.
  assert (H1 : own "population" fields = Some (JStr "1000000000000")) by reflexivity.
  assert (H2 : own "diameter" fields = Some (JStr "12240")) by reflexivity.
  assert (H3 : digit_string "1000000000000")
    by (split; [discriminate | repeat constructor; vm_compute; discriminate]).
  assert (H4 : digit_string "12240")
    by (split; [discriminate | repeat constructor; vm_compute; discriminate]).
  split; [exact H1|]. split; [exact H2|]. split; [exact H3|]. split; [exact H4|].
  exact (copies_agree_on_digit_fields second fields _ _ H1 H2 H3 H4).
Defined.

(** ** Instances of the properties of a fetch and of the first filter *)

Lemma first_copy_excludes_unknown_and_non_numeric_witness :
  let v := Val (JStr "2000000000 (est.)") in
  (get (Val Sample.estimated) "population" = Some v
   ∨ get (Val Sample.estimated) "diameter" = Some v)
  ∧ (v = Val (JStr "unknown") ∨ Number v = Some NaN)
  ∧ ¬ In Sample.estimated (displayed (First.displayLargePlanets Sample.planets_estimated)).
Proof.
  intros v.
  assert (H1 : get (Val Sample.estimated) "population" = Some v
               ∨ get (Val Sample.estimated) "diameter" = Some v)
    by (left; reflexivity).
  assert (H2 : v = Val (JStr "unknown") ∨ Number v = Some NaN)
    by (right; vm_compute; reflexivity).
  split; [exact H1|]. split; [exact H2|].
  exact (first_copy_excludes_unknown_and_non_numeric Sample.planets_estimated
           Sample.estimated v H1 H2).
Defined.

(** * The process: runs that interleave *)

(** ** A run alone

    A run of the process with every request answered at once is the
    computation of type [M] of the same function. *)








Lemma task_bind_gets {A B} (f : state → A) (k : A → Task.T B) st :
  Task.bind (Task.gets f) k st = k (f st) st.
Proof. reflexivity. Qed.





(** ** The stretches of a run *)

Lemma safe_weaken {A} c (Q Q' : A → state → state → Prop)
    (E E' : error → state → state → Prop) s0 (t : Task.task A) :
  (∀ a s0 st, Q a s0 st → Q' a s0 st) → (∀ e s0 st, E e s0 st → E' e s0 st) →
  safe c Q E s0 t → safe c Q' E' s0 t.
Proof. intros HQ HE Ht. induction Ht; constructor; auto. Qed.

Lemma safe_chain {A B} c (Q : A → state → state → Prop) (Q' : B → state → state → Prop)
    (E : error → state → state → Prop) s0 (t : Task.task A) (k : A → Task.T B) :
  safe c Q E s0 t →
  (∀ a s0 st, Q a s0 st → safe c Q' E s0 (k a st)) →
  safe c Q' E s0 (Task.chain t k).
Proof.
  intros Ht Hk. induction Ht; simpl; [apply Hk; assumption | constructor; assumption|].
  constructor; auto.
Qed.

Lemma safe_rescue c (Q : unit → state → state → Prop)
    (E E' : error → state → state → Prop) s0 (t : Task.task unit)
    (handler : error → Task.T unit) :
  safe c Q E s0 t →
  (∀ e s0 st, E e s0 st → safe c Q E' s0 (handler e st)) →
  safe c Q E' s0 (Task.rescue t handler).
Proof.
  intros Ht Hh. induction Ht; simpl; [constructor; assumption | apply Hh; assumption|].
  constructor; auto.
Qed.

Lemma moves_then c s0 st st' : moves c s0 st → move c st st' → moves c s0 st'.
Proof. intros Hm Hs. eapply rtc_r; eassumption. Qed.

Lemma launch_target c e st : target (fst (launch c e st)) = e.
Proof. destruct c; simpl; unfold First.launch, Second.launch; case_match; reflexivity. Qed.

Lemma launch_id c e st : lastCharacterId (snd (launch c e st)) = lastCharacterId st.
Proof. destruct c; simpl; unfold First.launch, Second.launch; case_match; reflexivity. Qed.

Lemma read_miss (m : gmap string json) e st :
  cache st = m →
  match cache_read m e with
  | Some v => truthy_cached v = false
  | None => True
  end → missing st e.
Proof.
  intros <- Hread v Hv. unfold cache_read in Hread. rewrite Hv in Hread. exact Hread.
Qed.

Lemma read_fetched e st v :
  cache_read (cache st) e = Some v → fetched e (v, true) st.
Proof.
  unfold cache_read, fetched. destruct (cache st !! e) as [j|] eqn:Hj.
  - intros [= <-] _. reflexivity.
  - case_bool_decide; [|discriminate]. intros [= <-]. exact Logic.I.
Qed.

Lemma safe_fetchFromApi c e s0 st :
  moves c s0 st → e ∈ planned_calls c (lastCharacterId st) →
  safe c (fun r s0 st' => moves c s0 st' ∧ fetched e r st') (fun _ => moves c) s0
    (Async.fetchFromApi c e st).
Proof.
  intros Hm He.
  assert (Hcall : moves c s0 (log_call e st)) by (eapply moves_then; [eassumption | constructor]).
  assert (Hrequest : missing (log_call e st) e →
            safe c (fun r s0 st' => moves c s0 st' ∧ fetched e r st') (fun _ => moves c) s0
              (let '(f, st1) := launch c e (log_call e st) in
               if awaited f then Task.await f st1 else Task.Raised RangeError st1)).
  { intros Hmiss. pose proof (launch_target c e (log_call e st)) as Htarget.
    assert (Hlaunch : move c (log_call e st) (snd (launch c e (log_call e st))))
      by (constructor; assumption).
    destruct (launch c e (log_call e st)) as [f st1] eqn:Hf. simpl in Htarget, Hlaunch.
    destruct (awaited f) eqn:Hawaited.
    - constructor.
      + exists e, (log_call e st). auto.
      + intros [[v shared] | err] st' Hres; constructor.
        * split; [apply rtc_refl|]. destruct (Hres v shared eq_refl) as (w & -> & Hw).
          unfold fetched. simpl. rewrite <- Htarget. exact Hw.
        * apply rtc_refl.
    - constructor. eapply moves_then; eassumption. }
  assert (Hfetch : Async.fetchFromApi c e st
                   = match cache_read (cache (log_call e st)) e with
                     | Some v =>
                         if truthy_cached v then Task.Returned (v, true) (log_call e st)
                         else let '(f, st1) := launch c e (log_call e st) in
                              if awaited f then Task.await f st1 else Task.Raised RangeError st1
                     | None =>
                         let '(f, st1) := launch c e (log_call e st) in
                         if awaited f then Task.await f st1 else Task.Raised RangeError st1
                     end) by (destruct c; reflexivity).
  rewrite Hfetch.
  destruct (cache_read (cache (log_call e st)) e) as [v|] eqn:Hread.
  - destruct (truthy_cached v) eqn:Hv.
    + apply safe_returned. split; [exact Hcall | apply read_fetched, Hread].
    + apply Hrequest, (read_miss (cache (log_call e st))); [reflexivity|].
      rewrite Hread. exact Hv.
  - apply Hrequest, (read_miss (cache (log_call e st))); [reflexivity|].
    rewrite Hread. exact Logic.I.
Qed.

Lemma safe_present c e h s0 st :
  moves c s0 st → e ∈ planned_calls c (lastCharacterId st) → tidy e h →
  safe c (fun _ => moves c) (fun _ => moves c) s0
    (Task.present (Async.fetchFromApi c) e h st).
Proof.
  intros Hm He [Htruthy Hvalue]. unfold Task.present, Task.bind.
  eapply safe_chain; [apply safe_fetchFromApi; assumption|].
  intros [v shared] s1 st1 [Hm1 Hf]. cbn [fst snd].
  unfold Task.of_option. destruct (stringify_length v) as [size|] eqn:Hsize;
    [|constructor; exact Hm1].
  cbn [Task.chain Task.modify]. unfold Task.call_handler.
  assert (Hm2 : moves c s1 (set_totalDataSize (fun total => JS.add total size) st1)).
  { eapply moves_then; [exact Hm1|]. constructor.
    apply (stringify_length_nonneg v), Hsize. }
  assert (Hm3 : moves c s1
            match v with
            | Data _ =>
                if shared
                then set_cache (insert e (after (h (payload v))))
                       (set_totalDataSize (fun total => JS.add total size) st1)
                else set_totalDataSize (fun total => JS.add total size) st1
            | Inherited _ => set_totalDataSize (fun total => JS.add total size) st1
            end).
  { destruct v as [w|name]; [|exact Hm2]. destruct shared; [|exact Hm2].
    eapply moves_then; [exact Hm2|]. apply (move_handler c e w).
    - apply Hf. reflexivity.
    - intros Hne. apply Hvalue, Hne.
    - apply Htruthy. }
  destruct (threw (h (payload v))); constructor; exact Hm3.
Qed.

Lemma safe_for_of c (tasks : list (string * handler)) s0 st :
  moves c s0 st →
  Forall (fun task => (∀ id, fst task ∈ planned_calls c id) ∧ tidy (fst task) (snd task))
    tasks →
  safe c (fun _ => moves c) (fun _ => moves c) s0
    (Task.for_of tasks
       (fun task => Task.present (Async.fetchFromApi c) (fst task) (snd task)) st).
Proof.
  intros Hm Htasks. revert s0 st Hm.
  induction Htasks as [|[e h] rest [He Hh] _ IH]; intros s0 st Hm.
  - constructor. exact Hm.
  - cbn [Task.for_of]. unfold Task.bind. eapply safe_chain.
    + apply safe_present; [exact Hm | apply He | exact Hh].
    + intros [] s1 st1 Hm1. apply (IH s1 st1 Hm1).
Qed.

Lemma safe_vehicle_step c (limit : Z) s0 st :
  limit = maxlastCharacterId → moves c s0 st →
  safe c (fun _ => moves c) (fun _ => moves c) s0
    ((let* id := Task.gets lastCharacterId in
      if id <=? limit
      then Task.present (Async.fetchFromApi c) (with_id "vehicles/" id) displayVehicle ;;;
           Task.modify (set_lastCharacterId incr)
      else Task.ret tt)%task st).
Proof.
  intros -> Hm. rewrite task_bind_gets.
  destruct (lastCharacterId st <=? maxlastCharacterId) eqn:Hid; [|constructor; exact Hm].
  unfold Task.bind. eapply safe_chain.
  - apply safe_present; [exact Hm | | ].
    + unfold planned_calls. rewrite Hid. apply elem_of_app. right. apply list_elem_of_singleton.
      reflexivity.
    + split; [intros x Hx; exact Hx | intros _ x; reflexivity].
  - intros [] s1 st1 Hm1. constructor. eapply moves_then; [exact Hm1 | constructor].
Qed.

Lemma keeps_value_tidy e h : keeps_value h → tidy e h.
Proof.
  intros Hh. split; [|intros _; exact Hh]. intros x Hx. rewrite Hh. exact Hx.
Qed.

Lemma table_is_planned c sort id0 :
  Forall (fun task => (∀ id, fst task ∈ planned_calls c id) ∧ tidy (fst task) (snd task))
    (tail (task_table c sort id0)).
Proof.
  assert (Hin : ∀ e id, e ∈ ["starships/?page=1"; "planets/?page=1"; "films/"] →
                        e ∈ planned_calls c id).
  { intros e id He. unfold planned_calls, task_endpoints. apply elem_of_app. left.
    apply list_elem_of_further, He. }
  simpl. repeat apply Forall_cons_2; [| | |apply Forall_nil_2]; simpl.
  - split; [intros id; apply Hin; set_solver|].
    apply keeps_value_tidy. intros x. reflexivity.
  - split; [intros id; apply Hin; set_solver|].
    apply keeps_value_tidy. intros x. destruct c; reflexivity.
  - split; [intros id; apply Hin; set_solver|].
    split; [apply film_handler_keeps_truthy | intros Hne; contradiction].
Qed.

Lemma safe_steps c sort s0 st :
  moves c s0 st →
  safe c (fun _ => moves c) (fun _ => moves c) s0 (Async.steps c sort st).
Proof.
  intros Hm.
  assert (Hpeople : ∀ id, people_endpoint c id ∈ planned_calls c id).
  { intros id. unfold planned_calls, task_endpoints. apply elem_of_app. left. constructor. }
  destruct c; unfold Async.steps.
  - unfold First.Async.steps, Task.bind at 1.
    change First.Async.fetchFromApi with (Async.fetchFromApi first).
    eapply safe_chain.
    + apply safe_for_of; [exact Hm|]. constructor.
      * split; [intros id; apply (Hpeople id)|]. apply keeps_value_tidy. intros x. reflexivity.
      * apply (table_is_planned first sort 1).
    + intros [] s1 st1 Hm1. apply safe_vehicle_step; [reflexivity | exact Hm1].
  - unfold Second.Async.steps.
    change Second.Async.fetchFromApi with (Async.fetchFromApi second).
    rewrite task_bind_gets. unfold Task.bind at 1. eapply safe_chain.
    { apply safe_present; [exact Hm | apply (Hpeople (lastCharacterId st))|].
      apply keeps_value_tidy. intros x. reflexivity. }
    intros [] s1 st1 Hm1.
    pose proof (table_is_planned second sort 1) as Htable.
    apply Forall_cons in Htable as [[H1 T1] Htable].
    apply Forall_cons in Htable as [[H2 T2] Htable].
    apply Forall_cons in Htable as [[H3 T3] _]. simpl in *.
    unfold Task.bind at 1. eapply safe_chain; [apply safe_present; [exact Hm1 | apply H1 | exact T1]|].
    intros [] s2 st2 Hm2.
    unfold Task.bind at 1. eapply safe_chain; [apply safe_present; [exact Hm2 | apply H2 | exact T2]|].
    intros [] s3 st3 Hm3.
    unfold Task.bind at 1. eapply safe_chain; [apply safe_present; [exact Hm3 | apply H3 | exact T3]|].
    intros [] s4 st4 Hm4.
    apply safe_vehicle_step; [reflexivity | exact Hm4].
Qed.

(** An invocation, as it runs in the process. *)
Lemma run_is_safe c sort st :
  invocation c (set_fetchCount incr st) (Async.fetchStarWarsData c sort st).
Proof.
  assert (Hrun : Async.fetchStarWarsData c sort st
                 = Task.rescue (Async.steps c sort (set_fetchCount incr st)) Task.handleError)
    by (destruct c; reflexivity).
  rewrite Hrun. unfold invocation.
  eapply safe_rescue with (E := fun _ => moves c).
  - eapply safe_weaken; [| |apply safe_steps, rtc_refl].
    + intros [] s0 st1 Hm. exists st1. auto.
    + auto.
  - intros e s0 st1 Hm. constructor. exists st1. auto.
Qed.

(** ** Invariants of the process

    A property of the state that every stretch of a run, every answer
    of the network and the two counters keep is kept by the process,
    whatever the order of the events. *)

Lemma later_refl st : later st st.
Proof. split; reflexivity. Qed.

Lemma later_same st st' :
  requests st' = requests st → timeout st' = timeout st → later st st'.
Proof. intros Hr Ht. split; [rewrite Hr; reflexivity | exact Ht]. Qed.

Lemma later_trans a b d : later a b → later b d → later a d.
Proof. intros [H1 H2] [H3 H4]. split; [etrans; eassumption | congruence]. Qed.

Lemma launch_requests c e st : requests (snd (launch c e st)) = requests st ++ [e].
Proof. destruct c; simpl; unfold First.launch, Second.launch; case_match; reflexivity. Qed.

Lemma launch_timeout c e st : timeout (snd (launch c e st)) = timeout st.
Proof. destruct c; simpl; unfold First.launch, Second.launch; case_match; reflexivity. Qed.

Lemma launch_orphans c e st :
  orphans (snd (launch c e st))
  = if awaited (fst (launch c e st)) then orphans st
    else fst (launch c e st) :: orphans st.
Proof. destruct c; simpl; unfold First.launch, Second.launch; case_match; reflexivity. Qed.

Lemma move_later c st st' : move c st st' → later st st'.
Proof.
  intros [e s | e s _ _ | n s _ | e v w s _ _ _ | s]; try (apply later_same; reflexivity).
  split; [|apply launch_timeout]. rewrite launch_requests. apply prefix_app_r. reflexivity.
Qed.

Lemma moves_later c st st' : moves c st st' → later st st'.
Proof.
  induction 1 as [|a b d Hab _ IH]; [apply later_refl|].
  eapply later_trans; [eapply move_later|]; eassumption.
Qed.

Lemma move_orphans c st st' f :
  move c st st' → f ∈ orphans st' →
  f ∈ orphans st ∨
  ∃ e, missing st e ∧ e ∈ planned_calls c (lastCharacterId st) ∧ launch c e st = (f, st').
Proof.
  intros [e s | e s Hmiss He | n s _ | e v w s _ _ _ | s] Hf; try (left; exact Hf).
  rewrite launch_orphans in Hf. destruct (awaited (fst (launch c e s))); [left; exact Hf|].
  apply elem_of_cons in Hf as [-> | Hf]; [|left; exact Hf].
  right. exists e. split; [exact Hmiss | split; [exact He|]]. apply surjective_pairing.
Qed.

Lemma answer_frame c net f st :
  state_of (answer c net f st) = st
  ∨ ∃ w, state_of (answer c net f st) = set_cache (insert (target f) w) st.
Proof.
  destruct c; simpl; unfold First.answer, Second.answer;
    repeat case_match; simpl; eauto.
Qed.

Lemma answer_later c net f st : later st (state_of (answer c net f st)).
Proof.
  destruct (answer_frame c net f st) as [-> | [w ->]]; apply later_same; reflexivity.
Qed.

Lemma answer_orphans c net f st : orphans (state_of (answer c net f st)) = orphans st.
Proof.
  destruct (answer_frame c net f st) as [-> | [w ->]]; reflexivity.
Qed.

Lemma answer_resumed c net f st v st' :
  answer c net f st = Ok v st' → resumed f (Task.Fulfilled v) st'.
Proof.
  intros Hans w shared [= ->]. revert Hans.
  destruct c; simpl; unfold First.answer, Second.answer;
    repeat case_match; intros [= <- <- <-]; eexists; (split; [reflexivity|]);
    intros; try discriminate; simpl; apply lookup_insert_eq.
Qed.

Lemma rejection_resumed f e st : resumed f (Task.RejectedWith e) st.
Proof. intros v shared Hv. discriminate Hv. Qed.

Lemma pick_Some {K} n (l : list (flight * K)) f k rest :
  pick n l = Some (f, k, rest) →
  serial f = n ∧ (f, k) ∈ l ∧ length l = S (length rest) ∧ ∀ x, x ∈ rest → x ∈ l.
Proof.
  revert f k rest. induction l as [|[g j] l IH]; intros f k rest; simpl; [discriminate|].
  destruct (Nat.eqb_spec (serial g) n) as [Hn | Hn].
  - intros [= -> -> ->]. repeat split; [exact Hn | left | intros x Hx; right; exact Hx].
  - destruct (pick n l) as [[[f' k'] rest']|]; [|discriminate].
    intros [= -> -> <-]. destruct (IH f k rest' eq_refl) as (Hf & Hin & Hlen & Hrest).
    repeat split; [exact Hf | right; exact Hin | simpl; congruence|].
    intros x Hx. apply elem_of_cons in Hx as [-> | Hx]; [left | right; apply Hrest, Hx].
Qed.

Lemma orphan_Some n st f : orphan n st = Some f → f ∈ orphans st ∧ serial f = n.
Proof.
  unfold orphan. intros Hf. apply find_some in Hf as [Hin Hn].
  split; [apply list_elem_of_In, Hin | apply Nat.eqb_eq, Hn].
Qed.

Lemma without_subset n l f : f ∈ without n l → f ∈ l.
Proof.
  induction l as [|g l IH]; simpl; [auto|].
  destruct (serial g =? n)%nat; [intros Hf; right; exact Hf|].
  intros Hf. apply elem_of_cons in Hf as [-> | Hf]; [left | right; apply IH, Hf].
Qed.

Lemma in_flight_elem f p :
  f ∈ in_flight p ↔ (∃ k, (f, k) ∈ suspended p) ∨ f ∈ orphans (memory p).
Proof.
  unfold in_flight. rewrite elem_of_app. apply or_iff_compat_r.
  rewrite list_elem_of_In, in_map_iff. split.
  - intros [[g k] [<- Hin]]. exists k. apply list_elem_of_In, Hin.
  - intros [k Hin]. exists (f, k). split; [reflexivity | apply list_elem_of_In, Hin].
Qed.

Lemma server_routes c sort url p :
  server c sort url p
  = if bool_decide (url = "/" ∨ url = "/index.html") then (HomePage, p)
    else if bool_decide (url = "/api")
    then (Acknowledged, proceed (Async.fetchStarWarsData c sort (memory p)) p)
    else if bool_decide (url = "/stats") then (StatsBody (statsStringfied (memory p)), p)
    else (NotFound, p).
Proof. destruct c; reflexivity. Qed.

Section Lifetime.

Variables (c : copy) (net : network) (sort : list json → list json).
Variable I : nat → state → Prop.
Variable Fl : flight → state → Prop.

Hypothesis I_move : ∀ n st st', I n st → move c st st' → I n st'.
Hypothesis I_begin : ∀ n st, I n st → I (S n) (set_fetchCount incr st).
Hypothesis I_end : ∀ n st, I (S n) st → I n st.
Hypothesis I_error : ∀ n st, I (S n) st → I n (set_errorCount incr st).
Hypothesis I_answer : ∀ n f st, I n st → Fl f st → I n (state_of (answer c net f st)).
Hypothesis I_land : ∀ n f st, I n st → I n (land f st).
Hypothesis Fl_launch : ∀ n e st,
  I n st → missing st e → e ∈ planned_calls c (lastCharacterId st) →
  Fl (fst (launch c e st)) (snd (launch c e st)).
Hypothesis Fl_later : ∀ f st st', Fl f st → later st st' → Fl f st'.

Lemma sound_moves n s0 st : sound I Fl n s0 → moves c s0 st → sound I Fl n st.
Proof.
  intros Hs Hm. induction Hm as [|a b d Hab _ IH]; [exact Hs|]. apply IH.
  destruct Hs as [HI Ho]. split; [eapply I_move; eassumption|].
  intros f Hf. destruct (move_orphans c a b f Hab Hf) as [Hin | (e & Hmiss & He & Hl)].
  - eapply Fl_later; [apply Ho, Hin | eapply move_later, Hab].
  - pose proof (Fl_launch n e a HI Hmiss He) as HFl. rewrite Hl in HFl. exact HFl.
Qed.

Lemma steady_intro st susp (e0 : option error) :
  sound I Fl (length susp) st →
  (∀ f k, (f, k) ∈ susp →
     Fl f st ∧ awaited f = true ∧ ∀ s st', resumed f s st' → invocation c st' (k s st')) →
  steady c I Fl (Process st susp e0).
Proof.
  intros [HI Ho] Hsusp. split; [exact HI | split].
  - intros f k Hin. destruct (Hsusp f k Hin) as (_ & Ha & Hk). auto.
  - intros f Hf. apply in_flight_elem in Hf as [[k Hin] | Hin]; [|apply Ho, Hin].
    apply (Hsusp f k Hin).
Qed.

Lemma steady_elim p :
  steady c I Fl p →
  sound I Fl (length (suspended p)) (memory p) ∧
  ∀ f k, (f, k) ∈ suspended p →
    Fl f (memory p) ∧ awaited f = true ∧
    ∀ s st', resumed f s st' → invocation c st' (k s st').
Proof.
  intros (HI & Hc & HFl). split; [split; [exact HI|]|].
  - intros f Hf. apply HFl, in_flight_elem. right. exact Hf.
  - intros f k Hin. destruct (Hc f k Hin) as [Ha Hk].
    split; [|auto]. apply HFl, in_flight_elem. left. exists k. exact Hin.
Qed.

(** A run goes on from [s0] as far as it can. *)
Lemma stretch s0 t m susp (e0 : option error) :
  sound I Fl (S (length susp)) s0 → invocation c s0 t →
  (∀ f k, (f, k) ∈ susp →
     Fl f s0 ∧ awaited f = true ∧ ∀ s st', resumed f s st' → invocation c st' (k s st')) →
  steady c I Fl (proceed t (Process m susp e0)).
Proof.
  intros Hs Ht Hsusp. inversion Ht as [? a st Hend | ? e st [] | ? f st k Hl Hk]; subst; simpl.
  - destruct Hend as (st1 & Hm & Hst).
    destruct (sound_moves _ _ _ Hs Hm) as [HI Ho].
    pose proof (moves_later c _ _ Hm) as Hlater.
    destruct Hst as [-> | ->]; apply steady_intro.
    + split; [apply I_end, HI | exact Ho].
    + intros f k Hin. destruct (Hsusp f k Hin) as (HFl & Ha & Hk).
      split; [eapply Fl_later; eassumption | auto].
    + split; [apply I_error, HI|]. intros f Hf. eapply Fl_later; [apply Ho, Hf | apply later_same; reflexivity].
    + intros f k Hin. destruct (Hsusp f k Hin) as (HFl & Ha & Hk).
      split; [|auto]. eapply Fl_later; [eassumption|].
      eapply later_trans; [exact Hlater | apply later_same; reflexivity].
  - destruct Hl as (e & st1 & Hm & Hmiss & He & Hlaunch & Ha).
    assert (Hstep : move c st1 st).
    { replace st with (snd (launch c e st1)) by (rewrite Hlaunch; reflexivity).
      constructor; assumption. }
    pose proof (sound_moves _ _ _ Hs Hm) as Hs1.
    assert (HFl : Fl f st).
    { pose proof (Fl_launch _ e st1 (proj1 Hs1) Hmiss He) as HFl.
      rewrite Hlaunch in HFl. exact HFl. }
    pose proof (moves_then c _ _ _ Hm Hstep) as Hm'.
    apply steady_intro; [apply (sound_moves _ _ _ Hs Hm')|].
    intros g j Hin. apply elem_of_cons in Hin as [[= -> ->] | Hin]; [auto|].
    destruct (Hsusp g j Hin) as (HFlg & Hag & Hj).
    split; [|auto]. eapply Fl_later; [eassumption | apply (moves_later c), Hm'].
Qed.

Lemma steady_handle ev p : steady c I Fl p → steady c I Fl (handle c net sort ev p).
Proof.
  intros Hp. unfold handle. destruct (ended p) as [e0|] eqn:Hended; [exact Hp|].
  destruct (steady_elim p Hp) as [Hs Hsusp].
  destruct p as [m susp e1]. simpl in *. destruct ev as [url | n].
  - rewrite server_routes. repeat case_bool_decide; try exact Hp. simpl.
    apply stretch with (s0 := set_fetchCount incr m).
    + destruct Hs as [HI Ho]. split; [apply I_begin, HI|].
      intros f Hf. eapply Fl_later; [apply Ho, Hf | apply later_same; reflexivity].
    + apply run_is_safe.
    + intros f k Hin. destruct (Hsusp f k Hin) as (HFl & Ha & Hk).
      split; [|auto]. eapply Fl_later; [eassumption | apply later_same; reflexivity].
  - unfold arrival. simpl. destruct (pick n susp) as [[[f k] rest]|] eqn:Hpick.
    + destruct (pick_Some n susp f k rest Hpick) as (_ & Hin & Hlen & Hrest).
      destruct (Hsusp f k Hin) as (HFl & _ & Hk). rewrite Hlen in Hs.
      pose proof (I_answer _ f m (proj1 Hs) HFl) as HI.
      pose proof (answer_later c net f m) as Hlater.
      pose proof (answer_orphans c net f m) as Horph.
      assert (Hs' : sound I Fl (S (length rest)) (state_of (answer c net f m))).
      { split; [exact HI|]. intros g Hg. rewrite Horph in Hg.
        eapply Fl_later; [apply (proj2 Hs), Hg | exact Hlater]. }
      assert (Hrest' : ∀ g j, (g, j) ∈ rest →
                Fl g (state_of (answer c net f m)) ∧ awaited g = true ∧
                ∀ s st', resumed g s st' → invocation c st' (j s st')).
      { intros g j Hg. destruct (Hsusp g j (Hrest _ Hg)) as (HFlg & Hag & Hj).
        split; [|auto]. eapply Fl_later; eassumption. }
      destruct (answer c net f m) as [v st | e st | e st | st] eqn:Hans; simpl in *.
      * apply stretch with (s0 := st); [exact Hs' | | exact Hrest'].
        apply Hk, (answer_resumed c net f m), Hans.
      * apply stretch with (s0 := st); [exact Hs' | | exact Hrest'].
        apply Hk, rejection_resumed.
      * apply steady_intro; [|exact Hrest'].
        split; [apply I_end, Hs' | apply Hs'].
      * exact Hp.
    + destruct (orphan n m) as [f|] eqn:Horphan; [|exact Hp].
      destruct (orphan_Some n m f Horphan) as [Hf _].
      assert (Hlater : later m (state_of (answer c net f (land f m)))).
      { eapply later_trans; [|apply answer_later]. apply later_same; reflexivity. }
      assert (HI : I (length susp) (state_of (answer c net f (land f m)))).
      { apply I_answer; [apply I_land, Hs|].
        eapply Fl_later; [apply (proj2 Hs), Hf | apply later_same; reflexivity]. }
      assert (Hs' : sound I Fl (length susp) (state_of (answer c net f (land f m)))).
      { split; [exact HI|]. intros g Hg. rewrite answer_orphans in Hg.
        apply without_subset in Hg. eapply Fl_later; [apply (proj2 Hs), Hg | exact Hlater]. }
      assert (Hsusp' : ∀ g j, (g, j) ∈ susp →
                Fl g (state_of (answer c net f (land f m))) ∧ awaited g = true ∧
                ∀ s st', resumed g s st' → invocation c st' (j s st')).
      { intros g j Hg. destruct (Hsusp g j Hg) as (HFlg & Hag & Hj).
        split; [|auto]. eapply Fl_later; eassumption. }
      destruct (answer c net f (land f m)) as [v st | e st | e st | st]; simpl in *;
        try exact Hp; apply steady_intro; assumption.
Qed.

Lemma steady_serve events p :
  steady c I Fl p → steady c I Fl (serve c net sort events p).
Proof.
  revert p. induction events as [|ev events IH]; intros p Hp; [exact Hp|].
  apply IH, steady_handle, Hp.
Qed.

Lemma steady_boot args : I 0%nat (memory (boot args)) → steady c I Fl (boot args).
Proof.
  intros HI. apply steady_intro.
  - split; [exact HI|]. intros f Hf.
    destruct (command_line_frame args init) as (_ & _ & _ & _ & _ & _ & _ & Ho).
    simpl in Hf. rewrite Ho in Hf. inversion Hf.
  - intros f k Hin. inversion Hin.
Qed.

End Lifetime.

(** ** Lifetimes *)

(** In a process that has handled any events since its start, every
    suspended run is the rest of an invocation. *)
Lemma reachable_on_course c net sort args events :
  on_course c (serve c net sort events (boot args)).
Proof.
  assert (H : steady c (fun _ _ => True) (fun _ _ => True)
                (serve c net sort events (boot args))).
  { apply steady_serve; auto. apply steady_boot. exact Logic.I. }
  apply H.
Qed.

Lemma launch_cache c e st : cache (snd (launch c e st)) = cache st.
Proof. destruct c; simpl; unfold First.launch, Second.launch; case_match; reflexivity. Qed.

Lemma launch_counters c e st :
  errorCount (snd (launch c e st)) = errorCount st
  ∧ fetchCount (snd (launch c e st)) = fetchCount st
  ∧ totalDataSize (snd (launch c e st)) = totalDataSize st.
Proof.
  destruct c; simpl; unfold First.launch, Second.launch; case_match; repeat split.
Qed.

(** ** The statistics over a lifetime *)

Lemma move_grows c st st' : move c st st' → grows st st'.
Proof.
  intros [e s | e s _ _ | n s Hn | e v w s Hv _ _ | s] [We Wf Wt].
  - split; [constructor; assumption|]. unfold stats_le; simpl. lia.
  - destruct (launch_counters c e s) as (He & Hf & Ht).
    pose proof (launch_cache c e s) as Hc. split.
    + constructor; [rewrite He | rewrite Hf | rewrite Ht]; assumption.
    + unfold stats_le, statsStringfied; simpl. rewrite He, Hf, Ht, Hc. lia.
  - split.
    + constructor; simpl; try assumption. apply add_double; assumption.
    + unfold stats_le; simpl. repeat split; try lia. apply add_ge; assumption.
  - split; [constructor; assumption|]. unfold stats_le; simpl.
    pose proof (size_insert_ge (cache s) e w). lia.
  - apply lastCharacterId_grows. constructor; assumption.
Qed.

Lemma answer_grows c net f st : grows st (state_of (answer c net f st)).
Proof.
  intros [We Wf Wt]. destruct (answer_frame c net f st) as [-> | [w ->]].
  - split; [constructor; assumption|]. unfold stats_le. lia.
  - split; [constructor; assumption|]. unfold stats_le; simpl.
    pose proof (size_insert_ge (cache st) (target f) w). lia.
Qed.

Lemma lifetime_grows c net sort events p :
  well_formed (memory p) → on_course c p →
  well_formed (memory (serve c net sort events p))
  ∧ stats_le (statsStringfied (memory p))
             (statsStringfied (memory (serve c net sort events p))).
Proof.
  intros Hwf Hc.
  assert (Hkeep : ∀ st st', grows st st' →
            well_formed st ∧ stats_le (statsStringfied (memory p)) (statsStringfied st) →
            well_formed st' ∧ stats_le (statsStringfied (memory p)) (statsStringfied st')).
  { intros st st' Hg [Hst (? & ? & ? & ?)]. destruct (Hg Hst) as [Hst' (? & ? & ? & ?)].
    split; [exact Hst'|]. repeat split; lia. }
  assert (H : steady c
                (fun _ st => well_formed st
                             ∧ stats_le (statsStringfied (memory p)) (statsStringfied st))
                (fun _ _ => True) (serve c net sort events p)).
  { apply steady_serve; auto.
    - intros n st st' HI Hm. exact (Hkeep st st' (move_grows c st st' Hm) HI).
    - intros n st HI. exact (Hkeep st _ (fetchCount_incr_grows st) HI).
    - intros n st HI. exact (Hkeep st _ (handleError_grows ParseError st) HI).
    - intros n f st HI _. exact (Hkeep st _ (answer_grows c net f st) HI).
    - intros n f st HI. apply (Hkeep st); [|exact HI].
      intros [We Wf Wt]. split; [constructor; assumption|]. unfold stats_le. simpl. lia.
    - split; [split; [exact Hwf | unfold stats_le; lia]|]. split; [exact Hc | auto]. }
  apply H.
Qed.

(** C4.  Within one process lifetime no operation decreases
    [api_calls], [cache_size], [data_size] or [errors]: not the
    processing of the command line, and no event the process handles
    afterwards, be it a request for a route or the answer of the network
    to a request in flight, in whatever order the events come and however
    the runs they start or resume overlap. *)
Theorem stats_never_decrease (c : copy) (net : network) (sort : list json → list json)
    (args : list string) (events more : list event) :
  let p := serve c net sort events (boot args) in
  stats_le (statsStringfied init) (statsStringfied (memory (boot args)))
  ∧ stats_le (statsStringfied (memory p))
             (statsStringfied (memory (serve c net sort more p))).
Proof.
  intros p.
  destruct (processCommandLineArgs_grows args init init_well_formed) as [Hboot Hle].
  split; [exact Hle|].
  destruct (lifetime_grows c net sort events (boot args) Hboot) as [Hwf _].
  { intros f k Hin. inversion Hin. }
  apply (lifetime_grows c net sort more p Hwf), reachable_on_course.
Qed.

(** ** The end of the process *)

(** C3 fails on the first copy.  The character endpoint answers 200 with
    a body that is not JSON: the invocation ends in the exception of
    [JSON.parse], thrown in a listener where the [catch] of the
    orchestrator never sees it.  In the process, the [/api] route has
    acknowledged the request by then; the answer of the network ends the
    process, the error counter still at 0. *)
Theorem malformed_body_crashes_first_copy :
  let st := log_request "people/1" (log_call "people/1" (set_fetchCount incr init)) in
  First.fetchStarWarsData Sample.garbled Sample.chronological init = Crashed ParseError st
  ∧ fst (server first Sample.chronological "/api" (boot [])) = Acknowledged
  ∧ let p := handle first Sample.garbled Sample.chronological (Incoming "/api") (boot []) in
    ended p = None
    ∧ map fst (suspended p) = [Flight 0 "people/1" true true true]
    ∧ handle first Sample.garbled Sample.chronological (Arrival 0) p
      = Process st [] (Some ParseError)
    ∧ errors (statsStringfied st) = 0.
Proof. vm_compute. repeat split; reflexivity. Qed.

Lemma api_is_no_page : ¬ ("/api" = "/" ∨ "/api" = "/index.html").
Proof. intros [H | H]; discriminate H. Qed.

Lemma proceed_ended c s0 t p : invocation c s0 t → ended (proceed t p) = ended p.
Proof. intros Ht. inversion Ht as [| ? ? ? [] |]; reflexivity. Qed.

Lemma incoming_ended c net sort url p :
  ended (handle c net sort (Incoming url) p) = ended p.
Proof.
  unfold handle. destruct (ended p) eqn:Hended; [exact Hended|].
  rewrite server_routes. repeat case_bool_decide; try exact Hended. simpl.
  rewrite (proceed_ended c (set_fetchCount incr (memory p))); [exact Hended|].
  apply run_is_safe.
Qed.

(** X4. Only the [/api] route changes anything: a process that is asked for
    any other paths, however many, is as it was, the state and the runs
    that are suspended. *)
Theorem only_api_changes_state (c : copy) (net : network)
    (sort : list json → list json) (urls : list string) (p : process) :
  Forall (fun url => url ≠ "/api") urls →
  serve c net sort (map Incoming urls) p = p.
Proof.
  intros Hurls. revert p. induction Hurls as [|url rest Hurl _ IH]; intros p; [reflexivity|].
  simpl. replace (handle c net sort (Incoming url) p) with p; [apply IH|].
  unfold handle. destruct (ended p); [reflexivity|].
  rewrite server_routes. repeat case_bool_decide; try reflexivity. contradiction.
Qed.

Lemma only_api_changes_state_witness :
  Forall (fun url => url ≠ "/api") ["/"; "/stats"; "/favicon.ico"]
  ∧ serve first Sample.failing Sample.chronological
      (map Incoming ["/"; "/stats"; "/favicon.ico"]) (boot []) = boot [].
Proof.
  assert (Hurls : Forall (fun url => url ≠ "/api") ["/"; "/stats"; "/favicon.ico"]).
  { repeat constructor; discriminate. }
  split; [exact Hurls|].
  exact (only_api_changes_state first Sample.failing Sample.chronological _ (boot []) Hurls).
Defined.

(** X5. The trigger route answers with the acknowledgement at once, without
    waiting for the run it starts, and handling it never ends the
    process: no error of the run reaches the route. *)
Theorem api_route_acknowledges (c : copy) (net : network)
    (sort : list json → list json) (p : process) :
  fst (server c sort "/api" p) = Acknowledged
  ∧ ended (handle c net sort (Incoming "/api") p) = ended p.
Proof.
  split; [|apply incoming_ended].
  rewrite server_routes. repeat case_bool_decide; try reflexivity; try contradiction.
  exfalso. apply api_is_no_page. assumption.
Qed.

Lemma answer_crashed c net f st e st' :
  answer c net f st = Crashed e st' →
  (c = first ∧ e = ParseError
   ∧ ∃ statusCode, net (serial f) (target f) = Response statusCode None
                   ∧ statusCode < BAD_REQUEST)
  ∨ (guarded f = false
     ∧ ∃ message, e = NetworkError message
                  ∧ net (serial f) (target f) = ConnectionError message).
Proof.
  destruct c; simpl; unfold First.answer, Second.answer, BAD_REQUEST;
    destruct (net (serial f) (target f)) as [message | | statusCode [body|]];
    try destruct (guarded f) eqn:Hg; try destruct (timed f);
    try destruct (Z.leb_spec 400 statusCode); try discriminate; intros [= <- <-].
  all: try (right; split; [reflexivity|]; exists message; split; reflexivity).
  all: left; repeat split; exists statusCode; split; [reflexivity | assumption].
Qed.

(** X16. The process ends in the first copy only, and only when the network
    answers a request in flight: with a response below 400 whose body is
    not JSON, or with a connection error for a request that has no
    ['error'] listener, which is the case when the timeout of the process
    is out of range.  The second copy never ends. *)
Theorem process_ends_in_first_copy_only (c : copy) (net : network)
    (sort : list json → list json) (args : list string) (events : list event)
    (ev : event) (e : error) :
  let p := serve c net sort events (boot args) in
  ended p = None → ended (handle c net sort ev p) = Some e →
  c = first ∧
  ∃ n f, ev = Arrival n ∧ f ∈ in_flight p ∧ serial f = n ∧
    ((e = ParseError
      ∧ ∃ statusCode, net n (target f) = Response statusCode None
                      ∧ statusCode < BAD_REQUEST)
     ∨ (∃ message, e = NetworkError message
                   ∧ net n (target f) = ConnectionError message
                   ∧ setTimeout (timeout (memory p)) = OutOfRange)).
Proof.
  intros p Hlive Hend.
  assert (H : steady c (fun _ _ => True)
                (fun f st => guarded f = false →
                             c = first ∧ setTimeout (timeout st) = OutOfRange) p).
  { apply steady_serve; auto.
    - intros _ e0 st _ _ _. rewrite launch_timeout.
      destruct c; simpl; unfold First.launch, Second.launch;
        destruct (setTimeout (timeout st)); simpl; intros; try discriminate; auto.
    - intros f st st' Hf [_ Ht] Hg. rewrite Ht. apply Hf, Hg.
    - apply steady_boot. exact Logic.I. }
  destruct H as (_ & Hc & HFl).
  destruct ev as [url | n]; [rewrite incoming_ended, Hlive in Hend; discriminate|].
  unfold handle in Hend. rewrite Hlive in Hend. unfold arrival in Hend.
  assert (Hcrash : ∀ f st st', f ∈ in_flight p → serial f = n →
            answer c net f st = Crashed e st' →
            c = first ∧
            ∃ m g, Arrival n = Arrival m ∧ g ∈ in_flight p ∧ serial g = m ∧
              ((e = ParseError
                ∧ ∃ statusCode, net m (target g) = Response statusCode None
                                ∧ statusCode < BAD_REQUEST)
               ∨ (∃ message, e = NetworkError message
                             ∧ net m (target g) = ConnectionError message
                             ∧ setTimeout (timeout (memory p)) = OutOfRange))).
  { intros f st st' Hf Hn Hans.
    destruct (answer_crashed c net f st e st' Hans)
      as [(-> & -> & statusCode & Hnet & Hlt) | (Hg & message & -> & Hnet)].
    - split; [reflexivity|]. exists n, f. rewrite <- Hn at 3.
      repeat split; try assumption. left. split; [reflexivity|].
      exists statusCode. rewrite <- Hn. auto.
    - destruct (HFl f Hf Hg) as [-> Ht]. split; [reflexivity|]. exists n, f.
      repeat split; try assumption. right. exists message. rewrite <- Hn. auto. }
  destruct (pick n (suspended p)) as [[[f k] rest]|] eqn:Hpick.
  - destruct (pick_Some n _ f k rest Hpick) as (Hn & Hin & _ & _).
    assert (Hf : f ∈ in_flight p) by (apply in_flight_elem; left; exists k; exact Hin).
    destruct (Hc f k Hin) as [_ Hk].
    destruct (answer c net f (memory p)) as [v st | e1 st | e1 st | st] eqn:Hans.
    + rewrite (proceed_ended c st) in Hend; [simpl in Hend; congruence|].
      apply Hk, (answer_resumed c net f (memory p)), Hans.
    + rewrite (proceed_ended c st) in Hend; [simpl in Hend; congruence|].
      apply Hk, rejection_resumed.
    + simpl in Hend. injection Hend as ->. apply (Hcrash f _ _ Hf Hn Hans).
    + congruence.
  - destruct (orphan n (memory p)) as [f|] eqn:Horphan; [|congruence].
    destruct (orphan_Some n _ f Horphan) as [Hin Hn].
    assert (Hf : f ∈ in_flight p) by (apply in_flight_elem; right; exact Hin).
    destruct (answer c net f (land f (memory p))) as [v st | e1 st | e1 st | st] eqn:Hans;
      simpl in Hend; try congruence.
    injection Hend as ->. apply (Hcrash f _ _ Hf Hn Hans).
Qed.

Lemma process_ends_in_first_copy_only_witness :
  let p := serve first Sample.garbled Sample.chronological [Incoming "/api"] (boot []) in
  ended p = None
  ∧ ended (handle first Sample.garbled Sample.chronological (Arrival 0) p) = Some ParseError
  ∧ first = first
  ∧ ∃ n f, Arrival 0 = Arrival n ∧ f ∈ in_flight p ∧ serial f = n ∧
      ((ParseError = ParseError
        ∧ ∃ statusCode, Sample.garbled n (target f) = Response statusCode None
                        ∧ statusCode < BAD_REQUEST)
       ∨ (∃ message, ParseError = NetworkError message
                     ∧ Sample.garbled n (target f) = ConnectionError message
                     ∧ setTimeout (timeout (memory p)) = OutOfRange)).
Proof.
  intros p.
  assert (Hlive : ended p = None) by (vm_compute; reflexivity).
  assert (Hend : ended (handle first Sample.garbled Sample.chronological (Arrival 0) p)
                 = Some ParseError) by (vm_compute; reflexivity).
  split; [exact Hlive | split; [exact Hend|]].
  exact (process_ends_in_first_copy_only first Sample.garbled Sample.chronological
           [] [Incoming "/api"] (Arrival 0) ParseError Hlive Hend).
Defined.

(** ** The cache over a lifetime *)

(** X8. An entry of the cache that holds a truthy value, under another
    endpoint than [films/], is never replaced or changed for the rest of
    the lifetime, provided no request for its endpoint is in flight when
    it is observed: no request is made for it again, and no handler but
    the film handler writes to its argument.  (A request in flight, issued
    by a run that overlapped the one that filled the entry, replaces the
    entry when it is answered.) *)
Theorem cached_entries_are_stable (c : copy) (net : network)
    (sort : list json → list json) (args : list string) (events more : list event)
    (e : string) (v : json) :
  let p := serve c net sort events (boot args) in
  e ≠ "films/" → cache (memory p) !! e = Some v → truthy v = true →
  (∀ f, f ∈ in_flight p → target f ≠ e) →
  cache (memory (serve c net sort more p)) !! e = Some v.
Proof.
  intros p He Hv Ht Hfl.
  assert (H : steady c (fun _ st => cache st !! e = Some v) (fun f _ => target f ≠ e)
                (serve c net sort more p)).
  { apply steady_serve; auto.
    - intros _ st st' HI Hm.
      destruct Hm as [e0 s | e0 s _ _ | m s _ | e0 v0 w s Hv0 Hw _ | s]; try exact HI.
      + rewrite launch_cache. exact HI.
      + simpl. destruct (decide (e0 = e)) as [-> | Hne].
        * rewrite lookup_insert_eq, (Hw He). congruence.
        * rewrite lookup_insert_ne by exact Hne. exact HI.
    - intros _ f st HI Hf. destruct (answer_frame c net f st) as [-> | [w ->]]; [exact HI|].
      simpl. rewrite lookup_insert_ne by exact Hf. exact HI.
    - intros _ e0 st HI Hmiss _. rewrite launch_target. intros ->.
      specialize (Hmiss v HI). congruence.
    - split; [exact Hv | split; [apply reachable_on_course | exact Hfl]]. }
  apply H.
Qed.

Lemma cached_entries_are_stable_witness :
  let p := serve first Sample.healthy Sample.chronological
             (Incoming "/api" :: map Arrival [0; 1; 2; 3; 4]%nat) (boot []) in
  "planets/?page=1" ≠ "films/"
  ∧ cache (memory p) !! "planets/?page=1" = Some Sample.planets
  ∧ truthy Sample.planets = true
  ∧ (∀ f, f ∈ in_flight p → target f ≠ "planets/?page=1")
  ∧ cache (memory (serve first Sample.healthy Sample.chronological
                     [Incoming "/api"; Incoming "/api"; Arrival 6; Arrival 5] p))
      !! "planets/?page=1" = Some Sample.planets.
Proof.
  intros p.
  assert (He : "planets/?page=1" ≠ "films/") by discriminate.
  assert (Hv : cache (memory p) !! "planets/?page=1" = Some Sample.planets)
    by (vm_compute; reflexivity).
  assert (Ht : truthy Sample.planets = true) by reflexivity.
  assert (Hfl : ∀ f, f ∈ in_flight p → target f ≠ "planets/?page=1").
  { intros f Hf. vm_compute in Hf. inversion Hf. }
  split; [exact He | split; [exact Hv | split; [exact Ht | split; [exact Hfl|]]]].
  exact (cached_entries_are_stable first Sample.healthy Sample.chronological []
           (Incoming "/api" :: map Arrival [0; 1; 2; 3; 4]%nat)
           [Incoming "/api"; Incoming "/api"; Arrival 6; Arrival 5] _ _ He Hv Ht Hfl).
Defined.

(** X9. Throughout a lifetime every key of the cache is an endpoint for
    which an outbound request has been issued: the cache is filled by
    responses only, in whatever order they arrive. *)
Theorem cached_keys_were_requested (c : copy) (net : network)
    (sort : list json → list json) (args : list string) (events : list event)
    (e : string) :
  let st := memory (serve c net sort events (boot args)) in
  is_Some (cache st !! e) → e ∈ requests st.
Proof.
  intros st. revert e. change (requested_keys st). subst st.
  assert (H : steady c (fun _ st => requested_keys st) (fun f st => target f ∈ requests st)
                (serve c net sort events (boot args))).
  { apply steady_serve; auto.
    - intros _ st st' HI Hm.
      destruct Hm as [e0 s | e0 s _ _ | m s _ | e0 v0 w s Hv0 _ _ | s]; try exact HI.
      + intros e He. rewrite launch_cache in He. rewrite launch_requests.
        apply elem_of_app. left. apply HI, He.
      + intros e He. simpl in *. destruct (decide (e0 = e)) as [-> | Hne].
        * apply HI. eauto.
        * rewrite lookup_insert_ne in He by exact Hne. apply HI, He.
    - intros _ f st HI Hf. destruct (answer_frame c net f st) as [-> | [w ->]]; [exact HI|].
      intros e He. simpl in *. destruct (decide (target f = e)) as [<- | Hne]; [exact Hf|].
      rewrite lookup_insert_ne in He by exact Hne. apply HI, He.
    - intros _ e0 st _ _ _. rewrite launch_target, launch_requests.
      apply elem_of_app. right. constructor.
    - intros f st st' Hf [[k Hk] _]. rewrite Hk. apply elem_of_app. left. exact Hf.
    - apply steady_boot. intros e [v Hv].
      destruct (command_line_frame args init) as (Hc & _).
      simpl in Hv. rewrite Hc in Hv. simpl in Hv. rewrite lookup_empty in Hv. discriminate. }
  apply H.
Qed.

Lemma cached_keys_were_requested_witness :
  let st := memory (serve second Sample.healthy Sample.chronological
                      [Incoming "/api"; Incoming "/api"; Arrival 1] (boot [])) in
  is_Some (cache st !! "people/1") ∧ "people/1" ∈ requests st.
Proof.
  intros st.
  assert (Hsome : is_Some (cache st !! "people/1")).
  { exists Sample.person. vm_compute. reflexivity. }
  split; [exact Hsome|].
  exact (cached_keys_were_requested second Sample.healthy Sample.chronological
           [] [Incoming "/api"; Incoming "/api"; Arrival 1] "people/1" Hsome).
Defined.

Lemma planned_calls_are_reachable id e :
  1 <= id → e ∈ planned_calls first id → e ∈ reachable_endpoints.
Proof.
  intros Hid He. unfold planned_calls in He. unfold reachable_endpoints.
  apply elem_of_app in He as [He | He]; apply elem_of_app; [left; exact He|].
  right. destruct (Z.leb_spec id maxlastCharacterId) as [Hle | Hgt]; [|inversion He].
  apply list_elem_of_singleton in He as ->.
  apply list_elem_of_In, in_map, list_elem_of_In, elem_of_seqZ. lia.
Qed.

Lemma boot_rotating_id args : lastCharacterId (memory (boot args)) = 1.
Proof.
  destruct (command_line_frame args init) as (_ & _ & _ & _ & Hid & _). exact Hid.
Qed.

Lemma boot_cache args : cache (memory (boot args)) = ∅.
Proof. destruct (command_line_frame args init) as (Hc & _). exact Hc. Qed.

Lemma double_1 : double 1.
Proof. split; [lia | apply round53_small; lia]. Qed.

(** X10. Over a lifetime the cache of the first copy holds entries for the
    endpoints of its table and for the vehicles 1 to 4 only, so that the
    [cache_size] of the statistics never exceeds 8, however the runs
    overlap. *)
Theorem cache_size_is_bounded (net : network) (sort : list json → list json)
    (args : list string) (events : list event) :
  let st := memory (serve first net sort events (boot args)) in
  (∀ e, is_Some (cache st !! e) → e ∈ reachable_endpoints)
  ∧ cache_size (statsStringfied st) <= 8.
Proof.
  intros st.
  assert (H : steady first
                (fun _ st => double (lastCharacterId st) ∧ 1 <= lastCharacterId st
                             ∧ ∀ e, is_Some (cache st !! e) → e ∈ reachable_endpoints)
                (fun f _ => target f ∈ reachable_endpoints)
                (serve first net sort events (boot args))).
  { apply steady_serve; auto.
    - intros _ s s' (Hd & Hid & Hkeys) Hm.
      destruct Hm as [e0 s | e0 s _ _ | m s _ | e0 v0 w s Hv0 _ _ | s]; auto.
      + rewrite launch_id, launch_cache. auto.
      + split; [exact Hd | split; [exact Hid|]]. intros e He. simpl in He.
        destruct (decide (e0 = e)) as [-> | Hne]; [apply Hkeys; eauto|].
        rewrite lookup_insert_ne in He by exact Hne. apply Hkeys, He.
      + simpl. split; [apply add_double; [exact Hd | lia]|]. split; [|exact Hkeys].
        pose proof (add_ge (lastCharacterId s) 1 Hd). unfold incr. lia.
    - intros _ f s (Hd & Hid & Hkeys) Hf.
      destruct (answer_frame first net f s) as [-> | [w ->]]; [auto|].
      split; [exact Hd | split; [exact Hid|]]. intros e He. simpl in He.
      destruct (decide (target f = e)) as [<- | Hne]; [exact Hf|].
      rewrite lookup_insert_ne in He by exact Hne. apply Hkeys, He.
    - intros _ e0 s (_ & Hid & _) _ He. rewrite launch_target.
      apply (planned_calls_are_reachable _ _ Hid He).
    - apply steady_boot. rewrite boot_rotating_id, boot_cache.
      split; [apply double_1 | split; [lia|]].
      intros e [v Hv]. rewrite lookup_empty in Hv. discriminate. }
  destruct H as ((_ & _ & Hkeys) & _). fold st in Hkeys. split; [exact Hkeys|].
  assert (Hsub : dom (cache st) ⊆ (list_to_set reachable_endpoints : gset string)).
  { intros e He. apply elem_of_dom in He. apply elem_of_list_to_set, Hkeys, He. }
  apply subseteq_size in Hsub. rewrite size_dom in Hsub.
  assert (Hnodup : NoDup reachable_endpoints).
  { apply (bool_decide_unpack _). vm_compute. reflexivity. }
  rewrite size_list_to_set in Hsub by exact Hnodup.
  unfold statsStringfied, cache_size.
  assert (Hlen : length reachable_endpoints = 8%nat) by (vm_compute; reflexivity).
  lia.
Qed.

(** ** The rotating id over a lifetime *)

(** X12. Throughout a lifetime the rotating id is at least 1, and every
    request for a vehicle is for one of the vehicles 1 to 4: the id is
    compared with the ceiling before the request is issued.  (The id
    itself can pass 5 when runs overlap.) *)
Theorem vehicle_requests_stay_in_range (c : copy) (net : network)
    (sort : list json → list json) (args : list string) (events : list event) :
  let st := memory (serve c net sort events (boot args)) in
  1 <= lastCharacterId st
  ∧ ∀ e, e ∈ requests st → is_vehicle_fetch e = true →
         e ∈ map (with_id "vehicles/") [1; 2; 3; 4].
Proof.
  intros st.
  assert (H : steady c
                (fun _ st => double (lastCharacterId st) ∧ 1 <= lastCharacterId st
                             ∧ ∀ e, e ∈ requests st → is_vehicle_fetch e = true →
                                    e ∈ map (with_id "vehicles/") [1; 2; 3; 4])
                (fun _ _ => True) (serve c net sort events (boot args))).
  { apply steady_serve; auto.
    - intros _ s s' (Hd & Hid & Hreq) Hm.
      destruct Hm as [e0 s | e0 s _ He0 | m s _ | e0 v0 w s Hv0 _ _ | s]; auto.
      + rewrite launch_id, launch_requests. split; [exact Hd | split; [exact Hid|]].
        intros e He Hv. apply elem_of_app in He as [He | He]; [apply Hreq; assumption|].
        apply list_elem_of_singleton in He as ->. unfold planned_calls in He0.
        apply elem_of_app in He0 as [He0 | He0].
        * pose proof (task_endpoints_are_no_vehicle c (lastCharacterId s)) as Hall.
          rewrite Forall_forall in Hall. rewrite (Hall _ He0) in Hv. discriminate.
        * destruct (Z.leb_spec (lastCharacterId s) maxlastCharacterId) as [Hle | Hgt];
            [|inversion He0].
          apply list_elem_of_singleton in He0 as ->. unfold maxlastCharacterId in Hle.
          assert (Hcases : lastCharacterId s = 1 ∨ lastCharacterId s = 2
                           ∨ lastCharacterId s = 3 ∨ lastCharacterId s = 4) by lia.
          cbn [map]. rewrite !elem_of_cons.
          destruct Hcases as [-> | [-> | [-> | ->]]]; auto.
      + simpl. split; [apply add_double; [exact Hd | lia]|]. split; [|exact Hreq].
        pose proof (add_ge (lastCharacterId s) 1 Hd). unfold incr. lia.
    - intros _ f s HI _.
      destruct (answer_frame c net f s) as [-> | [w ->]]; exact HI.
    - apply steady_boot. rewrite boot_rotating_id.
      split; [apply double_1 | split; [lia|]].
      destruct (command_line_frame args init) as (_ & _ & _ & _ & _ & Hr & _).
      intros e He. simpl in He. rewrite Hr in He. inversion He. }
  destruct H as ((_ & Hid & Hreq) & _). split; assumption.
Qed.

(** ** The error counter over a lifetime *)

Lemma errors_after_double n st : double (errorCount st) → double (errors_after n st).
Proof.
  intros Hd. unfold errors_after. induction n as [|n IH]; [exact Hd|].
  simpl. apply add_double; [exact IH | lia].
Qed.

Lemma errors_after_incr n st :
  errors_after n (set_errorCount incr st) = errors_after (S n) st.
Proof.
  unfold errors_after. simpl. induction n as [|n IH]; [reflexivity|].
  simpl. rewrite IH. reflexivity.
Qed.

(** X14. Throughout a lifetime the error counter is at most the call counter,
    and neither is negative: an invocation counts itself when it starts
    and at most one error when it ends, and the runs that are suspended
    have counted themselves already. *)
Theorem errors_at_most_api_calls (c : copy) (net : network)
    (sort : list json → list json) (args : list string) (events : list event) :
  let s := statsStringfied (memory (serve c net sort events (boot args))) in
  0 <= errors s <= api_calls s.
Proof.
  simpl.
  assert (Hsame : ∀ n st st', errorCount st' = errorCount st → fetchCount st' = fetchCount st →
            double (errorCount st) ∧ double (fetchCount st)
            ∧ errors_after n st <= fetchCount st →
            double (errorCount st') ∧ double (fetchCount st')
            ∧ errors_after n st' <= fetchCount st').
  { intros n st st' He Hf. unfold errors_after. rewrite He, Hf. auto. }
  assert (H : steady c
                (fun n st => double (errorCount st) ∧ double (fetchCount st)
                             ∧ errors_after n st <= fetchCount st)
                (fun _ _ => True) (serve c net sort events (boot args))).
  { apply steady_serve; auto.
    - intros n st st' HI Hm. apply (Hsame n st); [| |exact HI];
        destruct Hm as [e0 s | e0 s _ _ | m s _ | e0 v0 w s _ _ _ | s]; try reflexivity;
        apply (launch_counters c e0 s).
    - intros n st (He & Hf & Hle). split; [exact He|].
      split; [apply add_double; [exact Hf | lia]|].
      change (incr (errors_after n st) <= incr (fetchCount st)).
      apply incr_mono; [apply errors_after_double, He | exact Hf | exact Hle].
    - intros n st (He & Hf & Hle). split; [exact He | split; [exact Hf|]].
      pose proof (add_ge (errors_after n st) 1 (errors_after_double n st He)).
      change (errors_after (S n) st) with (incr (errors_after n st)) in Hle.
      unfold incr in Hle. lia.
    - intros n st (He & Hf & Hle). split; [apply add_double; [exact He | lia]|].
      split; [exact Hf|]. rewrite errors_after_incr. exact Hle.
    - intros n f st HI _. apply (Hsame n st); [| |exact HI];
        destruct (answer_frame c net f st) as [-> | [w ->]]; reflexivity.
    - apply steady_boot.
      destruct (command_line_frame args init) as (_ & He & Hf & _).
      unfold errors_after. simpl. rewrite He, Hf. simpl.
      repeat split; try lia; apply round53_small; lia. }
  destruct H as ((He & Hf & Hle) & _).
  set (p := serve c net sort events (boot args)) in *.
  pose proof (errors_after_double (length (suspended p)) (memory p) He) as Hd.
  split; [apply He|]. etrans; [|exact Hle].
  clear Hle Hd. unfold errors_after. induction (length (suspended p)) as [|n IH]; [reflexivity|].
  etrans; [exact IH|]. simpl. apply add_ge; [|lia].
  apply (errors_after_double n (memory p) He).
Qed.

(** ** Failures of a fetch *)

(** X15. A call that does not succeed leaves the cache as it was, and, unless
    it fails with the RangeError of [setTimeout], it leaves no request
    behind that could write to the cache later. *)
Theorem failed_fetch_writes_nothing (c : copy) (net : network) (endpoint : string)
    (st : state) :
  match fetchFromApi c net endpoint st with
  | Ok _ _ => True
  | Thrown e st' =>
      cache st' = cache st ∧ (e ≠ RangeError → orphans st' = orphans st)
  | Crashed _ st' | Waiting st' => cache st' = cache st ∧ orphans st' = orphans st
  end.
Proof.
  destruct c; simpl;
    unfold First.fetchFromApi, Second.fetchFromApi, First.request, Second.request,
      First.launch, Second.launch, First.answer, Second.answer;
    repeat case_match; simplify_eq; simpl; auto; split; auto; intros; congruence.
Qed.

(** X26. With a timeout that is not a number ([--timeout abc]) [setTimeout]
    throws: the call is rejected with its RangeError and the invocation
    counts an error, but the request has been issued and its listeners
    remain.  When the response arrives it is stored in the cache all the
    same; and in the first copy, where the ['error'] listener was not yet
    attached, a connection error then ends the process. *)
Theorem out_of_range_timeout_leaves_the_request :
  let args := ["--timeout"; "abc"] in
  let unreachable : network := fun _ _ => ConnectionError "ECONNRESET" in
  let p c net := handle c net Sample.chronological (Incoming "/api") (boot args) in
  setTimeout (timeout (memory (boot args))) = OutOfRange
  ∧ First.fetchFromApi Sample.healthy "people/1" (memory (boot args))
    = Thrown RangeError
        (abandon (Flight 0 "people/1" false false false)
           (log_request "people/1" (log_call "people/1" (memory (boot args)))))
  ∧ Second.fetchFromApi Sample.healthy "people/1" (memory (boot args))
    = Thrown RangeError
        (abandon (Flight 0 "people/1" false true false)
           (log_request "people/1" (log_call "people/1" (memory (boot args)))))
  ∧ length (suspended (p second Sample.healthy)) = 0%nat
  ∧ errors (statsStringfied (memory (p second Sample.healthy))) = 1
  ∧ cache (memory (p second Sample.healthy)) !! "people/1" = None
  ∧ in_flight (p second Sample.healthy) = [Flight 0 "people/1" false true false]
  ∧ cache (memory (handle second Sample.healthy Sample.chronological (Arrival 0)
                     (p second Sample.healthy))) !! "people/1" = Some Sample.person
  ∧ ended (handle second unreachable Sample.chronological (Arrival 0) (p second unreachable))
    = None
  ∧ ended (handle first unreachable Sample.chronological (Arrival 0) (p first unreachable))
    = Some (NetworkError "ECONNRESET").
Proof. vm_compute. repeat split; reflexivity. Qed.

(** X27. When runs overlap the rotating id passes its ceiling: eight
    invocations of the second copy started together have all compared the
    id 1 with the ceiling before any of them advances it, each advances
    it once, and the next invocation asks for the person 9. *)
Theorem overlapping_runs_pass_the_ceiling :
  let events := replicate 8 (Incoming "/api") ++ map Arrival (seq 0 40) in
  let p := serve second Sample.healthy Sample.chronological events (boot []) in
  length (suspended p) = 0%nat
  ∧ lastCharacterId (memory p) = 9
  ∧ filter (fun e => bool_decide (is_vehicle_fetch e = true)) (requests (memory p))
    = replicate 8 "vehicles/1"
  ∧ last (requests (memory (handle second Sample.healthy Sample.chronological
                              (Incoming "/api") p))) = Some "people/9".
Proof. vm_compute. repeat split; reflexivity. Qed.
